(** * Agora WoT proxy: resource materialization pipeline

    A shallow embedding of [agora_wot/proxy.py]: the seed registry
    ([Proxy.__init__], [instantiate_seed]), the endpoint composer
    ([compose_endpoints]), the mapping engine ([apply_mappings]), the
    JSON-LD enricher ([enrich]), the RDF materializer ([ld_triples]) and
    the orchestrator ([describe_resource]); and of the table of scholars
    of the gateway ([agora_wot/gateway/__init__.py]: [_scholar],
    [shutdown]).

    Conventions of the embedding.
    - Python exceptions are values of [exn]; a computation that may raise
      and that mutates objects in place is a function
      [S -> Result A * S]: the state survives a [Raise], as the objects
      mutated before a Python exception do.
    - JSON data lives in a heap of mutable objects ([Heap]): dictionaries,
      lists and callables are referred to by location, so two fields that
      hold the same Python object hold the same [VRef].
    - An rdflib graph and the seed [set] are lists without duplicates
      (insertion ignores an element that is already there).
    - Everything the proxy imports from other packages (agora, rdflib,
      pyld, jsonpath_rw, isodate, shortuuid, the email and datetime
      modules, [agora_wot.blocks], [agora_wot.utils]) is a field of the
      record [Env]. *)

From Stdlib Require Import ZArith Lia Ascii String.
From stdpp Require Import base option list strings gmap pretty sorting.

#[local] Set Warnings "-register-all,-clear-no-such-hyp".

Local Open Scope string_scope.
Local Open Scope list_scope.
Local Open Scope stdpp_scope.

(* ================================================================== *)
(** * Exceptions and the state-and-error monad *)
(* ================================================================== *)

Inductive exn :=
| KeyError | TypeError | IndexError | ValueError | AttributeError
| RuntimeError                     (* maximum recursion depth exceeded *)
| ExternalError (msg : string)     (* raised by a collaborator *)
| SystemExit | KeyboardInterrupt.  (* not instances of [Exception] *)

(** [isinstance(e, Exception)]: what [except Exception] catches. *)
Definition is_Exception (e : exn) : bool :=
  match e with
  | SystemExit | KeyboardInterrupt => false
  | _ => true
  end.

Inductive Result (A : Type) :=
| Ok (a : A)
| Raise (e : exn).
Arguments Ok {A} a.
Arguments Raise {A} e.

Definition M (S A : Type) : Type := S → Result A * S.

Section Monad.
Context {S : Type}.

Definition ret {A} (a : A) : M S A := λ s, (Ok a, s).
Definition raise {A} (e : exn) : M S A := λ s, (Raise e, s).
Definition bind {A B} (c : M S A) (k : A → M S B) : M S B :=
  λ s, match c s with
       | (Ok a, s') => k a s'
       | (Raise e, s') => (Raise e, s')
       end.
Definition get : M S S := λ s, (Ok s, s).
Definition gets {A} (f : S → A) : M S A := λ s, (Ok (f s), s).
Definition modify (f : S → S) : M S unit := λ s, (Ok tt, f s).
Definition lift_result {A} (r : Result A) : M S A := λ s, (r, s).

(** [for x in xs: body(x)] over a list fixed when the loop starts. *)
Fixpoint for_each {A} (xs : list A) (body : A → M S unit) : M S unit :=
  match xs with
  | [] => ret tt
  | x :: xs' => bind (body x) (λ _, for_each xs' body)
  end.
End Monad.

Notation "x <~ c ;; k" := (bind c (λ x, k))
  (at level 100, c at next level, right associativity,
   format "'[v' x  <~  c  ;;  '/' k ']'").
Notation "c ;;; k" := (bind c (λ _, k))
  (at level 100, right associativity).

(* ================================================================== *)
(** * RDF terms and graphs (rdflib) *)
(* ================================================================== *)

(** A Python float, by its IEEE-754 binary64 encoding.  The proxy only
    obtains floats from [float(...)] and hands them to library calls. *)
Inductive PyFloat := Binary64 (bits : Z).

(** A [datetime]: the wall-clock reading in microseconds counted from
    1970-01-01T00:00:00 on the proleptic calendar, and the UTC offset in
    seconds of an aware value ([None] for a naive one). *)
Record DateTime := mkDateTime { dt_micros : Z; dt_utcoffset : option Z }.

Inductive LitValue :=
| LStr (s : string)
| LInt (z : Z)
| LBool (b : bool)
| LFloat (f : PyFloat)
| LDateTime (d : DateTime).

Inductive Term :=
| URIRef (iri : string)
| BNode (bid : string)
| Literal (value : LitValue) (datatype : option string).

Definition Triple : Type := Term * Term * Term.
Definition Graph : Type := list Triple.

#[global] Instance PyFloat_eq_dec : EqDecision PyFloat.
Proof. solve_decision. Defined.
#[global] Instance DateTime_eq_dec : EqDecision DateTime.
Proof. solve_decision. Defined.
#[global] Instance LitValue_eq_dec : EqDecision LitValue.
Proof. solve_decision. Defined.
#[global] Instance Term_eq_dec : EqDecision Term.
Proof. solve_decision. Defined.

(** [g.add(t)]: a graph is a set of triples. *)
Definition graph_add (t : Triple) (g : Graph) : Graph :=
  if decide (t ∈ g) then g else g ++ [t].

Definition RDF_type : Term :=
  URIRef "http://www.w3.org/1999/02/22-rdf-syntax-ns#type".
Definition OWL_sameAs : Term :=
  URIRef "http://www.w3.org/2002/07/owl#sameAs".
Definition XSD_dateTime : string :=
  "http://www.w3.org/2001/XMLSchema#dateTime".
Definition RDFS_Literal : string :=
  "http://www.w3.org/2000/01/rdf-schema#Literal".

Definition is_BNode (t : Term) : bool :=
  match t with BNode _ => true | _ => false end.

(** Instantiation arguments: the [**kwargs] of [instantiate_seed] and the
    dictionary decoded from the [b64] path segment.  Their names are
    instantiation variables, distinct from the formal parameter names
    [tid] and [b64] of [url_for]. *)
Definition Args : Type := list (string * LitValue).

Fixpoint assoc {A} (k : string) (kvs : list (string * A)) : option A :=
  match kvs with
  | [] => None
  | (k', v) :: rest => if decide (k' = k) then Some v else assoc k rest
  end.

(* ================================================================== *)
(** * Thing descriptions (agora_wot.blocks) *)
(* ================================================================== *)

Record Endpoint := mkEndpoint {
  e_href : option string;
  e_whref : option string;
  e_order : Z
}.

Record Mapping := mkMapping {
  m_key : string;
  m_predicate : Term;
  m_path : option string;
  m_limit : bool;
  m_transform : option string       (* the name of a transform *)
}.

Record Resource := mkResource {
  r_node : Term;
  r_types : list Term;
  r_graph : Graph
}.

Record TD := mkTD {
  td_id : string;
  td_resource : Resource;
  td_base : list Endpoint;
  td_rdf_sources : list string;     (* [e.endpoint.href] of each source *)
  td_vars : list string
}.

(** An ecosystem root is a thing description or a plain resource. *)
Inductive Root :=
| RootTD (td : TD)
| RootResource (r : Resource).

Record Ecosystem := mkEcosystem {
  eco_tds : list TD;
  eco_roots : list Root;
  eco_predecessors : string → list string   (* of [ecosystem.network()] *)
}.

#[global] Instance Endpoint_eq_dec : EqDecision Endpoint.
Proof. solve_decision. Defined.
#[global] Instance Mapping_eq_dec : EqDecision Mapping.
Proof. solve_decision. Defined.
#[global] Instance Resource_eq_dec : EqDecision Resource.
Proof. solve_decision. Defined.
#[global] Instance TD_eq_dec : EqDecision TD.
Proof. solve_decision. Defined.
#[global] Instance Root_eq_dec : EqDecision Root.
Proof. solve_decision. Defined.

(** Terms are dictionary keys ([Proxy.__ndict]). *)
#[global] Instance PyFloat_countable : Countable PyFloat.
Proof.
  apply (inj_countable' (λ f, match f with Binary64 b => b end) Binary64).
  by intros [].
Defined.
#[global] Instance DateTime_countable : Countable DateTime.
Proof.
  apply (inj_countable' (λ d, (dt_micros d, dt_utcoffset d))
           (λ p, mkDateTime p.1 p.2)).
  by intros [].
Defined.
#[global] Instance LitValue_countable : Countable LitValue.
Proof.
  apply (inj_countable'
    (λ v, match v with
          | LStr s => inl s
          | LInt z => inr (inl z)
          | LBool b => inr (inr (inl b))
          | LFloat f => inr (inr (inr (inl f)))
          | LDateTime d => inr (inr (inr (inr d)))
          end)
    (λ x, match x with
          | inl s => LStr s
          | inr (inl z) => LInt z
          | inr (inr (inl b)) => LBool b
          | inr (inr (inr (inl f))) => LFloat f
          | inr (inr (inr (inr d))) => LDateTime d
          end)).
  by intros [].
Defined.
#[global] Instance Term_countable : Countable Term.
Proof.
  apply (inj_countable'
    (λ t, match t with
          | URIRef s => inl s
          | BNode b => inr (inl b)
          | Literal v d => inr (inr (v, d))
          end)
    (λ x, match x with
          | inl s => URIRef s
          | inr (inl b) => BNode b
          | inr (inr (v, d)) => Literal v d
          end)).
  by intros [].
Defined.

(* ================================================================== *)
(** * JSON data as Python objects *)
(* ================================================================== *)

(** What [response.json()] parses: a tree without sharing. *)
Inductive Json :=
| JNull
| JBool (b : bool)
| JInt (z : Z)
| JFloat (f : PyFloat)
| JStr (s : string)
| JArr (xs : list Json)
| JObj (kvs : list (string * Json)).

Abbreviation loc := nat (only parsing).

(** A Python value: an immutable scalar, or a reference to a mutable
    object. *)
Inductive val :=
| VNone
| VBool (b : bool)
| VInt (z : Z)
| VFloat (f : PyFloat)
| VStr (s : string)
| VRef (l : loc).

(** The closure built by [mapping.transform.attach(data)]: it remembers
    the transform and the value it was attached to. *)
Record Callable := mkCallable { call_transform : string; call_data : val }.

(** A dictionary keeps its keys in insertion order; assigning to a key
    that is present keeps the key where it is. *)
Inductive Obj :=
| ODict (kvs : list (string * val))
| OList (xs : list val)
| OCall (c : Callable).

Abbreviation Heap := (list Obj) (only parsing).

#[global] Instance val_eq_dec : EqDecision val.
Proof. solve_decision. Defined.
#[global] Instance Callable_eq_dec : EqDecision Callable.
Proof. solve_decision. Defined.
#[global] Instance Obj_eq_dec : EqDecision Obj.
Proof. solve_decision. Defined.

(** An entry of a JSON-LD context: [{'@id': ..., '@type': ...}]. *)
Record CtxEntry := mkCtxEntry { ce_id : string; ce_type : option string }.
Abbreviation Context := (gmap string CtxEntry) (only parsing).

#[global] Instance CtxEntry_eq_dec : EqDecision CtxEntry.
Proof. solve_decision. Defined.

(** A term of a normalized JSON-LD statement (pyld): a dictionary with
    the keys [type], [value] and, for a literal, [datatype]. *)
Record NTerm := mkNTerm {
  nt_type : string;
  nt_value : string;
  nt_datatype : string
}.
Definition NTriple : Type := NTerm * NTerm * NTerm.

(** What the fountain answers for a type and for a property. *)
Record TypeInfo := mkTypeInfo {
  ti_properties : list string;
  ti_super : list string
}.
Record PropInfo := mkPropInfo {
  pi_type : string;                 (* 'data' or 'object' *)
  pi_range : list string
}.

(** An upstream response: the status code, what [response.json()] gives
    (it may raise) and what [extract_ttl(response.headers)] gives. *)
Record Response := mkResponse {
  status_code : Z;
  json_body : Result Json;
  ttl_hint : option Z
}.

(* ================================================================== *)
(** * The collaborators *)
(* ================================================================== *)

Record Env := mkEnv {
  (* agora.collector.wrapper.ResourceWrapper *)
  wrapper_url_for : string → option string → string;
  load_graph : string → Result Graph;          (* Graph.load(source=uri) *)
  (* agora_wot.utils *)
  encode_rdict : Args → string;
  (* rdflib and the fountain *)
  n3 : Term → string;                          (* t.n3(ns) *)
  lexical : LitValue → string;                 (* str(Literal(v)) *)
  extend_uri : string → string;
  get_type : string → Result TypeInfo;
  get_property : string → Result PropInfo;
  literal_datatype : Heap → val → option string;  (* Literal(v).datatype *)
  (* the request decoding: eval(base64.b64decode(b64)) *)
  decode_args : string → Result Args;
  (* agora_wot.blocks *)
  invoke : Endpoint → Graph → Term → Args → Result Response;
  endpoint_add : Endpoint → Endpoint → Endpoint;   (* pred_e + base_e *)
  endpoint_mappings : TD → Endpoint → list Mapping;
  provider_apply :
    Callable → Heap → string → Context → list string → Args →
    Result (list val);
  (* jsonpath_rw: the matches of a path, None when parsing or finding
     raises *)
  jsonpath_find : string → Heap → val → option (list val);
  (* pyld *)
  normalize : Context → Heap → val → Result (list NTriple);
  (* shortuuid: the successive draws of shortuuid.uuid() *)
  uuid : nat → string;
  (* Python numbers and dates *)
  float_eqb : PyFloat → PyFloat → bool;
  float_eq_int : PyFloat → Z → bool;
  float_of_string : string → option PyFloat;       (* float(s) *)
  float_micros : PyFloat → option Z;   (* the timestamp in microseconds,
                                          None when out of range *)
  iso_parse_datetime : string → option DateTime;   (* isodate *)
  rfc822_timestamp : string → option Z;  (* mktime_tz(parsedate_tz(s)) *)
  local_utcoffset : Z → Z;       (* the host's zone, seconds east of UTC *)
  (* the interpreter *)
  recursion_limit : nat
}.

(* ================================================================== *)
(** * The proxy: construction and the seed registry *)
(* ================================================================== *)

Definition Seeds : Type := list (Term * string).

Definition seeds_add (x : Term * string) (s : Seeds) : Seeds :=
  if decide (x ∈ s) then s else s ++ [x].

(** The argument [tid] of [url_for]: a resource id, or a graph node. *)
Inductive TidArg :=
| TidId (id : string)
| TidNode (node : Term).

Section Proxy.
Variable env : Env.
Variable eco : Ecosystem.        (* [ted.ecosystem] *)

(** [{t.id: t for t in ted.ecosystem.tds}] *)
Definition rdict : gmap string TD :=
  foldl (λ m t, <[td_id t := t]> m) ∅ (eco_tds eco).
(** [{t.resource.node: t.id for t in ted.ecosystem.tds}] *)
Definition ndict : gmap Term string :=
  foldl (λ m t, <[r_node (td_resource t) := td_id t]> m) ∅ (eco_tds eco).

(** The string an rdflib term is (terms are [unicode] objects): the
    IRI, the blank-node identifier, or the lexical form of a literal. *)
Definition lit_str (v : LitValue) : string :=
  match v with
  | LStr s => s
  | _ => lexical env v
  end.

Definition term_str (t : Term) : string :=
  match t with
  | URIRef s => s
  | BNode b => b
  | Literal v _ => lit_str v
  end.

(** [url_for(tid, b64=None, **kwargs)].  A graph node that is neither
    a blank node nor in [ndict] is handed to the wrapper as it is. *)
Definition url_for (tid : TidArg) (b64 : option string) (kwargs : Args)
  : string :=
  let tid' :=
    match tid with
    | TidId id => id
    | TidNode node =>
        if is_BNode node then
          match ndict !! node with
          | Some id => id
          | None => term_str node
          end
        else term_str node
    end in
  let b64' :=
    match b64, kwargs with
    | None, _ :: _ => Some (encode_rdict env kwargs)
    | _, _ => b64
    end in
  wrapper_url_for env tid' b64'.

(** The loop over the roots in [Proxy.__init__]. *)
Definition init_root_seeds (root : Root) (seeds : Seeds) : Seeds :=
  match root with
  | RootTD td =>
      match td_vars td with
      | _ :: _ => seeds                                   (* continue *)
      | [] =>
          let uri := URIRef (url_for (TidId (td_id td)) None []) in
          foldl (λ s t, seeds_add (uri, n3 env t) s) seeds
                (r_types (td_resource td))
      end
  | RootResource r =>
      foldl (λ s t, seeds_add (r_node r, n3 env t) s) seeds (r_types r)
  end.

Definition init_seeds : Seeds :=
  foldl (λ s root, init_root_seeds root s) [] (eco_roots eco).

(** [instantiate_seed(root, **kwargs)]: the returned value ([None] when
    the function falls off its end) and the seed set afterwards.  The
    argument is a thing description: the body reads [root.id] and
    [root.resource]. *)
Definition instantiate_seed (root : TD) (kwargs : Args) (seeds : Seeds)
  : option Term * Seeds :=
  if decide (RootTD root ∈ eco_roots eco) then
    let uri := URIRef (url_for (TidId (td_id root)) None kwargs) in
    (Some uri,
     foldl (λ s t, seeds_add (uri, n3 env t) s) seeds
           (r_types (td_resource root)))
  else (None, seeds).

(* ---------------------------------------------------------------- *)
(** ** The endpoint composer *)

Definition concat_results {A} (rs : list (Result (list A)))
  : Result (list A) :=
  foldr (λ r acc,
           match r, acc with
           | Ok xs, Ok ys => Ok (xs ++ ys)
           | Raise e, _ => Raise e
           | Ok _, Raise e => Raise e
           end) (Ok []) rs.

(** [compose_endpoints(resource)], the generator run to its end (as
    [sorted] does).  [depth] bounds the nesting of the recursive calls:
    past the interpreter's limit Python raises [RuntimeError]. *)
Fixpoint compose_endpoints (depth : nat) (resource : TD)
  : Result (list Endpoint) :=
  match depth with
  | O => Raise RuntimeError
  | S depth' =>
      concat_results
        ((λ base_e,
            match e_href base_e with
            | None =>
                concat_results
                  ((λ pred,
                      match rdict !! pred with
                      | None => Raise KeyError
                      | Some pred_thing =>
                          match compose_endpoints depth' pred_thing with
                          | Ok pes =>
                              Ok ((λ pred_e, endpoint_add env pred_e base_e)
                                    <$> pes)
                          | Raise e => Raise e
                          end
                      end) <$> eco_predecessors eco (td_id resource))
            | Some _ => Ok [base_e]
            end) <$> td_base resource)
  end.
End Proxy.

(* ================================================================== *)
(** * The state of one [describe_resource] call *)
(* ================================================================== *)

(** The graph [g] and the lifetime [ttl] of the call, the Python objects
    built from the responses, the context dictionary of the running
    [enrich], and the number of [shortuuid.uuid()] draws so far.
    [st_calls] is a ghost log of the endpoints invoked, oldest first,
    each with what its call gave. *)
Record State := mkState {
  st_graph : Graph;
  st_ttl : Z;
  st_calls : list (Endpoint * Result Response);
  st_uuid : nat;
  st_heap : Heap;
  st_ctx : Context
}.

Definition set_graph (g : Graph) (s : State) : State :=
  mkState g (st_ttl s) (st_calls s) (st_uuid s) (st_heap s) (st_ctx s).
Definition set_ttl (t : Z) (s : State) : State :=
  mkState (st_graph s) t (st_calls s) (st_uuid s) (st_heap s) (st_ctx s).
Definition set_calls (c : list (Endpoint * Result Response)) (s : State)
  : State :=
  mkState (st_graph s) (st_ttl s) c (st_uuid s) (st_heap s) (st_ctx s).
Definition set_uuid (n : nat) (s : State) : State :=
  mkState (st_graph s) (st_ttl s) (st_calls s) n (st_heap s) (st_ctx s).
Definition set_heap (h : Heap) (s : State) : State :=
  mkState (st_graph s) (st_ttl s) (st_calls s) (st_uuid s) h (st_ctx s).
Definition set_ctx (c : Context) (s : State) : State :=
  mkState (st_graph s) (st_ttl s) (st_calls s) (st_uuid s) (st_heap s) c.
Arguments set_graph _ _ /.
Arguments set_ttl _ _ /.
Arguments set_calls _ _ /.
Arguments set_uuid _ _ /.
Arguments set_heap _ _ /.
Arguments set_ctx _ _ /.

(* ------------------------------------------------------------------ *)
(** ** Strings *)

(** [s.split(sep)] for a one-character separator. *)
Fixpoint split_on (sep : ascii) (s : string) : list string :=
  match s with
  | EmptyString => [EmptyString]
  | String c rest =>
      if decide (c = sep) then EmptyString :: split_on sep rest
      else match split_on sep rest with
           | [] => [String c EmptyString]
           | w :: ws => String c w :: ws
           end
  end.

(** [b64.replace('%3D', '=')] *)
Fixpoint unquote_padding (s : string) : string :=
  match s with
  | String "%"%char (String "3"%char (String "D"%char rest)) =>
      String "="%char (unquote_padding rest)
  | String c rest => String c (unquote_padding rest)
  | EmptyString => EmptyString
  end.

(* ------------------------------------------------------------------ *)
(** ** Objects *)

Definition obj_at (h : Heap) (v : val) : option Obj :=
  match v with
  | VRef l => h !! l
  | _ => None
  end.

Definition is_dict (h : Heap) (v : val) : bool :=
  match obj_at h v with Some (ODict _) => true | _ => false end.
Definition is_list (h : Heap) (v : val) : bool :=
  match obj_at h v with Some (OList _) => true | _ => false end.
Definition is_callable (h : Heap) (v : val) : bool :=
  match obj_at h v with Some (OCall _) => true | _ => false end.

(** [d[k] = v] on the items of a dictionary *)
Fixpoint dict_set (k : string) (v : val) (kvs : list (string * val))
  : list (string * val) :=
  match kvs with
  | [] => [(k, v)]
  | (k', v') :: rest =>
      if decide (k' = k) then (k, v) :: rest
      else (k', v') :: dict_set k v rest
  end.

Definition alloc (o : Obj) : M State loc :=
  λ s, (Ok (length (st_heap s)), set_heap (st_heap s ++ [o]) s).

(** [md[k]] *)
Definition getitem (md : val) (k : string) : M State val :=
  λ s, match obj_at (st_heap s) md with
       | Some (ODict kvs) =>
           match assoc k kvs with
           | Some v => (Ok v, s)
           | None => (Raise KeyError, s)
           end
       | _ => (Raise TypeError, s)
       end.

(** [md[k] = v] *)
Definition setitem (md : val) (k : string) (v : val) : M State unit :=
  λ s, match md, obj_at (st_heap s) md with
       | VRef l, Some (ODict kvs) =>
           (Ok tt, set_heap (<[l := ODict (dict_set k v kvs)]> (st_heap s)) s)
       | _, _ => (Raise TypeError, s)
       end.

(** [lst.append(v)] *)
Definition append (lst : val) (v : val) : M State unit :=
  λ s, match lst, obj_at (st_heap s) lst with
       | VRef l, Some (OList xs) =>
           (Ok tt, set_heap (<[l := OList (xs ++ [v])]> (st_heap s)) s)
       | _, _ => (Raise AttributeError, s)
       end.

(** [d.update(items)] *)
Definition update (md : val) (items : list (string * val)) : M State unit :=
  for_each items (λ kv, setitem md kv.1 kv.2).

(** The objects of a parsed JSON document. *)
Fixpoint load (j : Json) : M State val :=
  match j with
  | JNull => ret VNone
  | JBool b => ret (VBool b)
  | JInt z => ret (VInt z)
  | JFloat f => ret (VFloat f)
  | JStr s => ret (VStr s)
  | JArr xs =>
      vs <~ (fix load_all (js : list Json) : M State (list val) :=
               match js with
               | [] => ret []
               | j' :: js' =>
                   v <~ load j' ;; vs <~ load_all js' ;; ret (v :: vs)
               end) xs ;;
      l <~ alloc (OList vs) ;;
      ret (VRef l)
  | JObj kvs =>
      items <~ (fix load_items (ms : list (string * Json))
                  : M State (list (string * val)) :=
                  match ms with
                  | [] => ret []
                  | (k, j') :: ms' =>
                      v <~ load j' ;;
                      items <~ load_items ms' ;;
                      ret ((k, v) :: items)
                  end) kvs ;;
      l <~ alloc (ODict (foldl (λ d kv, dict_set kv.1 kv.2 d) [] items)) ;;
      ret (VRef l)
  end.

Fixpoint forall_lazy {A} (f : A → option bool) (xs : list A) : option bool :=
  match xs with
  | [] => Some true
  | x :: rest =>
      match f x with
      | Some true => forall_lazy f rest
      | other => other
      end
  end.

Fixpoint exists_lazy {A} (f : A → option bool) (xs : list A) : option bool :=
  match xs with
  | [] => Some false
  | x :: rest =>
      match f x with
      | Some false => exists_lazy f rest
      | other => other
      end
  end.

Section Objects.
Variable env : Env.

Definition bool_int (b : bool) : Z := if b then 1%Z else 0%Z.

(** [a == b] on Python values; [None] stands for the comparison
    exceeding the recursion limit.  Identical objects are equal;
    lists compare element by element, dictionaries key by key, a
    callable only equals itself, [True == 1]. *)
Fixpoint py_eq (depth : nat) (h : Heap) (a b : val) : option bool :=
  match depth with
  | O => None
  | S depth' =>
      match a, b with
      | VNone, VNone => Some true
      | VBool x, VBool y => Some (bool_decide (x = y))
      | VBool x, VInt z => Some (bool_decide (bool_int x = z))
      | VInt z, VBool x => Some (bool_decide (z = bool_int x))
      | VBool x, VFloat f => Some (float_eq_int env f (bool_int x))
      | VFloat f, VBool x => Some (float_eq_int env f (bool_int x))
      | VInt x, VInt y => Some (bool_decide (x = y))
      | VInt z, VFloat f => Some (float_eq_int env f z)
      | VFloat f, VInt z => Some (float_eq_int env f z)
      | VFloat f, VFloat g => Some (float_eqb env f g)
      | VStr s, VStr t => Some (bool_decide (s = t))
      | VRef l1, VRef l2 =>
          if decide (l1 = l2) then Some true
          else
            match h !! l1, h !! l2 with
            | Some (OList xs), Some (OList ys) =>
                if decide (length xs = length ys) then
                  forall_lazy (λ p, py_eq depth' h p.1 p.2) (zip xs ys)
                else Some false
            | Some (ODict d1), Some (ODict d2) =>
                if decide (length d1 = length d2) then
                  forall_lazy
                    (λ kv, match assoc kv.1 d2 with
                           | Some v2 => py_eq depth' h kv.2 v2
                           | None => Some false
                           end) d1
                else Some false
            | _, _ => Some false
            end
      | _, _ => Some false
      end
  end.

(** [v in lst] for the elements [xs] of a list *)
Definition py_in (h : Heap) (v : val) (xs : list val) : option bool :=
  exists_lazy (λ x, py_eq (recursion_limit env) h v x) xs.

Definition eq_val (a b : val) : M State bool :=
  λ s, match py_eq (recursion_limit env) (st_heap s) a b with
       | Some r => (Ok r, s)
       | None => (Raise RuntimeError, s)
       end.

Definition contains (lst : val) (v : val) : M State bool :=
  λ s, match obj_at (st_heap s) lst with
       | Some (OList xs) =>
           match py_in (st_heap s) v xs with
           | Some r => (Ok r, s)
           | None => (Raise RuntimeError, s)
           end
       | _ => (Raise TypeError, s)
       end.
End Objects.

(* ================================================================== *)
(** * The mapping engine *)
(* ================================================================== *)

Section Mapping.
Variable env : Env.

(** [path_data(path, data)] *)
Definition path_data (path : string) (data : val) : M State val :=
  if decide (path = "") then ret data
  else
    h <~ gets st_heap ;;
    match jsonpath_find env path h data with
    | Some [x] => ret x                              (* p_data.pop() *)
    | Some ((_ :: _ :: _) as p_data) =>
        l <~ alloc (OList p_data) ;; ret (VRef l)
    | _ => ret data
    end.

(** Lines 89-95 of [apply_mapping]: write [mapped_v] under [mapped_k]
    in the dictionary [md]. *)
Definition merge_target (md : val) (mapped_k : string) (mapped_v : val)
  : M State unit :=
  h <~ gets st_heap ;;
  match obj_at h md with
  | Some (ODict kvs) =>
      match assoc mapped_k kvs with
      | None => setitem md mapped_k mapped_v
      | Some cur =>
          same <~ eq_val env cur mapped_v ;;
          if same then ret tt
          else
            (if is_list h cur then ret tt
             else l <~ alloc (OList [cur]) ;;
                  setitem md mapped_k (VRef l)) ;;;
            cur' <~ getitem md mapped_k ;;
            present <~ contains env cur' mapped_v ;;
            if present then ret tt else append cur' mapped_v
      end
  | _ => raise TypeError
  end.

(** The inner function [apply_mapping(md, mapping, p_n3)].  [depth]
    bounds the nesting of the calls ([RuntimeError] past the limit).
    The keys are the snapshot [list(md.keys())]; the elements of a list
    are those it has when its loop starts (a list grows during its own
    loop only on a cyclic structure, where the recursion does not
    end). *)
Fixpoint apply_mapping (depth : nat) (md : val) (mapping : Mapping)
  (p_n3 : string) : M State unit :=
  match depth with
  | O => raise RuntimeError
  | S depth' =>
      h <~ gets st_heap ;;
      match obj_at h md with
      | Some (ODict kvs) =>
          for_each (kvs.*1) (λ k,
            if decide (k = m_key mapping) then
              let mapped_k := p_n3 in
              v0 <~ getitem md k ;;
              match v0 with
              | VNone => ret tt                              (* continue *)
              | _ =>
                  h0 <~ gets st_heap ;;
                  v1 <~ match obj_at h0 v0 with
                        | Some (OList xs) =>
                            if m_limit mapping then
                              l <~ alloc (OList (take 1 xs)) ;; ret (VRef l)
                            else ret v0
                        | _ => ret v0
                        end ;;
                  mapped_v <~ match m_transform mapping with
                              | Some t =>
                                  l <~ alloc (OCall (mkCallable t v0)) ;;
                                  ret (VRef l)
                              | None => ret v1
                              end ;;
                  merge_target md mapped_k mapped_v ;;;
                  next <~ getitem md mapped_k ;;
                  apply_mapping depth' next mapping p_n3
              end
            else
              next <~ getitem md k ;;
              apply_mapping depth' next mapping p_n3)
      | Some (OList xs) =>
          for_each xs (λ elm, apply_mapping depth' elm mapping p_n3)
      | _ => ret tt
      end
  end.

Definition is_container (m : Mapping) : bool :=
  bool_decide (m_key m = "$container").

(** [apply_mappings(data, mappings, ns)] *)
Definition apply_mappings (data : val) (mappings : list Mapping)
  : M State val :=
  h <~ gets st_heap ;;
  data0 <~ (if existsb is_container mappings && negb (is_dict h data)
            then l <~ alloc (ODict [("$container", data)]) ;; ret (VRef l)
            else ret data) ;;
  (fix loop (ms : list Mapping) (data : val) : M State val :=
     match ms with
     | [] => ret data
     | m :: ms' =>
         let p_n3 := n3 env (m_predicate m) in
         data' <~ match m_path m with
                  | Some path =>
                      p_data <~ path_data path data ;;
                      h <~ gets st_heap ;;
                      match obj_at h data with
                      | Some (OList _) => ret p_data
                      | Some (ODict _) =>
                          match obj_at h p_data with
                          | Some (OList _) =>
                              update data [(m_key m, p_data)]
                          | Some (ODict items) => update data items
                          | _ => setitem data (m_key m) p_data
                          end ;;; ret data
                      | _ => ret data
                      end
                  | None => ret data
                  end ;;
         apply_mapping (recursion_limit env) data' m p_n3 ;;;
         loop ms' data'
     end) mappings data0.
End Mapping.

(* ================================================================== *)
(** * The JSON-LD enricher *)
(* ================================================================== *)

(** An element of the [types] argument of [enrich]: an rdflib term (the
    types of a resource) or a name in compact notation (the range of a
    property). *)
Inductive TypeRef :=
| TypeTerm (t : Term)
| TypeName (s : string).

Section Enricher.
Variable env : Env.

(** [t.n3(ns)] for a [URIRef], [t] itself otherwise. *)
Definition type_n3 (t : TypeRef) : string :=
  match t with
  | TypeTerm (URIRef u) => n3 env (URIRef u)
  | TypeTerm t' => term_str env t'
  | TypeName s => s
  end.

Definition ctx_set (k : string) (e : CtxEntry) : M State unit :=
  modify (λ s, set_ctx (<[k := e]> (st_ctx s)) s).

(** [shortuuid.uuid()] *)
Definition fresh_uuid : M State string :=
  λ s, (Ok (uuid env (st_uuid s)), set_uuid (S (st_uuid s)) s).

(** A lazy value provider called with the running context. *)
Definition call_provider (f : val) (key : string) (vars : list string)
  (kwargs : Args) : M State (list val) :=
  λ s, match obj_at (st_heap s) f with
       | Some (OCall c) =>
           (provider_apply env c (st_heap s) key (st_ctx s) vars kwargs, s)
       | _ => (Raise TypeError, s)
       end.

(** The context entry [jp] of a matched property. *)
Definition property_entry (pdict : PropInfo) (p_n3 : string) (v : val)
  : M State CtxEntry :=
  let p := extend_uri env p_n3 in
  if decide (pi_type pdict = "data") then
    match pi_range pdict with
    | [] => raise IndexError
    | range :: _ =>
        if decide (range = "rdfs:Resource") then
          h <~ gets st_heap ;;
          ret (mkCtxEntry p (literal_datatype env h v))
        else ret (mkCtxEntry p (Some (extend_uri env range)))
    end
  else ret (mkCtxEntry p (Some "@id")).

(** [enrich(uri, data, types, fountain, ns, context, vars, **kwargs)].
    The context dictionary is [st_ctx]; the result is the value under
    ['@graph'], which is [data] itself.  [depth] bounds the nesting of
    the calls. *)
Fixpoint enrich (depth : nat) (uri : string) (data : val)
  (types : list TypeRef) (vars : list string) (kwargs : Args)
  : M State val :=
  match depth with
  | O => raise RuntimeError
  | S depth' =>
      setitem data "@id" (VStr uri) ;;;
      jt <~ alloc (OList []) ;;
      let j_types := VRef jt in
      setitem data "@type" j_types ;;;
      for_each types (λ t,
        let t_n3 := type_n3 t in
        tinfo <~ lift_result (get_type env t_n3) ;;
        let props := ti_properties tinfo in
        short_type <~ match split_on ":" t_n3 !! 1%nat with
                      | Some w => ret w
                      | None => raise IndexError
                      end ;;
        ctx_set short_type
          (mkCtxEntry (extend_uri env t_n3) (Some "@id")) ;;;
        append j_types (VStr short_type) ;;;
        h <~ gets st_heap ;;
        for_each (match obj_at h data with
                  | Some (ODict kvs) => kvs.*1
                  | _ => []
                  end) (λ p_n3,
          if decide (p_n3 ∈ props) then
            pdict <~ lift_result (get_property env p_n3) ;;
            v <~ getitem data p_n3 ;;
            jp <~ property_entry pdict p_n3 v ;;
            ctx_set p_n3 jp ;;;
            p_n3_data <~ getitem data p_n3 ;;
            h1 <~ gets st_heap ;;
            match obj_at h1 p_n3_data with
            | Some (ODict _) =>
                u <~ fresh_uuid ;;
                sub <~ enrich depth' ("_:" +:+ u) p_n3_data
                         (TypeName <$> pi_range pdict) [] [] ;;
                setitem data p_n3 sub
            | Some (OCall _) =>
                r <~ call_provider p_n3_data p_n3 vars kwargs ;;
                l <~ alloc (OList r) ;;
                setitem data p_n3 (VRef l)
            | Some (OList xs) =>
                if forallb (is_callable h1) xs then
                  l <~ alloc (OList []) ;;
                  for_each xs (λ p_item,
                    r <~ call_provider p_item p_n3 vars kwargs ;;
                    for_each r (λ x, append (VRef l) x)) ;;;
                  setitem data p_n3 (VRef l)
                else if decide (pi_type pdict = "data") then ret tt
                else
                  l <~ alloc (OList []) ;;
                  setitem data p_n3 (VRef l) ;;;
                  for_each xs (λ s_p_n3_data,
                    u <~ fresh_uuid ;;
                    sub <~ enrich depth' ("_:" +:+ u) s_p_n3_data
                             (TypeName <$> pi_range pdict) [] [] ;;
                    cur <~ getitem data p_n3 ;;
                    append cur sub)
            | _ => ret tt
            end
          else ret tt)) ;;;
      ret data
  end.
End Enricher.

(* ================================================================== *)
(** * The RDF materializer *)
(* ================================================================== *)

Section Materializer.
Variable env : Env.

(** The coercion of a literal of datatype [xsd:dateTime]: the value as
    a float handed to [datetime.utcfromtimestamp], else
    [isodate.parse_datetime], else [mktime_tz(parsedate_tz(...))]
    handed to [datetime.fromtimestamp].  Once [float] has succeeded
    [term['value']] is a float, on which both later parsers raise. *)
Definition coerce_datetime (value : string) : Result DateTime :=
  match float_of_string env value with
  | Some f =>
      match float_micros env f with
      | Some us => Ok (mkDateTime us None)
      | None => Raise AttributeError
      end
  | None =>
      match iso_parse_datetime env value with
      | Some d => Ok d
      | None =>
          match rfc822_timestamp env value with
          | Some t =>
              Ok (mkDateTime ((t + local_utcoffset env t) * 1000000) None)
          | None => Raise TypeError
          end
      end
  end.

(** [parse_term(term)]; [bid_map] is the dictionary of the enclosing
    [ld_triples] call. *)
Definition parse_term (bid_map : gmap string string) (term : NTerm)
  : M State (Term * gmap string string) :=
  if decide (nt_type term = "IRI") then
    ret (URIRef (nt_value term), bid_map)
  else if decide (nt_type term = "literal") then
    let datatype := nt_datatype term in
    if decide (datatype = XSD_dateTime) then
      d <~ lift_result (coerce_datetime (nt_value term)) ;;
      ret (Literal (LDateTime d) (Some datatype), bid_map)
    else if decide (datatype = RDFS_Literal) then
      match float_of_string env (nt_value term) with
      | Some f => ret (Literal (LFloat f) None, bid_map)
      | None => ret (Literal (LStr (nt_value term)) None, bid_map)
      end
    else ret (Literal (LStr (nt_value term)) (Some datatype), bid_map)
  else
    match split_on ":" (nt_value term) !! 1%nat with
    | None => raise IndexError
    | Some bid =>
        match bid_map !! bid with
        | Some u => ret (BNode u, bid_map)
        | None =>
            u <~ (λ s, (Ok (uuid env (st_uuid s)),
                        set_uuid (S (st_uuid s)) s)) ;;
            ret (BNode u, <[bid := u]> bid_map)
        end
    end.

Definition add_triple (t : Triple) : M State unit :=
  modify (λ s, set_graph (graph_add t (st_graph s)) s).

(** The loop of [ld_triples] over the normalized statements. *)
Fixpoint materialize (bid_map : gmap string string) (ts : list NTriple)
  : M State (gmap string string) :=
  match ts with
  | [] => ret bid_map
  | (s, p, o) :: rest =>
      subject <~ parse_term bid_map s ;;
      predicate <~ parse_term subject.2 p ;;
      object <~ parse_term predicate.2 o ;;
      add_triple (subject.1, predicate.1, object.1) ;;;
      materialize object.2 rest
  end.

(** [ld_triples(ld, g)] with [ld = {'@context': context, '@graph':
    data}] and [g] the graph of the state. *)
Definition ld_triples (data : val) : M State unit :=
  s <~ get ;;
  def_graph <~ lift_result (normalize env (st_ctx s) (st_heap s) data) ;;
  materialize ∅ def_graph ;;; ret tt.
End Materializer.

(* ================================================================== *)
(** * The resource descriptor *)
(* ================================================================== *)

(** [sorted(xs, key=lambda x: x.order)]: stable. *)
Fixpoint insert_by_order (e : Endpoint) (es : list Endpoint)
  : list Endpoint :=
  match es with
  | [] => [e]
  | e' :: rest =>
      if decide (e_order e ≤ e_order e')%Z then e :: e' :: rest
      else e' :: insert_by_order e rest
  end.

Definition sorted_by_order (es : list Endpoint) : list Endpoint :=
  foldr insert_by_order [] es.

Definition default_ttl : Z := 100000.

(** ['max-age={}'.format(ttl)] *)
Definition cache_control (ttl : Z) : string := "max-age=" +:+ pretty ttl.

(** What the call hands back: the graph, the value of the
    [Cache-Control] header, and (ghost) the exception printed by the
    handler, if any. *)
Record Described := mkDescribed {
  d_graph : Graph;
  d_cache_control : string;
  d_logged : option exn
}.

Section Descriptor.
Variable env : Env.
Variable eco : Ecosystem.

Fixpoint join (sep : string) (xs : list string) : string :=
  match xs with
  | [] => ""
  | [x] => x
  | x :: rest => x +:+ sep +:+ join sep rest
  end.

(** The rewriting of one static triple (lines 261-271): the triple to
    add, if any. *)
Definition rewrite_static (td : TD) (r_uri : Term) (b64 : option string)
  (resource_args : Args) (t : Triple) : option Triple :=
  let '(s, p, o) := t in
  let o' :=
    match o with
    | BNode _ =>
        match ndict eco !! o with
        | Some id => URIRef (url_for env eco (TidId id) b64 [])
        | None => o
        end
    | Literal v dt =>
        match assoc (lit_str env v) resource_args with
        | Some a => Literal a dt
        | None => o
        end
    | _ => o
    end in
  let s' := if decide (s = r_node (td_resource td)) then r_uri else s in
  if is_BNode s' && bool_decide (is_Some (ndict eco !! s')) then None
  else Some (s', p, o').

Definition copy_static (td : TD) (r_uri : Term) (b64 : option string)
  (resource_args : Args) : M State unit :=
  for_each (r_graph (td_resource td)) (λ t,
    match rewrite_static td r_uri b64 resource_args t with
    | Some t' => add_triple t'
    | None => ret tt
    end).

(** Lines 273-282: the declared properties, and the supertypes. *)
Fixpoint expand_types (r_uri : Term) (types : list Term)
  (resource_props : list string) : M State (list string) :=
  match types with
  | [] => ret resource_props
  | t :: rest =>
      let t_n3 := type_n3 env (TypeTerm t) in
      type_dict <~ lift_result (get_type env t_n3) ;;
      for_each (ti_super type_dict) (λ st,
        add_triple (r_uri, RDF_type, URIRef (extend_uri env st))) ;;;
      expand_types r_uri rest (resource_props ++ ti_properties type_dict)
  end.

(** Lines 284-296 *)
Definition merge_same_as (td : TD) (r_uri : Term)
  (resource_props : list string) : M State unit :=
  for_each (td_rdf_sources td) (λ href,
    let uri := URIRef href in
    add_triple (r_uri, OWL_sameAs, uri) ;;;
    same_as_g <~ lift_result (load_graph env href) ;;
    for_each same_as_g (λ t,
      let '(s, p, o) := t in
      if decide (n3 env p ∈ resource_props) then
        if decide (s = uri) then add_triple (r_uri, p, o)
        else if is_BNode s then add_triple (s, p, o)
        else ret tt                                        (* continue *)
      else ret tt)).

(** [extract_ttl(response.headers) or ttl] *)
Definition hint_or (hint : option Z) (ttl : Z) : Z :=
  match hint with
  | Some h => if decide (h = 0%Z) then ttl else h
  | None => ttl
  end.

(** The body of the loop over the composed endpoints (lines 300-308). *)
Definition call_endpoint (td : TD) (r_uri : Term) (resource_args : Args)
  (e : Endpoint) : M State unit :=
  g <~ gets st_graph ;;
  let answer := invoke env e g r_uri resource_args in
  modify (λ s, set_calls (st_calls s ++ [(e, answer)]) s) ;;;
  response <~ lift_result answer ;;
  if decide (status_code response = 200%Z) then
    j <~ lift_result (json_body response) ;;
    data <~ load j ;;
    let e_mappings := endpoint_mappings env td e in
    mapped_data <~ apply_mappings env data e_mappings ;;
    modify (set_ctx ∅) ;;;
    ld <~ enrich env (recursion_limit env) (term_str env r_uri) mapped_data
            (TypeTerm <$> r_types (td_resource td)) (td_vars td)
            resource_args ;;
    ld_triples env ld ;;;
    modify (λ s, set_ttl (Z.min (st_ttl s)
                            (hint_or (ttl_hint response) (st_ttl s))) s)
  else ret tt.

Definition invoke_chain (td : TD) (r_uri : Term) (resource_args : Args)
  (es : list Endpoint) : M State unit :=
  for_each es (call_endpoint td r_uri resource_args).

(** Lines 250-254: the padding restored in [b64], and the decoded
    arguments. *)
Definition decode_request (b64 : option string)
  : Result (option string * Args) :=
  match b64 with
  | Some b =>
      let b' := unquote_padding b in
      match decode_args env b' with
      | Ok args => Ok (Some b', args)
      | Raise e => Raise e
      end
  | None => Ok (None, [])
  end.

(** Lines 255-258: [r_uri]. *)
Definition request_uri (tid : string) (b64 : option string)
  (kwargs : list (string * string)) : Term :=
  let r_uri := url_for env eco (TidId tid) b64 [] in
  URIRef (match kwargs with
          | [] => r_uri
          | _ => r_uri +:+ "?" +:+
                   join "&" ((λ kv, kv.1 +:+ "=" +:+ kv.2) <$> kwargs)
          end).

(** The [try] block of [describe_resource]. *)
Definition describe_body (td : TD) (tid : string) (b64 : option string)
  (kwargs : list (string * string)) : M State unit :=
  decoded <~ lift_result (decode_request b64) ;;
  let b64' : option string := decoded.1 in
  let resource_args : Args := decoded.2 in
  let r_uri := request_uri tid b64' kwargs in
  copy_static td r_uri b64' resource_args ;;;
  resource_props <~ expand_types r_uri (r_types (td_resource td)) [] ;;
  merge_same_as td r_uri resource_props ;;;
  match td_base td with
  | [] => ret tt
  | _ =>
      es <~ lift_result (compose_endpoints env eco (recursion_limit env) td) ;;
      invoke_chain td r_uri resource_args (sorted_by_order es)
  end.

Definition initial_state (draws : nat) : State :=
  mkState [] default_ttl [] draws [] ∅.

(** [describe_resource(tid, b64=None, **kwargs)]; [draws] is the number
    of [shortuuid.uuid()] draws made before the call.  The lookup of
    [tid] precedes the [try], and the handler is [except Exception]. *)
Definition describe_run (td : TD) (tid : string) (b64 : option string)
  (kwargs : list (string * string)) (draws : nat) : Result unit * State :=
  describe_body td tid b64 kwargs (initial_state draws).

Definition describe_resource (tid : string) (b64 : option string)
  (kwargs : list (string * string)) (draws : nat) : Result Described :=
  match rdict eco !! tid with
  | None => Raise KeyError
  | Some td =>
      let '(r, s) := describe_run td tid b64 kwargs draws in
      match r with
      | Ok _ =>
          Ok (mkDescribed (st_graph s) (cache_control (st_ttl s)) None)
      | Raise e =>
          if is_Exception e
          then Ok (mkDescribed (st_graph s) (cache_control (st_ttl s))
                     (Some e))
          else Raise e
      end
  end.
End Descriptor.

(* ================================================================== *)
(** * Dropping the seeds *)
(* ================================================================== *)

(** [root.resource if isinstance(root, TD) else root] *)
Definition root_resource (root : Root) : Resource :=
  match root with
  | RootTD td => td_resource td
  | RootResource r => r
  end.

(** The fountain is a collaborator with a state of its own ([F]):
    [schema_n3] is [t.n3(...)] under the namespace manager of its
    schema graph, and [delete_type_seeds] may raise. *)
Section SeedReset.
Context {F : Type}.
Variable schema_n3 : Term → string.
Variable delete_type_seeds : string → M F unit.
Variable eco : Ecosystem.

(** [clear_seeds()], on the seed set of the proxy and the fountain. *)
Definition clear_seeds : M (Seeds * F) unit :=
  λ st,
    let '(r, f) :=
      for_each (eco_roots eco) (λ root,
        for_each (r_types (root_resource root)) (λ t,
          delete_type_seeds (schema_n3 t))) st.2 in
    (r, ([], f)).
End SeedReset.

(* ================================================================== *)
(** * The gateway (agora_wot/gateway/__init__.py) *)
(* ================================================================== *)

(** [sorted(xs)] on byte strings. *)
Fixpoint insert_string (x : string) (xs : list string) : list string :=
  match xs with
  | [] => [x]
  | y :: rest =>
      if String.leb x y then x :: y :: rest else y :: insert_string x rest
  end.

Definition sorted_strings (xs : list string) : list string :=
  foldr insert_string [] xs.

(** The keyword arguments of a request, each value under [str]. *)
Definition Kwargs : Type := list (string * string).

(** The scholars ([Sch]) live in the world of the agora ([W]), which
    building one and shutting one down change; [FS] is what
    [instantiate_seeds] hands back.  The state of the gateway is the
    dictionary [self.scholars] beside that world; a dictionary is
    iterated in the order of [map_to_list]. *)
Section Gateway.
Context {Sch W FS : Type}.
Variable gw_id : string.                     (* self.id *)
Variable parameters : list string.           (* self.proxy.parameters *)
(* hashlib: the stripped base64 form of the MD5 digest of what the
   updates have fed, one after the other *)
Variable md5_base64 : string → string.
(* Scholar(planner=..., cache=..., path='fragments', loader=...,
   persist_mode=True, id=..., force_seed=..., **kwargs of __init__) *)
Variable new_scholar : string → FS → M W Sch.
Variable scholar_shutdown : Sch → M W unit.  (* scholar.shutdown() *)

(** The first lines of [_scholar]: the id under which the scholar of
    a request is kept. *)
Definition scholar_id (kwargs : Kwargs) : string :=
  let scholar_id :=
    match parameters with
    | [] => "d"
    | _ =>
        md5_base64
          (String.concat ""
             ((λ k, k +:+ default "" (assoc k kwargs))
                <$> sorted_strings parameters))
    end in
  gw_id +:+ "/" +:+ scholar_id.

(** [_scholar(force_seed, **kwargs)] *)
Definition _scholar (force_seed : FS) (kwargs : Kwargs)
  : M (gmap string Sch * W) Sch :=
  λ g,
    let sid := scholar_id kwargs in
    match g.1 !! sid with
    | Some scholar => (Ok scholar, g)
    | None =>
        match new_scholar sid force_seed g.2 with
        | (Ok scholar, w) => (Ok scholar, (<[sid := scholar]> g.1, w))
        | (Raise e, w) => (Raise e, (g.1, w))
        end
    end.

(** The body of the loop of [shutdown]: an [Exception] is printed. *)
Definition shutdown_one (scholar : Sch) : M W unit :=
  λ w,
    match scholar_shutdown scholar w with
    | (Raise e, w') =>
        if is_Exception e then (Ok tt, w') else (Raise e, w')
    | other => other
    end.

(** [shutdown()] *)
Definition shutdown : M (gmap string Sch * W) unit :=
  λ g,
    match for_each (map_to_list g.1).*2 shutdown_one g.2 with
    | (Ok _, w) => (Ok tt, (∅, w))
    | (Raise e, w) => (Raise e, (g.1, w))
    end.
End Gateway.

(* ================================================================== *)
(** * A small ecosystem with concrete collaborators *)
(* ================================================================== *)

(** One registry type [ex:Sensor] with the data property [ex:value]; three
    upstream addresses, one answering 200, one answering 503 and one
    refusing the connection; a host one hour east of UTC. *)
Module Demo.
Definition url (tid : string) (b64 : option string) : string :=
  "http://gw/" +:+ tid +:+
  match b64 with Some b => "/" +:+ b | None => "" end.

Definition n3_of (t : Term) : string :=
  match t with
  | URIRef s => s
  | BNode b => "_:" +:+ b
  | Literal _ _ => ""
  end.

Definition registry_type (t : string) : Result TypeInfo :=
  if decide (t = "ex:Sensor")
  then Ok (mkTypeInfo ["ex:value"] ["ex:Device"])
  else Raise KeyError.

Definition registry_property (p : string) : Result PropInfo :=
  if decide (p = "ex:value") then Ok (mkPropInfo "data" ["xsd:string"])
  else Raise KeyError.

Definition ok_response : Response :=
  mkResponse 200 (Ok (JObj [("v", JStr "21")])) (Some 60%Z).
Definition down_response : Response :=
  mkResponse 503 (Raise ValueError) None.

Definition upstream (e : Endpoint) (g : Graph) (subject : Term)
  (args : Args) : Result Response :=
  match e_href e with
  | Some "http://up/ok" => Ok ok_response
  | Some "http://up/down" => Ok down_response
  | _ => Raise (ExternalError "connection refused")
  end.

Definition add (a b : Endpoint) : Endpoint :=
  mkEndpoint
    (match e_href a, e_whref b with
     | Some x, Some y => Some (x +:+ y)
     | x, _ => x
     end) None (e_order b).

Definition subject_type (id : string) : string :=
  match id with
  | String "_"%char (String ":"%char _) => "blank node"
  | _ => "IRI"
  end.

(** A normalizer for a flat document: one statement per string field
    that has a context entry. *)
Definition flat_normalize (ctx : Context) (h : Heap) (data : val)
  : Result (list NTriple) :=
  match obj_at h data with
  | Some (ODict kvs) =>
      match assoc "@id" kvs with
      | Some (VStr id) =>
          Ok (omap (λ kv : string * val,
                      match kv.2, ctx !! kv.1 with
                      | VStr v, Some ce =>
                          Some (mkNTerm (subject_type id) id "",
                                mkNTerm "IRI" (ce_id ce) "",
                                mkNTerm "literal" v
                                  (default "xsd:string" (ce_type ce)))
                      | _, _ => None
                      end) kvs)
      | _ => Raise ValueError
      end
  | _ => Raise ValueError
  end.

Definition epoch_rfc822 : string := "Thu, 01 Jan 1970 00:00:00 GMT".
Definition epoch_iso : string := "1970-01-01T00:00:00Z".

Definition env : Env := {|
  wrapper_url_for := url;
  load_graph := λ _, Ok [];
  encode_rdict := λ args, join "," (args.*1);
  n3 := n3_of;
  lexical := λ _, "";
  extend_uri := λ s, s;
  get_type := registry_type;
  get_property := registry_property;
  literal_datatype := λ _ _, None;
  decode_args := λ s, if decide (s = "") then Raise TypeError else Ok [];
  invoke := upstream;
  endpoint_add := add;
  endpoint_mappings := λ _ _, [mkMapping "v" (URIRef "ex:value") None false None];
  provider_apply := λ _ _ _ _ _ _, Ok [];
  jsonpath_find := λ _ _ _, None;
  normalize := flat_normalize;
  uuid := λ n, "b" +:+ pretty n;
  float_eqb := λ f g, bool_decide (f = g);
  float_eq_int := λ _ _, false;
  float_of_string := λ s, if decide (s = "0") then Some (Binary64 0) else None;
  float_micros := λ f, if decide (f = Binary64 0) then Some 0%Z else None;
  iso_parse_datetime :=
    λ s, if decide (s = epoch_iso) then Some (mkDateTime 0 (Some 0%Z))
         else None;
  rfc822_timestamp :=
    λ s, if decide (s = epoch_rfc822) then Some 0%Z else None;
  local_utcoffset := λ _, 3600%Z;
  recursion_limit := 100
|}.

Definition sensor_node : Term := BNode "n1".
Definition sensor_resource : Resource :=
  mkResource sensor_node [URIRef "ex:Sensor"]
    [(sensor_node, RDF_type, URIRef "ex:Sensor")].

Definition e_ok : Endpoint := mkEndpoint (Some "http://up/ok") None 2.
Definition e_down : Endpoint := mkEndpoint (Some "http://up/down") None 1.
Definition e_boom : Endpoint := mkEndpoint (Some "http://up/boom") None 1.
Definition e_late : Endpoint := mkEndpoint (Some "http://up/boom") None 3.
Definition value_statement : Triple :=
  (URIRef "http://gw/sensor", URIRef "ex:value",
   Literal (LStr "21") (Some "xsd:string")).

Definition sensor (base : list Endpoint) : TD :=
  mkTD "sensor" sensor_resource base [] [].

Definition ecosystem (base : list Endpoint) : Ecosystem :=
  mkEcosystem [sensor base] [RootTD (sensor base)] (λ _, []).

(** A valve reached through the sensor: its endpoint has no address of
    its own. *)
Definition e_valve : Endpoint := mkEndpoint None (Some "/valve") 1.
Definition valve : TD :=
  mkTD "valve" (mkResource (BNode "n2") [URIRef "ex:Sensor"] [])
    [e_valve] [] [].
Definition plant : Ecosystem :=
  mkEcosystem [sensor [e_ok]; valve] [RootTD (sensor [e_ok])]
    (λ id, if decide (id = "valve") then ["sensor"] else []).
Definition rank (id : string) : nat :=
  if decide (id = "valve") then 1 else 0.

(** A document about a blank node, with its context, as [enrich]
    leaves them. *)
Definition blank_document : State :=
  mkState [] default_ttl [] 0
    [ODict [("@id", VStr "_:c14n0"); ("ex:value", VStr "21")]]
    {["ex:value" := mkCtxEntry "ex:value" (Some "xsd:string")]}.
End Demo.

(* ================================================================== *)
(** * The vocabulary of the properties *)
(* ================================================================== *)

(** [preserves P c]: running [c] from a state where [P] holds ends,
    whether [c] returns or raises, in a state where [P] holds. *)
Definition preserves {A} (P : State → Prop) (c : M State A) : Prop :=
  ∀ s, P s → P (c s).2.

(** Induction on a JSON tree, with the hypothesis for every child. *)
Section JsonInduction.
Variable Q : Json → Prop.
Hypothesis HNull : Q JNull.
Hypothesis HBool : ∀ b, Q (JBool b).
Hypothesis HInt : ∀ z, Q (JInt z).
Hypothesis HFloat : ∀ f, Q (JFloat f).
Hypothesis HStr : ∀ s, Q (JStr s).
Hypothesis HArr : ∀ xs, Forall Q xs → Q (JArr xs).
Hypothesis HObj : ∀ kvs, Forall (λ kv, Q kv.2) kvs → Q (JObj kvs).

Fixpoint Json_nested_ind (j : Json) : Q j :=
  match j with
  | JNull => HNull
  | JBool b => HBool b
  | JInt z => HInt z
  | JFloat f => HFloat f
  | JStr s => HStr s
  | JArr xs =>
      HArr xs
        ((fix all (js : list Json) : Forall Q js :=
            match js with
            | [] => @List.Forall_nil _ Q
            | j' :: js' =>
                @List.Forall_cons _ Q j' js' (Json_nested_ind j') (all js')
            end) xs)
  | JObj kvs =>
      HObj kvs
        ((fix all (ms : list (string * Json))
            : Forall (λ kv, Q kv.2) ms :=
            match ms with
            | [] => @List.Forall_nil _ (λ kv, Q kv.2)
            | kv :: ms' =>
                @List.Forall_cons _ (λ kv, Q kv.2) kv ms'
                  (Json_nested_ind kv.2) (all ms')
            end) kvs)
  end.
End JsonInduction.

Section Vocabulary.
Variable env : Env.
Variable eco : Ecosystem.

(** ** Seeds and endpoints *)

(** The pairs one root contributes when the proxy is built, in the
    words of the claim. *)
Definition declared_root_seeds (root : Root) : list (Term * string) :=
  match root with
  | RootTD td =>
      match td_vars td with
      | [] =>
          (λ t, (URIRef (url_for env eco (TidId (td_id td)) None []),
                 n3 env t)) <$> r_types (td_resource td)
      | _ => []
      end
  | RootResource r => (λ t, (r_node r, n3 env t)) <$> r_types r
  end.

Definition has_open_endpoint (td : TD) : Prop :=
  ∃ b, b ∈ td_base td ∧ e_href b = None.

(** ** Materialized terms *)

(** The term a normalized term stands for once the blank-node map of a
    call is [m]. *)
Definition converted_term (m : gmap string string) (term : NTerm)
  : option Term :=
  if decide (nt_type term = "IRI") then Some (URIRef (nt_value term))
  else if decide (nt_type term = "literal") then
    if decide (nt_datatype term = XSD_dateTime) then
      match coerce_datetime env (nt_value term) with
      | Ok d => Some (Literal (LDateTime d) (Some (nt_datatype term)))
      | Raise _ => None
      end
    else if decide (nt_datatype term = RDFS_Literal) then
      match float_of_string env (nt_value term) with
      | Some f => Some (Literal (LFloat f) None)
      | None => Some (Literal (LStr (nt_value term)) None)
      end
    else Some (Literal (LStr (nt_value term)) (Some (nt_datatype term)))
  else
    bid ← split_on ":" (nt_value term) !! 1%nat;
    u ← m !! bid;
    Some (BNode u).

Definition converted_triple (m : gmap string string) (t : NTriple)
  : option Triple :=
  s ← converted_term m t.1.1;
  p ← converted_term m t.1.2;
  o ← converted_term m t.2;
  Some (s, p, o).

(** Every identifier of [m'] that is not in [m] is one of the draws
    numbered from [lo] up to [hi]. *)
Definition drawn_between (m m' : gmap string string) (lo hi : nat) : Prop :=
  ∀ b u, m' !! b = Some u →
         m !! b = Some u ∨ ∃ i, (lo ≤ i < hi)%nat ∧ u = uuid env i.

(** The position of a [datetime] on the UTC time line, in
    microseconds; a naive value is read as UTC, which is how
    [utcfromtimestamp] produces it. *)
Definition instant (d : DateTime) : Z :=
  (dt_micros d - 1000000 * default 0 (dt_utcoffset d))%Z.

Definition datetime_literal (value : string) : NTerm :=
  mkNTerm "literal" value XSD_dateTime.

(** ** Mapped values *)

(** The entries of the value under a target: the elements of a list,
    any other value alone. *)
Definition entries (h : Heap) (cur : val) : list val :=
  match obj_at h cur with
  | Some (OList xs) => xs
  | _ => [cur]
  end.

(** No entry equals an earlier one. *)
Definition pairwise_distinct (h : Heap) (xs : list val) : Prop :=
  ∀ i j x y, (i < j)%nat → xs !! i = Some x → xs !! j = Some y →
             py_eq env (recursion_limit env) h y x = Some false.

(** ** Descriptions *)

(** The steps of [call_endpoint] once the response is in: they are the
    continuation of the successful branch. *)
Definition merge_response (td : TD) (r_uri : Term) (args : Args)
  (e : Endpoint) (response : Response) : M State unit :=
  j <~ lift_result (json_body response) ;;
  data <~ load j ;;
  mapped_data <~ apply_mappings env data (endpoint_mappings env td e) ;;
  modify (set_ctx ∅) ;;;
  ld <~ enrich env (recursion_limit env) (term_str env r_uri)
          mapped_data (TypeTerm <$> r_types (td_resource td))
          (td_vars td) args ;;
  ld_triples env ld ;;;
  modify (λ s, set_ttl (Z.min (st_ttl s)
                          (hint_or (ttl_hint response) (st_ttl s))) s).

(** The lifetime once the calls of [log] have been merged, starting
    from [ttl]: only an answer with status 200 counts, with its hint. *)
Definition lifetime_after (ttl : Z)
  (log : list (Endpoint * Result Response)) : Z :=
  foldl (λ t entry,
           match entry.2 with
           | Ok response =>
               if decide (status_code response = 200%Z)
               then Z.min t (hint_or (ttl_hint response) t)
               else t
           | Raise _ => t
           end) ttl log.

(** No endpoint invoked so far has answered 200. *)
Definition no_success (s : State) : Prop :=
  ∀ e response,
    (e, Ok response) ∈ st_calls s → status_code response ≠ 200%Z.

Definition lifetime_inv (s : State) : Prop :=
  (st_ttl s ≤ default_ttl)%Z ∧ (no_success s → st_ttl s = default_ttl).

(** The statements of the description, in the words of the claim. *)
Definition declared_property (types : list Term) (p : string) : Prop :=
  ∃ t ti, t ∈ types
          ∧ get_type env (type_n3 env (TypeTerm t)) = Ok ti
          ∧ p ∈ ti_properties ti.

Definition static_statement (td : TD) (r_uri : Term) (b64 : option string)
  (args : Args) (x : Triple) : Prop :=
  ∃ t, t ∈ r_graph (td_resource td)
       ∧ rewrite_static env eco td r_uri b64 args t = Some x.

Definition supertype_statement (types : list Term) (r_uri : Term)
  (x : Triple) : Prop :=
  ∃ t ti st, t ∈ types
             ∧ get_type env (type_n3 env (TypeTerm t)) = Ok ti
             ∧ st ∈ ti_super ti
             ∧ x = (r_uri, RDF_type, URIRef (extend_uri env st)).

Definition same_as_statement (sources : list string) (declared : string → Prop)
  (r_uri : Term) (x : Triple) : Prop :=
  ∃ href, href ∈ sources
    ∧ (x = (r_uri, OWL_sameAs, URIRef href)
       ∨ ∃ g s p o,
           load_graph env href = Ok g ∧ (s, p, o) ∈ g
           ∧ declared (n3 env p)
           ∧ ((s = URIRef href ∧ x = (r_uri, p, o))
              ∨ (s ≠ URIRef href ∧ is_BNode s = true ∧ x = (s, p, o)))).

(** The statement of a same-as source that is copied, if any. *)
Definition same_as_copy (r_uri uri : Term) (props : list string)
  (t : Triple) : option Triple :=
  let '(s, p, o) := t in
  if decide (n3 env p ∈ props) then
    if decide (s = uri) then Some (r_uri, p, o)
    else if is_BNode s then Some (s, p, o) else None
  else None.

(** ** Enriched documents *)

(** The types [enrich] may look up when called with [types]: these
    types, and the types in the range of a property of a type it may
    look up. *)
Inductive consulted (types : list string) : string → Prop :=
| consulted_active t : t ∈ types → consulted types t
| consulted_range t ti p pd r :
    consulted types t →
    get_type env t = Ok ti → p ∈ ti_properties ti →
    get_property env p = Ok pd → r ∈ pi_range pd →
    consulted types r.

(** The field [k] of the dictionary at [l0] holds [v], and the
    context has [c0] under [k]. *)
Definition field_kept (l0 : loc) (k : string) (v : val)
  (c0 : option CtxEntry) (s : State) : Prop :=
  (∃ kvs, st_heap s !! l0 = Some (ODict kvs) ∧ assoc k kvs = Some v)
  ∧ st_ctx s !! k = c0.
End Vocabulary.

(** ** Further notions *)

Section MoreVocabulary.
Variable eco : Ecosystem.

(** An endpoint of [a] without an address is composed through [b]: a
    predecessor of [a] in the network that the proxy knows. *)
Definition composed_through (a b : TD) : Prop :=
  has_open_endpoint a
  ∧ td_id b ∈ eco_predecessors eco (td_id a)
  ∧ rdict eco !! td_id b = Some b.

(** A blank node that stands for a thing description of the
    ecosystem. *)
Definition names_thing (t : Term) : Prop :=
  is_BNode t = true ∧ is_Some (ndict eco !! t).
End MoreVocabulary.

(** A value that is no dictionary: a scalar, or a list of the heap. *)
Definition plain (v : val) (s : State) : Prop :=
  match v with
  | VRef l => ∃ xs, st_heap s !! l = Some (OList xs)
  | _ => True
  end.

(** A field of the document that one of the types declares as a
    property, for a registry that knows the type. *)
Definition declared_field (env : Env) (types : list TypeRef)
  (keys : list string) (k : string) : Prop :=
  k ∈ keys
  ∧ ∃ t ti, t ∈ types ∧ get_type env (type_n3 env t) = Ok ti
            ∧ k ∈ ti_properties ti.

(** A term of a normalized statement that [parse_term] can read. *)
Definition well_formed (env : Env) (t : NTerm) : Prop :=
  if decide (nt_type t = "IRI") then True
  else if decide (nt_type t = "literal") then
    nt_datatype t = XSD_dateTime →
    ∃ d, coerce_datetime env (nt_value t) = Ok d
  else is_Some (split_on ":" (nt_value t) !! 1%nat).

(** A computation that raises nothing but instances of [Exception]. *)
Definition raises_exceptions {A} (c : M State A) : Prop :=
  ∀ s e s', c s = (Raise e, s') → is_Exception e = true.

(** Collaborators that raise nothing but instances of [Exception]. *)
Record polite (env : Env) : Prop := mkPolite {
  polite_decode_args :
    ∀ b e, decode_args env b = Raise e → is_Exception e = true;
  polite_get_type :
    ∀ t e, get_type env t = Raise e → is_Exception e = true;
  polite_get_property :
    ∀ p e, get_property env p = Raise e → is_Exception e = true;
  polite_load_graph :
    ∀ href e, load_graph env href = Raise e → is_Exception e = true;
  polite_invoke :
    ∀ ep g subject args e,
      invoke env ep g subject args = Raise e → is_Exception e = true;
  polite_json :
    ∀ ep g subject args response e,
      invoke env ep g subject args = Ok response →
      json_body response = Raise e → is_Exception e = true;
  polite_provider :
    ∀ c h key ctx vars kwargs e,
      provider_apply env c h key ctx vars kwargs = Raise e →
      is_Exception e = true;
  polite_normalize :
    ∀ ctx h data e, normalize env ctx h data = Raise e → is_Exception e = true
}.

Definition has_address (e : Endpoint) : bool :=
  match e_href e with
  | Some _ => true
  | None => false
  end.

Definition by_order (a b : Endpoint) : Prop := (e_order a ≤ e_order b)%Z.

(** A pump whose only endpoint is composed through the pump itself, and
    a tap composed through a thing the ecosystem does not have. *)
Module Ring.
Definition e_open : Endpoint := mkEndpoint None (Some "/flow") 1.
Definition pump : TD :=
  mkTD "pump" (mkResource (BNode "p") [URIRef "ex:Sensor"] [])
    [e_open] [] [].
Definition tap : TD :=
  mkTD "tap" (mkResource (BNode "t") [URIRef "ex:Sensor"] [])
    [Demo.e_ok; e_open] [] [].
Definition ring : Ecosystem :=
  mkEcosystem [pump; tap] [RootTD pump]
    (λ id, if decide (id = "pump") then ["pump"]
           else if decide (id = "tap") then ["ghost"] else []).
End Ring.

(** An upstream that answers with a JSON array, and a document with a
    date that no reader accepts. *)
Module Listing.
Definition response : Response :=
  mkResponse 200 (Ok (JArr [JStr "21"; JStr "22"])) (Some 60%Z).

Definition env : Env := {|
  wrapper_url_for := wrapper_url_for Demo.env;
  load_graph := load_graph Demo.env;
  encode_rdict := encode_rdict Demo.env;
  n3 := n3 Demo.env;
  lexical := lexical Demo.env;
  extend_uri := extend_uri Demo.env;
  get_type := get_type Demo.env;
  get_property := get_property Demo.env;
  literal_datatype := literal_datatype Demo.env;
  decode_args := decode_args Demo.env;
  invoke := λ _ _ _ _, Ok response;
  endpoint_add := endpoint_add Demo.env;
  endpoint_mappings := endpoint_mappings Demo.env;
  provider_apply := provider_apply Demo.env;
  jsonpath_find := jsonpath_find Demo.env;
  normalize := normalize Demo.env;
  uuid := uuid Demo.env;
  float_eqb := float_eqb Demo.env;
  float_eq_int := float_eq_int Demo.env;
  float_of_string := float_of_string Demo.env;
  float_micros := float_micros Demo.env;
  iso_parse_datetime := iso_parse_datetime Demo.env;
  rfc822_timestamp := rfc822_timestamp Demo.env;
  local_utcoffset := local_utcoffset Demo.env;
  recursion_limit := recursion_limit Demo.env
|}.

Definition dated_document : State :=
  mkState [] default_ttl [] 0
    [ODict [("@id", VStr "http://gw/sensor"); ("ex:value", VStr "21");
            ("ex:at", VStr "yesterday")]]
    {["ex:value" := mkCtxEntry "ex:value" (Some "xsd:string");
      "ex:at" := mkCtxEntry "ex:at" (Some XSD_dateTime)]}.
End Listing.

(** A gateway whose scholars are known by their id; the world is the
    list of what has happened to them, and the scholar of the first
    room refuses to shut down. *)
Module Desk.
Definition build (sid : string) (force_seed : nat) : M (list string) string :=
  λ w, (Ok sid, w ++ ["built " +:+ sid +:+ " from seed " +:+ pretty force_seed]).

Definition close (scholar : string) : M (list string) unit :=
  λ w, if decide (scholar = "gw/room=1")
       then (Raise ValueError, w ++ ["failed " +:+ scholar])
       else (Ok tt, w ++ ["closed " +:+ scholar]).

Definition digest (fed : string) : string := fed.
End Desk.

(* ================================================================== *)
(** * Properties of the seed registry *)
(* ================================================================== *)

Section SeedProperties.
Variable env : Env.
Variable eco : Ecosystem.

Lemma elem_of_seeds_add x y (s : Seeds) :
  x ∈ seeds_add y s ↔ x ∈ s ∨ x = y.
Proof.
  unfold seeds_add. case_decide as Hin.
  - split; [by left | intros [?| ->]; done].
  - rewrite elem_of_app, list_elem_of_singleton. done.
Qed.

Lemma NoDup_seeds_add y (s : Seeds) : NoDup s → NoDup (seeds_add y s).
Proof.
  intros Hnd. unfold seeds_add. case_decide as Hin; [done|].
  apply NoDup_app. split_and!; [done| |apply NoDup_singleton].
  intros x Hx ->%list_elem_of_singleton. done.
Qed.

Lemma elem_of_add_types (uri : Term) (types : list Term) (s : Seeds) x :
  x ∈ foldl (λ s t, seeds_add (uri, n3 env t) s) s types
  ↔ x ∈ s ∨ ∃ t, t ∈ types ∧ x = (uri, n3 env t).
Proof.
  revert s. induction types as [|t types IH]; intros s; simpl.
  - split; [by left|]. intros [?|(t & Ht & _)]; [done|].
    by apply elem_of_nil in Ht.
  - rewrite IH, elem_of_seeds_add. split.
    + intros [[?| ->]|(t' & Ht' & ->)]; [by left| |].
      * right. exists t. split; [left|done].
      * right. exists t'. split; [by right|done].
    + intros [?|(t' & Ht' & ->)]; [by left; left|].
      apply elem_of_cons in Ht' as [->|Ht']; [by left; right|].
      right. by exists t'.
Qed.

Lemma NoDup_add_types (uri : Term) (types : list Term) (s : Seeds) :
  NoDup s → NoDup (foldl (λ s t, seeds_add (uri, n3 env t) s) s types).
Proof.
  revert s. induction types as [|t types IH]; intros s Hnd; simpl; [done|].
  apply IH. by apply NoDup_seeds_add.
Qed.

Lemma elem_of_init_root_seeds root (s : Seeds) x :
  x ∈ init_root_seeds env eco root s
  ↔ x ∈ s ∨ x ∈ declared_root_seeds env eco root.
Proof.
  destruct root as [td|r]; simpl.
  - destruct (td_vars td) as [|v vars].
    + rewrite elem_of_add_types, list_elem_of_fmap. naive_solver.
    + rewrite elem_of_nil. naive_solver.
  - rewrite elem_of_add_types, list_elem_of_fmap. naive_solver.
Qed.

Lemma NoDup_init_root_seeds root (s : Seeds) :
  NoDup s → NoDup (init_root_seeds env eco root s).
Proof.
  intros Hnd. destruct root as [td|r]; simpl.
  - destruct (td_vars td); [by apply NoDup_add_types|done].
  - by apply NoDup_add_types.
Qed.

Lemma init_seeds_from (roots : list Root) (s : Seeds) x :
  x ∈ foldl (λ s root, init_root_seeds env eco root s) s roots
  ↔ x ∈ s ∨ ∃ root, root ∈ roots ∧ x ∈ declared_root_seeds env eco root.
Proof.
  revert s. induction roots as [|r roots IH]; intros s; simpl.
  - split; [by left|]. intros [?|(r & Hr & _)]; [done|].
    by apply elem_of_nil in Hr.
  - rewrite IH, elem_of_init_root_seeds. split.
    + intros [[?|?]|(r' & Hr' & ?)]; [by left| |].
      * right. exists r. split; [left|done].
      * right. exists r'. split; [by right|done].
    + intros [?|(r' & Hr' & ?)]; [by left; left|].
      apply elem_of_cons in Hr' as [->|Hr']; [by left; right|].
      right. by exists r'.
Qed.

Lemma NoDup_init_seeds_from (roots : list Root) (s : Seeds) :
  NoDup s →
  NoDup (foldl (λ s root, init_root_seeds env eco root s) s roots).
Proof.
  revert s. induction roots as [|r roots IH]; intros s Hnd; simpl; [done|].
  apply IH. by apply NoDup_init_root_seeds.
Qed.

(** C10. Right after the proxy is built the seed set holds, for every
    ecosystem root that is not a thing description with variables, one
    pair per declared type: the pair's URI is [url_for] of the id of a
    thing description, and the graph node of any other root.  A thing
    description with variables contributes no pair, and the set holds
    nothing else. *)
Theorem init_seeds_spec :
  NoDup (init_seeds env eco) ∧
  ∀ x, x ∈ init_seeds env eco
       ↔ ∃ root, root ∈ eco_roots eco ∧ x ∈ declared_root_seeds env eco root.
Proof.
  split.
  - apply NoDup_init_seeds_from, NoDup_nil_2.
  - intros x. unfold init_seeds. rewrite init_seeds_from, elem_of_nil.
    naive_solver.
Qed.

(** C9. [instantiate_seed] of a declared root returns the root's URI
    under the given parameters and adds to the seed set exactly one
    pair of that URI with each declared type; of anything else it
    returns nothing and leaves the seed set as it was. *)
Theorem instantiate_seed_spec (root : TD) (kwargs : Args) (seeds : Seeds) :
  let uri := URIRef (url_for env eco (TidId (td_id root)) None kwargs) in
  let declared := RootTD root ∈ eco_roots eco in
  (instantiate_seed env eco root kwargs seeds).1
    = (if bool_decide declared then Some uri else None)
  ∧ (∀ x, x ∈ (instantiate_seed env eco root kwargs seeds).2
          ↔ x ∈ seeds
            ∨ (declared ∧ ∃ t, t ∈ r_types (td_resource root)
                               ∧ x = (uri, n3 env t)))
  ∧ (¬ declared → (instantiate_seed env eco root kwargs seeds).2 = seeds).
Proof.
  intros uri declared. unfold instantiate_seed.
  fold declared. destruct (decide declared) as [Hd|Hd]; simpl.
  - rewrite bool_decide_eq_true_2 by done. split_and!; [done| |done].
    intros x. fold uri. rewrite elem_of_add_types. naive_solver.
  - rewrite bool_decide_eq_false_2 by done. split_and!; [done| |done].
    naive_solver.
Qed.
End SeedProperties.

(* ================================================================== *)
(** * Properties of the endpoint composer *)
(* ================================================================== *)

Section ComposerProperties.
Variable env : Env.
Variable eco : Ecosystem.

Lemma concat_results_cons {A} (r : Result (list A)) rs :
  concat_results (r :: rs)
  = match r, concat_results rs with
    | Ok xs, Ok ys => Ok (xs ++ ys)
    | Raise e, _ => Raise e
    | Ok _, Raise e => Raise e
    end.
Proof. reflexivity. Qed.

Lemma concat_results_ok {A B} (f : A → Result (list B)) (g : A → list B)
  (l : list A) :
  (∀ x, x ∈ l → f x = Ok (g x)) →
  concat_results (f <$> l) = Ok (l ≫= g).
Proof.
  induction l as [|x l IH]; intros Hf; [done|].
  rewrite fmap_cons, concat_results_cons, (Hf x) by left.
  rewrite IH; [done|]. intros y Hy. apply Hf. by right.
Qed.

Lemma concat_results_ext {A B} (f f' : A → Result (list B)) (l : list A) es :
  (∀ x ys, x ∈ l → f x = Ok ys → f' x = Ok ys) →
  concat_results (f <$> l) = Ok es →
  concat_results (f' <$> l) = Ok es.
Proof.
  revert es. induction l as [|x l IH]; intros es Hext Hc; [done|].
  rewrite fmap_cons, concat_results_cons in *.
  destruct (f x) as [xs|e] eqn:Hx; [|done].
  rewrite (Hext x xs) by (done || left).
  destruct (concat_results (f <$> l)) as [zs|e] eqn:Hl; [|done].
  rewrite (IH zs); [done| |done].
  intros y ys Hy. apply Hext. by right.
Qed.

Lemma compose_endpoints_unfold depth td :
  compose_endpoints env eco (S depth) td
  = concat_results
      ((λ base_e,
          match e_href base_e with
          | None =>
              concat_results
                ((λ pred,
                    match rdict eco !! pred with
                    | None => Raise KeyError
                    | Some pred_thing =>
                        match compose_endpoints env eco depth pred_thing with
                        | Ok pes =>
                            Ok ((λ pred_e, endpoint_add env pred_e base_e)
                                  <$> pes)
                        | Raise e => Raise e
                        end
                    end) <$> eco_predecessors eco (td_id td))
          | Some _ => Ok [base_e]
          end) <$> td_base td).
Proof. reflexivity. Qed.

(** A deeper bound does not change what the generator yields. *)
Lemma compose_endpoints_S depth td es :
  compose_endpoints env eco depth td = Ok es →
  compose_endpoints env eco (S depth) td = Ok es.
Proof.
  revert td es. induction depth as [|d IH]; intros td es Hc; [done|].
  rewrite compose_endpoints_unfold in Hc.
  rewrite compose_endpoints_unfold.
  eapply concat_results_ext; [|exact Hc].
  intros b ys _. cbv beta. destruct (e_href b); [done|].
  apply concat_results_ext. intros p zs _.
  destruct (rdict eco !! p) as [pt|]; [|done].
  destruct (compose_endpoints env eco d pt) as [pes|] eqn:Hp; [|done].
  by rewrite (IH _ _ Hp).
Qed.

(** C4. On an ecosystem whose open endpoints only depend on resources
    of lower rank, [compose_endpoints] yields, for each base endpoint in
    turn: the endpoint itself when it carries an address; otherwise,
    for every predecessor of the resource in turn, one endpoint
    [pred_e + base_e] per endpoint [pred_e] that [compose_endpoints]
    yields for that predecessor. *)
Theorem compose_endpoints_spec (rank : string → nat) (depth : nat)
  (td : TD) :
  (∀ t p, has_open_endpoint t → p ∈ eco_predecessors eco (td_id t) →
          ∃ pt, rdict eco !! p = Some pt ∧ rank (td_id pt) < rank (td_id t)) →
  rank (td_id td) < depth →
  ∃ es,
    compose_endpoints env eco depth td = Ok es
    ∧ es = td_base td ≫= (λ base_e,
             match e_href base_e with
             | Some _ => [base_e]
             | None =>
                 eco_predecessors eco (td_id td) ≫= (λ pred,
                   match rdict eco !! pred with
                   | Some pred_thing =>
                       match compose_endpoints env eco depth pred_thing with
                       | Ok pes =>
                           (λ pred_e, endpoint_add env pred_e base_e) <$> pes
                       | Raise _ => []
                       end
                   | None => []
                   end)
             end)
    ∧ (has_open_endpoint td →
       ∀ pred, pred ∈ eco_predecessors eco (td_id td) →
               ∃ pred_thing pes,
                 rdict eco !! pred = Some pred_thing
                 ∧ compose_endpoints env eco depth pred_thing = Ok pes).
Proof.
  intros Hrank. revert td.
  induction depth as [|d IH]; intros td Hlt; [lia|].
  assert (Hpred : has_open_endpoint td →
            ∀ pred, pred ∈ eco_predecessors eco (td_id td) →
              ∃ pt pes, rdict eco !! pred = Some pt
                        ∧ compose_endpoints env eco d pt = Ok pes).
  { intros Hopen p Hp.
    destruct (Hrank td p Hopen Hp) as (pt & Hpt & Hr).
    destruct (IH pt) as (pes & Hpes & _); [lia|]. eauto. }
  refine (ex_intro _ _ (conj _ (conj eq_refl _))).
  - rewrite compose_endpoints_unfold. apply concat_results_ok.
    intros b Hb. cbv beta. destruct (e_href b) eqn:Hh; [done|].
    apply concat_results_ok. intros p Hp.
    destruct (Hpred (ex_intro _ b (conj Hb Hh)) p Hp)
      as (pt & pes & Hpt & Hpes).
    by rewrite Hpt, Hpes, (compose_endpoints_S _ _ _ Hpes).
  - intros Hopen p Hp.
    destruct (Hpred Hopen p Hp) as (pt & pes & Hpt & Hpes).
    exists pt, pes. split; [done|]. by apply compose_endpoints_S.
Qed.
End ComposerProperties.

(* ================================================================== *)
(** * Properties of the RDF materializer *)
(* ================================================================== *)

Lemma elem_of_graph_add (x t : Triple) (g : Graph) :
  x ∈ graph_add t g ↔ x ∈ g ∨ x = t.
Proof.
  unfold graph_add. case_decide as Hin.
  - split; [by left | intros [?| ->]; done].
  - rewrite elem_of_app, list_elem_of_singleton. done.
Qed.

Section MaterializerProperties.
Variable env : Env.

Lemma converted_term_mono m m' term x :
  m ⊆ m' → converted_term env m term = Some x → converted_term env m' term = Some x.
Proof.
  intros Hsub. unfold converted_term.
  repeat case_decide; try done.
  destruct (split_on ":" (nt_value term) !! 1%nat) as [bid|]; [|done].
  simpl. destruct (m !! bid) as [u|] eqn:Hu; [|done].
  by rewrite (lookup_weaken _ _ _ _ Hu Hsub).
Qed.

Lemma converted_triple_mono m m' t x :
  m ⊆ m' → converted_triple env m t = Some x → converted_triple env m' t = Some x.
Proof.
  intros Hsub. unfold converted_triple.
  destruct (converted_term env m t.1.1) as [a|] eqn:Ha; [|done].
  destruct (converted_term env m t.1.2) as [b|] eqn:Hb; [|done].
  destruct (converted_term env m t.2) as [c|] eqn:Hc; [|done].
  by rewrite (converted_term_mono _ _ _ _ Hsub Ha),
    (converted_term_mono _ _ _ _ Hsub Hb),
    (converted_term_mono _ _ _ _ Hsub Hc).
Qed.

Lemma parse_term_ok m term s x m' s' :
  parse_term env m term s = (Ok (x, m'), s') →
  m ⊆ m' ∧ converted_term env m' term = Some x
  ∧ st_graph s' = st_graph s ∧ (st_uuid s ≤ st_uuid s')%nat
  ∧ drawn_between env m m' (st_uuid s) (st_uuid s').
Proof.
  unfold parse_term, converted_term, drawn_between.
  destruct (decide (nt_type term = "IRI")).
  { unfold ret. intros [= <- <- <-]. split_and!; eauto. }
  destruct (decide (nt_type term = "literal")).
  { destruct (decide (nt_datatype term = XSD_dateTime)).
    - unfold bind, lift_result, ret.
      destruct (coerce_datetime env (nt_value term)); [|done].
      intros [= <- <- <-]. split_and!; eauto.
    - destruct (decide (nt_datatype term = RDFS_Literal)).
      + destruct (float_of_string env (nt_value term));
          unfold ret; intros [= <- <- <-]; split_and!; eauto.
      + unfold ret. intros [= <- <- <-]. split_and!; eauto. }
  destruct (split_on ":" (nt_value term) !! 1%nat) as [bid|]; [|done].
  simpl. destruct (m !! bid) as [u|] eqn:Hu.
  - unfold ret. intros [= <- <- <-]. rewrite Hu. split_and!; eauto.
  - unfold bind, ret. intros [= <- <- <-]. simpl.
    rewrite lookup_insert_eq. split_and!; [|done|done|lia|].
    + by apply insert_subseteq.
    + intros b u. rewrite lookup_insert. case_decide as Hb.
      * intros [= <-]. right. exists (st_uuid s). split; [lia|done].
      * eauto.
Qed.

Lemma drawn_between_trans m1 m2 m3 a b c :
  (a ≤ b)%nat → (b ≤ c)%nat →
  drawn_between env m1 m2 a b → drawn_between env m2 m3 b c →
  drawn_between env m1 m3 a c.
Proof.
  intros Hab Hbc H12 H23 k u Hu.
  destruct (H23 k u Hu) as [Hu2|(i & Hi & ->)].
  - destruct (H12 k u Hu2) as [?|(i & Hi & ->)]; [by left|].
    right. exists i. split; [lia|done].
  - right. exists i. split; [lia|done].
Qed.

Lemma materialize_ok ts m s m' s' :
  materialize env m ts s = (Ok m', s') →
  m ⊆ m' ∧ (st_uuid s ≤ st_uuid s')%nat
  ∧ drawn_between env m m' (st_uuid s) (st_uuid s')
  ∧ (∀ t, t ∈ ts → is_Some (converted_triple env m' t))
  ∧ (∀ x, x ∈ st_graph s'
          ↔ x ∈ st_graph s ∨ ∃ t, t ∈ ts ∧ converted_triple env m' t = Some x).
Proof.
  revert m s. induction ts as [|[[ts_ tp] to] ts IH]; intros m s.
  - unfold materialize, ret. intros [= <- <-]. split_and!; [done|done| | |].
    + intros b u ?. by left.
    + intros t Ht. by apply elem_of_nil in Ht.
    + intros x. split; [by left|]. intros [?|(t & Ht & _)]; [done|].
      by apply elem_of_nil in Ht.
  - cbn [materialize]. unfold bind at 1.
    destruct (parse_term env m ts_ s) as [[[a m1]|e] s1] eqn:H1; [|done].
    cbn [fst snd]. unfold bind at 1.
    destruct (parse_term env m1 tp s1) as [[[b m2]|e] s2] eqn:H2; [|done].
    cbn [fst snd]. unfold bind at 1.
    destruct (parse_term env m2 to s2) as [[[c m3]|e] s3] eqn:H3; [|done].
    cbn [fst snd]. unfold bind at 1, add_triple at 1, modify at 1.
    intros Hrest.
    apply parse_term_ok in H1 as (Hs1 & Hc1 & Hg1 & Hu1 & Hd1).
    apply parse_term_ok in H2 as (Hs2 & Hc2 & Hg2 & Hu2 & Hd2).
    apply parse_term_ok in H3 as (Hs3 & Hc3 & Hg3 & Hu3 & Hd3).
    apply IH in Hrest as (Hs4 & Hu4 & Hd4 & Hall & Hg4).
    simpl in Hu4, Hd4, Hg4.
    assert (Hsub : m3 ⊆ m') by done.
    assert (Hhead : converted_triple env m' (ts_, tp, to) = Some (a, b, c)).
    { apply (converted_triple_mono m3); [done|].
      unfold converted_triple. simpl.
      rewrite (converted_term_mono m1 m3 _ _ (transitivity Hs2 Hs3) Hc1).
      rewrite (converted_term_mono m2 m3 _ _ Hs3 Hc2).
      by rewrite Hc3. }
    split_and!.
    + by repeat (etrans; [eassumption|]).
    + lia.
    + apply (drawn_between_trans m m3 m' _ (st_uuid s3)); [lia|lia| |done].
      apply (drawn_between_trans m m2 m3 _ (st_uuid s2)); [lia|lia| |done].
      apply (drawn_between_trans m m1 m2 _ (st_uuid s1)); [lia|lia|done|done].
    + intros t [->|Ht]%elem_of_cons; [by rewrite Hhead|by apply Hall].
    + intros x. rewrite Hg4, elem_of_graph_add, Hg3, Hg2, Hg1. split.
      * intros [[?| ->]|(t & Ht & Hx)]; [by left| |].
        -- right. eexists. split; [left|done].
        -- right. exists t. split; [by right|done].
      * intros [?|(t & [->|Ht]%elem_of_cons & Hx)]; [by left; left| |].
        -- left. right. congruence.
        -- right. by exists t.
Qed.

(** C6. In one call of [ld_triples] the statements added to the graph
    are the normalized statements read through a single map from
    blank-node identifiers to nodes, so every occurrence of an
    identifier becomes the same node; and when the draws of
    [shortuuid.uuid()] are pairwise distinct, the nodes of a later call
    all differ from the nodes of an earlier one. *)
Theorem ld_triples_blank_nodes (data1 data2 : val) (s1 s1' s2 s2' : State) :
  (∀ i j, uuid env i = uuid env j → i = j) →
  ld_triples env data1 s1 = (Ok tt, s1') →
  ld_triples env data2 s2 = (Ok tt, s2') →
  (st_uuid s1' ≤ st_uuid s2)%nat →
  ∃ ts1 ts2 (m1 m2 : gmap string string),
    normalize env (st_ctx s1) (st_heap s1) data1 = Ok ts1
    ∧ normalize env (st_ctx s2) (st_heap s2) data2 = Ok ts2
    ∧ (∀ t, t ∈ ts1 → is_Some (converted_triple env m1 t))
    ∧ (∀ t, t ∈ ts2 → is_Some (converted_triple env m2 t))
    ∧ (∀ x, x ∈ st_graph s1'
            ↔ x ∈ st_graph s1
              ∨ ∃ t, t ∈ ts1 ∧ converted_triple env m1 t = Some x)
    ∧ (∀ x, x ∈ st_graph s2'
            ↔ x ∈ st_graph s2
              ∨ ∃ t, t ∈ ts2 ∧ converted_triple env m2 t = Some x)
    ∧ (∀ b1 b2 u1 u2, m1 !! b1 = Some u1 → m2 !! b2 = Some u2 → u1 ≠ u2).
Proof.
  intros Hinj Hrun1 Hrun2 Hlater.
  unfold ld_triples, bind, get, lift_result, ret in Hrun1, Hrun2.
  destruct (normalize env (st_ctx s1) (st_heap s1) data1) as [ts1|]; [|done].
  destruct (normalize env (st_ctx s2) (st_heap s2) data2) as [ts2|]; [|done].
  destruct (materialize env ∅ ts1 s1) as [[m1|] t1] eqn:H1; [|done].
  destruct (materialize env ∅ ts2 s2) as [[m2|] t2] eqn:H2; [|done].
  injection Hrun1 as <-. injection Hrun2 as <-.
  apply materialize_ok in H1 as (_ & Hu1 & Hd1 & Hall1 & Hg1).
  apply materialize_ok in H2 as (_ & Hu2 & Hd2 & Hall2 & Hg2).
  exists ts1, ts2, m1, m2. split_and!; try done.
  intros b1 b2 u1 u2 Hb1 Hb2 ->.
  destruct (Hd1 _ _ Hb1) as [Hemp|(i & Hi & Hui)];
    [by rewrite lookup_empty in Hemp|].
  destruct (Hd2 _ _ Hb2) as [Hemp|(j & Hj & Huj)];
    [by rewrite lookup_empty in Hemp|].
  assert (i = j) by (apply Hinj; congruence). lia.
Qed.
End MaterializerProperties.

Section DatetimeProperties.
Variable env : Env.

(** C7, at an input where the code departs from it.  Let [epoch] be a
    numeric string and [rfc] an RFC-822 date (which is neither a number
    nor ISO-8601) that denote the same moment [t].  The first is
    materialized as the UTC reading of [t], the second as the reading
    of [t] in the host's zone: on a host [off] seconds east of UTC the
    two literals are [off] seconds apart. *)
Theorem datetime_forms_disagree (epoch rfc : string) (f : PyFloat)
  (t off : Z) (m : gmap string string) (s : State) :
  float_of_string env epoch = Some f →
  float_micros env f = Some (t * 1000000)%Z →
  float_of_string env rfc = None →
  iso_parse_datetime env rfc = None →
  rfc822_timestamp env rfc = Some t →
  local_utcoffset env t = off →
  off ≠ 0%Z →
  ∃ d1 d2,
    parse_term env m (datetime_literal epoch) s
      = (Ok (Literal (LDateTime d1) (Some XSD_dateTime), m), s)
    ∧ parse_term env m (datetime_literal rfc) s
      = (Ok (Literal (LDateTime d2) (Some XSD_dateTime), m), s)
    ∧ (instant d2 - instant d1 = off * 1000000)%Z
    ∧ d1 ≠ d2.
Proof.
  intros Hf Hus Hnf Hniso Hrfc Hoff Hne.
  exists (mkDateTime (t * 1000000) None),
         (mkDateTime ((t + off) * 1000000) None).
  unfold parse_term, datetime_literal, coerce_datetime, bind, lift_result,
    ret. simpl.
  rewrite Hf, Hus, Hnf, Hniso, Hrfc, Hoff.
  split_and!; [done|done|unfold instant; simpl; lia|].
  intros [= Heq]. lia.
Qed.

(** The order of the attempts: a value that [float] accepts is never
    handed to the ISO-8601 parser, and a value that the ISO-8601 parser
    accepts is never handed to the RFC-822 parser. *)
Lemma coerce_datetime_order (value : string) :
  match float_of_string env value with
  | Some f =>
      coerce_datetime env value
      = match float_micros env f with
        | Some us => Ok (mkDateTime us None)
        | None => Raise AttributeError
        end
  | None =>
      match iso_parse_datetime env value with
      | Some d => coerce_datetime env value = Ok d
      | None =>
          coerce_datetime env value
          = match rfc822_timestamp env value with
            | Some t =>
                Ok (mkDateTime ((t + local_utcoffset env t) * 1000000) None)
            | None => Raise TypeError
            end
      end
  end.
Proof.
  unfold coerce_datetime.
  destruct (float_of_string env value); [done|].
  by destruct (iso_parse_datetime env value).
Qed.
End DatetimeProperties.

(* ================================================================== *)
(** * Properties of the mapping engine *)
(* ================================================================== *)

Section MappingProperties.
Variable env : Env.

Lemma exists_lazy_false {A} (f : A → option bool) (xs : list A) :
  exists_lazy f xs = Some false → ∀ x, x ∈ xs → f x = Some false.
Proof.
  induction xs as [|y xs IH]; intros Hex x Hx.
  - by apply elem_of_nil in Hx.
  - simpl in Hex. destruct (f y) as [[]|] eqn:Hy; try done.
    apply elem_of_cons in Hx as [->|Hx]; [done|by apply IH].
Qed.

Lemma pairwise_distinct_snoc h xs v :
  pairwise_distinct env h xs →
  py_in env h v xs = Some false →
  pairwise_distinct env h (xs ++ [v]).
Proof.
  intros Hxs Hin i j x y Hij Hi Hj.
  assert (i < length xs)%nat as Hilt.
  { apply lookup_lt_Some in Hj. rewrite length_app in Hj. simpl in Hj. lia. }
  rewrite lookup_app_l in Hi by done.
  destruct (decide (j < length xs)%nat) as [Hjlt|Hjge].
  - rewrite lookup_app_l in Hj by done. exact (Hxs i j x y Hij Hi Hj).
  - rewrite lookup_app_r in Hj by lia.
    destruct (j - length xs)%nat eqn:Hd; [|done].
    simpl in Hj. injection Hj as <-.
    eapply exists_lazy_false; [exact Hin|].
    by eapply list_elem_of_lookup_2.
Qed.

Lemma assoc_dict_set_eq k v (kvs : list (string * val)) :
  assoc k (dict_set k v kvs) = Some v.
Proof.
  induction kvs as [|[k' v'] kvs IH]; simpl.
  - by rewrite decide_True.
  - destruct (decide (k' = k)) as [->|Hne]; simpl.
    + by rewrite decide_True.
    + by rewrite decide_False.
Qed.

Lemma assoc_dict_set_ne k k' v (kvs : list (string * val)) :
  k ≠ k' → assoc k' (dict_set k v kvs) = assoc k' kvs.
Proof.
  intros Hne. induction kvs as [|[k0 v0] kvs IH]; simpl.
  - by rewrite decide_False.
  - destruct (decide (k0 = k)) as [->|Hne0]; simpl.
    + by rewrite !decide_False.
    + destruct (decide (k0 = k')); [done|apply IH].
Qed.

(** C5, as the code has it.  Writing [mapped_v] under a target that
    already holds [cur] never overwrites: when the two compare equal
    nothing changes; otherwise the target ends up holding a list whose
    elements are the entries it had, followed by [mapped_v] unless
    [mapped_v] compares equal to one of them.  So the write adds no
    duplicate: entries that were pairwise distinct remain so.  (The
    comparisons with the entries are made on the heap [h1] in which the
    target list still has its old elements.) *)
Theorem merge_target_spec (l : loc) (kvs : list (string * val))
  (mapped_k : string) (mapped_v cur : val) (s s' : State) :
  st_heap s !! l = Some (ODict kvs) →
  assoc mapped_k kvs = Some cur →
  merge_target env (VRef l) mapped_k mapped_v s = (Ok tt, s') →
  let es := entries (st_heap s) cur in
  (py_eq env (recursion_limit env) (st_heap s) cur mapped_v = Some true
   ∧ s' = s)
  ∨ (py_eq env (recursion_limit env) (st_heap s) cur mapped_v = Some false
     ∧ ∃ lst kvs' present,
         let h1 := <[lst := OList es]> (st_heap s') in
         st_heap s' !! l = Some (ODict kvs')
         ∧ assoc mapped_k kvs' = Some (VRef lst)
         ∧ py_in env h1 mapped_v es = Some present
         ∧ st_heap s' !! lst
           = Some (OList (if present then es else es ++ [mapped_v]))
         ∧ (pairwise_distinct env h1 es →
            pairwise_distinct env h1
              (if present then es else es ++ [mapped_v]))).
Proof.
  intros Hl Hcur Hrun es.
  unfold merge_target, bind, gets, eq_val in Hrun. simpl in Hrun.
  rewrite Hl, Hcur in Hrun.
  destruct (py_eq env (recursion_limit env) (st_heap s) cur mapped_v)
    as [[]|] eqn:Heq; [| |done].
  { unfold ret in Hrun. injection Hrun as <-. by left. }
  right. split; [done|].
  destruct (is_list (st_heap s) cur) eqn:Hlist.
  - (* the target holds a list *)
    assert (∃ lc xs, cur = VRef lc ∧ st_heap s !! lc = Some (OList xs))
      as (lc & xs & -> & Hobj).
    { unfold is_list in Hlist.
      destruct cur as [| | | | |lc]; try done. simpl in Hlist.
      destruct (st_heap s !! lc) as [[]|] eqn:?; try done. eauto. }
    assert (es = xs) as -> by (unfold es, entries; simpl; by rewrite Hobj).
    unfold getitem, contains, append, ret in Hrun. simpl in Hrun.
    rewrite Hl, Hcur in Hrun. simpl in Hrun. rewrite Hobj in Hrun.
    assert (l ≠ lc) as Hne by (intros ->; congruence).
    destruct (py_in env (st_heap s) mapped_v xs) as [present|] eqn:Hin;
      [|done].
    destruct present.
    + injection Hrun as <-. exists lc, kvs, true. cbv zeta.
      rewrite (list_insert_id _ _ _ Hobj). by split_and!.
    + rewrite Hobj in Hrun. injection Hrun as <-.
      exists lc, kvs, false. cbv zeta. simpl st_heap.
      rewrite list_insert_insert_eq, (list_insert_id _ _ _ Hobj).
      split_and!; [|done|done| |].
      * by rewrite list_lookup_insert_ne by done.
      * apply list_lookup_insert_eq. by eapply lookup_lt_Some.
      * intros Hd. by apply pairwise_distinct_snoc.
  - (* the target holds one value: it is wrapped in a new list *)
    assert (es = [cur]) as ->.
    { unfold es, entries. unfold is_list in Hlist.
      by destruct (obj_at (st_heap s) cur) as [[]|]. }
    unfold alloc, setitem, getitem, contains, append, ret in Hrun.
    simpl in Hrun. rewrite (lookup_app_l_Some _ _ _ _ Hl) in Hrun.
    simpl in Hrun. apply lookup_lt_Some in Hl as Hlt.
    rewrite list_lookup_insert_eq in Hrun by (rewrite length_app; lia).
    rewrite assoc_dict_set_eq in Hrun. simpl in Hrun.
    set (hw := <[l:=ODict (dict_set mapped_k (VRef (length (st_heap s))) kvs)]>
                 (st_heap s ++ [OList [cur]])) in *.
    assert (hw !! length (st_heap s) = Some (OList [cur])) as Hn.
    { unfold hw. rewrite list_lookup_insert_ne by lia.
      by rewrite lookup_app_r, Nat.sub_diag by lia. }
    assert (hw !! l = Some (ODict (dict_set mapped_k
                                     (VRef (length (st_heap s))) kvs)))
      as Hl'.
    { unfold hw. apply list_lookup_insert_eq. rewrite length_app. lia. }
    rewrite Hn in Hrun.
    destruct (py_in env hw mapped_v [cur]) as [present|] eqn:Hin; [|done].
    destruct present.
    + injection Hrun as <-.
      exists (length (st_heap s)),
        (dict_set mapped_k (VRef (length (st_heap s))) kvs), true. cbv zeta. simpl st_heap.
      rewrite (list_insert_id _ _ _ Hn).
      split_and!; [done|apply assoc_dict_set_eq|done|done|done].
    + simpl in Hrun. rewrite Hn in Hrun. injection Hrun as <-.
      exists (length (st_heap s)),
        (dict_set mapped_k (VRef (length (st_heap s))) kvs), false. cbv zeta. simpl st_heap.
      rewrite list_insert_insert_eq, (list_insert_id _ _ _ Hn).
      split_and!; [|apply assoc_dict_set_eq|done| |].
      * rewrite list_lookup_insert_ne by lia. exact Hl'.
      * apply list_lookup_insert_eq. by eapply lookup_lt_Some.
      * intros Hd. by apply pairwise_distinct_snoc.
Qed.
End MappingProperties.

(* ================================================================== *)
(** * Invariants of computations *)
(* ================================================================== *)

Section Preserves.
Context (P : State → Prop).

Lemma preserves_ret {A} (a : A) : preserves P (ret a).
Proof. by intros s Hs. Qed.

Lemma preserves_raise {A} (e : exn) : preserves P (raise (A:=A) e).
Proof. by intros s Hs. Qed.

Lemma preserves_lift_result {A} (r : Result A) : preserves P (lift_result r).
Proof. by intros s Hs. Qed.

Lemma preserves_gets {A} (f : State → A) : preserves P (gets f).
Proof. by intros s Hs. Qed.

Lemma preserves_get : preserves P get.
Proof. by intros s Hs. Qed.

Lemma preserves_modify (f : State → State) :
  (∀ s, P s → P (f s)) → preserves P (modify f).
Proof. intros Hf s Hs. by apply Hf. Qed.

Lemma preserves_bind {A B} (c : M State A) (k : A → M State B) :
  preserves P c → (∀ a, preserves P (k a)) → preserves P (bind c k).
Proof.
  intros Hc Hk s Hs. unfold bind. specialize (Hc s Hs).
  destruct (c s) as [[a|e] s1]; simpl in *; [by apply Hk|done].
Qed.

Lemma preserves_for_each {A} (xs : list A) (body : A → M State unit) :
  (∀ x, x ∈ xs → preserves P (body x)) → preserves P (for_each xs body).
Proof.
  induction xs as [|x xs IH]; intros Hbody; simpl.
  - apply preserves_ret.
  - apply preserves_bind; [apply Hbody; left|].
    intros _. apply IH. intros y Hy. apply Hbody. by right.
Qed.
End Preserves.

(** One step of the decomposition of a goal [preserves P c] along the
    structure of [c]. *)
Ltac preserves_step :=
  lazymatch goal with
  | |- preserves _ (ret _) => apply preserves_ret
  | |- preserves _ (raise _) => apply preserves_raise
  | |- preserves _ (lift_result _) => apply preserves_lift_result
  | |- preserves _ (gets _) => apply preserves_gets
  | |- preserves _ get => apply preserves_get
  | |- preserves _ (bind _ _) => apply preserves_bind; [|intros ?]
  | |- preserves _ (for_each _ _) => apply preserves_for_each; intros ? ?
  | |- preserves _ (match ?x with _ => _ end) => destruct x eqn:?
  | |- preserves _ (let _ := _ in _) => cbv zeta
  end.

(** ** Computations that only touch the objects, the context, the draws
    and add to the graph *)

Section Frame.
Variable env : Env.
Context (P : State → Prop).
Hypothesis P_heap : ∀ s h, P s → P (set_heap h s).
Hypothesis P_ctx : ∀ s c, P s → P (set_ctx c s).
Hypothesis P_uuid : ∀ s n, P s → P (set_uuid n s).
Hypothesis P_graph :
  ∀ s t, P s → P (set_graph (graph_add t (st_graph s)) s).

Ltac prim :=
  intros s Hs; cbv beta; repeat case_match; cbn [snd];
  first [ exact Hs | by apply P_heap | by apply P_ctx | by apply P_uuid
        | by apply P_graph ].

Lemma frame_alloc o : preserves P (alloc o).
Proof. unfold alloc. prim. Qed.
Lemma frame_getitem md k : preserves P (getitem md k).
Proof. unfold getitem. prim. Qed.
Lemma frame_setitem md k v : preserves P (setitem md k v).
Proof. unfold setitem. prim. Qed.
Lemma frame_append lst v : preserves P (append lst v).
Proof. unfold append. prim. Qed.
Lemma frame_eq_val a b : preserves P (eq_val env a b).
Proof. unfold eq_val. prim. Qed.
Lemma frame_contains lst v : preserves P (contains env lst v).
Proof. unfold contains. prim. Qed.
Lemma frame_ctx_set k e : preserves P (ctx_set k e).
Proof. unfold ctx_set. apply preserves_modify. intros. by apply P_ctx. Qed.
Lemma frame_fresh_uuid : preserves P (fresh_uuid env).
Proof. unfold fresh_uuid. prim. Qed.
Lemma frame_call_provider f key vars kwargs :
  preserves P (call_provider env f key vars kwargs).
Proof. unfold call_provider. prim. Qed.
Lemma frame_add_triple t : preserves P (add_triple t).
Proof. unfold add_triple. apply preserves_modify. intros. by apply P_graph. Qed.

Ltac frame_prim :=
  first [ apply frame_alloc | apply frame_getitem | apply frame_setitem
        | apply frame_append | apply frame_eq_val | apply frame_contains
        | apply frame_ctx_set | apply frame_fresh_uuid
        | apply frame_call_provider | apply frame_add_triple ].

Ltac frame := repeat (first [ frame_prim | preserves_step ]).

Lemma frame_update md items : preserves P (update md items).
Proof. unfold update. frame. Qed.

Lemma frame_load j : preserves P (load j).
Proof.
  induction j as [| | | | |xs IH|kvs IH] using Json_nested_ind;
    cbn [load]; try apply preserves_ret.
  - apply preserves_bind; [|intros ?; frame].
    induction IH as [|j' js' Hj' _ IHjs]; frame; auto.
  - apply preserves_bind; [|intros ?; frame].
    induction IH as [|[k j'] ms' Hj' _ IHms]; frame; auto.
Qed.

Lemma frame_path_data path data : preserves P (path_data env path data).
Proof. unfold path_data. frame. Qed.

Lemma frame_merge_target md k v : preserves P (merge_target env md k v).
Proof. unfold merge_target. frame. Qed.

Lemma frame_apply_mapping depth md mapping p_n3 :
  preserves P (apply_mapping env depth md mapping p_n3).
Proof.
  revert md. induction depth as [|d IH]; intros md; cbn [apply_mapping].
  - apply preserves_raise.
  - frame; first [apply frame_merge_target | apply IH].
Qed.

Lemma frame_apply_mappings data mappings :
  preserves P (apply_mappings env data mappings).
Proof.
  unfold apply_mappings. apply preserves_bind; [frame|]. intros h.
  apply preserves_bind; [frame|]. intros data0. clear data h.
  revert data0. induction mappings as [|m ms IH]; intros data; [frame|].
  apply preserves_bind.
  { frame; first [apply frame_path_data | apply frame_update]. }
  intros data'. apply preserves_bind; [apply frame_apply_mapping|].
  intros _. apply IH.
Qed.

Lemma frame_property_entry pdict p_n3 v :
  preserves P (property_entry env pdict p_n3 v).
Proof. unfold property_entry. frame. Qed.

Lemma frame_enrich depth uri data types vars kwargs :
  preserves P (enrich env depth uri data types vars kwargs).
Proof.
  revert uri data types vars kwargs.
  induction depth as [|d IH]; intros uri data types vars kwargs;
    cbn [enrich].
  - apply preserves_raise.
  - frame; first [apply frame_property_entry | apply IH].
Qed.

Lemma frame_parse_term m term : preserves P (parse_term env m term).
Proof.
  unfold parse_term. frame.
Qed.

Lemma frame_materialize m ts : preserves P (materialize env m ts).
Proof.
  revert m. induction ts as [|[[s p] o] ts IH]; intros m;
    cbn [materialize]; frame; first [apply frame_parse_term | apply IH].
Qed.

Lemma frame_ld_triples data : preserves P (ld_triples env data).
Proof. unfold ld_triples. frame. apply frame_materialize. Qed.
End Frame.

(* ================================================================== *)
(** * Properties of the resource descriptor *)
(* ================================================================== *)

Lemma for_each_app {S A} (xs ys : list A) (body : A → M S unit) (s : S) :
  for_each (xs ++ ys) body s
  = match for_each xs body s with
    | (Ok _, s1) => for_each ys body s1
    | (Raise e, s1) => (Raise e, s1)
    end.
Proof.
  revert s. induction xs as [|x xs IH]; intros s; simpl; [done|].
  unfold bind. destruct (body x s) as [[[]|e] s1]; [apply IH|done].
Qed.

Lemma for_each_ext {S A} (xs : list A) (body body' : A → M S unit) (s : S) :
  (∀ x s, body x s = body' x s) → for_each xs body s = for_each xs body' s.
Proof.
  intros Hext. revert s. induction xs as [|x xs IH]; intros s; simpl; [done|].
  unfold bind. rewrite Hext. destruct (body' x s) as [[[]|e] s1]; [apply IH|done].
Qed.

(** A loop that adds to the graph the triple chosen for each element. *)
Lemma for_each_add {A} (f : A → option Triple) (xs : list A) (s : State) :
  ∃ g, for_each xs (λ a, match f a with
                         | Some t => add_triple t
                         | None => ret tt
                         end) s = (Ok tt, set_graph g s)
       ∧ ∀ x, x ∈ g ↔ x ∈ st_graph s ∨ ∃ a, a ∈ xs ∧ f a = Some x.
Proof.
  revert s. induction xs as [|a xs IH]; intros s.
  - exists (st_graph s). split; [by destruct s|].
    intros x. split; [by left|]. intros [?|(a & Ha & _)]; [done|].
    by apply elem_of_nil in Ha.
  - cbn [for_each]. unfold bind.
    destruct (f a) as [t|] eqn:Hfa.
    + destruct (IH (set_graph (graph_add t (st_graph s)) s)) as (g & Hrun & Hg).
      exists g. split; [exact Hrun|].
      intros x. rewrite Hg. simpl. rewrite elem_of_graph_add. split.
      * intros [[?| ->]|(a' & Ha' & Hx)]; [by left| |].
        -- right. exists a. split; [left|done].
        -- right. exists a'. split; [by right|done].
      * intros [?|(a' & [->|Ha']%elem_of_cons & Hx)]; [by left; left| |].
        -- left. right. congruence.
        -- right. by exists a'.
    + destruct (IH s) as (g & Hrun & Hg).
      exists g. split; [exact Hrun|].
      intros x. rewrite Hg. split.
      * intros [?|(a' & Ha' & Hx)]; [by left|].
        right. exists a'. split; [by right|done].
      * intros [?|(a' & [->|Ha']%elem_of_cons & Hx)]; [by left|congruence|].
        right. by exists a'.
Qed.

Section DescriptorProperties.
Variable env : Env.
Variable eco : Ecosystem.

(** ** The endpoint loop *)

Lemma call_endpoint_skipped td r_uri args e s response :
  invoke env e (st_graph s) r_uri args = Ok response →
  status_code response ≠ 200%Z →
  call_endpoint env td r_uri args e s
  = (Ok tt, set_calls (st_calls s ++ [(e, Ok response)]) s).
Proof.
  intros Hinv Hstatus. unfold call_endpoint, bind, gets, modify, lift_result.
  simpl. rewrite Hinv. by rewrite decide_False.
Qed.

(** Predicates on the state that the endpoint loop can only make true:
    they do not depend on the objects, the context or the draws, and
    survive an addition to the graph, an entry in the log and a
    shortening of the lifetime. *)
Section ChainFrame.
Context (P : State → Prop).
Hypothesis P_heap : ∀ s h, P s → P (set_heap h s).
Hypothesis P_ctx : ∀ s c, P s → P (set_ctx c s).
Hypothesis P_uuid : ∀ s n, P s → P (set_uuid n s).
Hypothesis P_graph :
  ∀ s t, P s → P (set_graph (graph_add t (st_graph s)) s).
Hypothesis P_calls : ∀ s c, P s → P (set_calls c s).
Hypothesis P_ttl : ∀ s t, (t ≤ st_ttl s)%Z → P s → P (set_ttl t s).

Lemma frame_response td r_uri args e response :
  preserves P
    (j <~ lift_result (json_body response) ;;
     data <~ load j ;;
     mapped_data <~ apply_mappings env data (endpoint_mappings env td e) ;;
     modify (set_ctx ∅) ;;;
     ld <~ enrich env (recursion_limit env) (term_str env r_uri)
             mapped_data (TypeTerm <$> r_types (td_resource td))
             (td_vars td) args ;;
     ld_triples env ld ;;;
     modify (λ s, set_ttl (Z.min (st_ttl s)
                             (hint_or (ttl_hint response) (st_ttl s))) s)).
Proof.
  repeat first
    [ apply frame_load | apply frame_apply_mappings | apply frame_enrich
    | apply frame_ld_triples | preserves_step ]; auto.
  - apply preserves_modify. auto.
  - apply preserves_modify. intros s Hs. apply P_ttl; [lia|done].
Qed.

Lemma frame_call_endpoint td r_uri args e :
  preserves P (call_endpoint env td r_uri args e).
Proof.
  unfold call_endpoint.
  apply preserves_bind; [apply preserves_gets|]. intros g.
  apply preserves_bind; [apply preserves_modify; by auto|]. intros _.
  apply preserves_bind; [apply preserves_lift_result|]. intros response.
  destruct (decide (status_code response = 200%Z));
    [apply frame_response|apply preserves_ret].
Qed.

Lemma frame_invoke_chain td r_uri args es :
  preserves P (invoke_chain env td r_uri args es).
Proof.
  unfold invoke_chain. apply preserves_for_each.
  intros e _. apply frame_call_endpoint.
Qed.

Lemma frame_copy_static td r_uri b64 args :
  preserves P (copy_static env eco td r_uri b64 args).
Proof.
  unfold copy_static. apply preserves_for_each. intros t _.
  destruct (rewrite_static env eco td r_uri b64 args t);
    [by apply frame_add_triple|apply preserves_ret].
Qed.

Lemma frame_expand_types r_uri types props :
  preserves P (expand_types env r_uri types props).
Proof.
  revert props. induction types as [|t types IH]; intros props;
    cbn [expand_types]; [apply preserves_ret|].
  apply preserves_bind; [apply preserves_lift_result|]. intros ti.
  apply preserves_bind; [|intros _; apply IH].
  apply preserves_for_each. intros st _. by apply frame_add_triple.
Qed.

Lemma frame_merge_same_as td r_uri props :
  preserves P (merge_same_as env td r_uri props).
Proof.
  unfold merge_same_as. apply preserves_for_each. intros href _.
  apply preserves_bind; [by apply frame_add_triple|]. intros _.
  apply preserves_bind; [apply preserves_lift_result|]. intros g.
  apply preserves_for_each. intros [[s p] o] _.
  repeat case_decide; try apply preserves_ret;
    try by apply frame_add_triple.
  destruct (is_BNode s); [by apply frame_add_triple|apply preserves_ret].
Qed.

Lemma frame_describe_body td tid b64 kwargs :
  preserves P (describe_body env eco td tid b64 kwargs).
Proof.
  unfold describe_body.
  apply preserves_bind; [apply preserves_lift_result|]. intros decoded.
  cbv zeta.
  apply preserves_bind; [apply frame_copy_static|]. intros _.
  apply preserves_bind; [apply frame_expand_types|]. intros props.
  apply preserves_bind; [apply frame_merge_same_as|]. intros _.
  destruct (td_base td); [apply preserves_ret|].
  apply preserves_bind; [apply preserves_lift_result|]. intros es.
  apply frame_invoke_chain.
Qed.
End ChainFrame.

Lemma call_endpoint_unfold td r_uri args e s :
  call_endpoint env td r_uri args e s
  = let answer := invoke env e (st_graph s) r_uri args in
    let logged := set_calls (st_calls s ++ [(e, answer)]) s in
    match answer with
    | Raise x => (Raise x, logged)
    | Ok response =>
        if decide (status_code response = 200%Z)
        then merge_response env td r_uri args e response logged
        else (Ok tt, logged)
    end.
Proof.
  unfold call_endpoint, bind at 1, gets. cbv beta iota.
  unfold bind at 1, modify at 1. cbv beta iota.
  unfold bind at 1, lift_result at 1. cbv beta iota zeta.
  destruct (invoke env e (st_graph s) r_uri args) as [response|x]; [|done].
  by destruct (decide (status_code response = 200%Z)).
Qed.

Lemma bind_ok {A B} (c : M State A) (k : A → M State B) s b s' :
  bind c k s = (Ok b, s') →
  ∃ a s1, c s = (Ok a, s1) ∧ k a s1 = (Ok b, s').
Proof.
  unfold bind. destruct (c s) as [[a|x] s1]; [|done]. eauto.
Qed.

Lemma merge_response_ok td r_uri args e response s s' :
  merge_response env td r_uri args e response s = (Ok tt, s') →
  st_calls s' = st_calls s
  ∧ st_ttl s' = Z.min (st_ttl s) (hint_or (ttl_hint response) (st_ttl s)).
Proof.
  intros Hrun.
  pose (P := λ s0 : State, st_calls s0 = st_calls s ∧ st_ttl s0 = st_ttl s).
  assert (HP : ∀ {A} (c : M State A),
             (∀ Q : State → Prop,
                 (∀ s h, Q s → Q (set_heap h s)) →
                 (∀ s c, Q s → Q (set_ctx c s)) →
                 (∀ s n, Q s → Q (set_uuid n s)) →
                 (∀ s t, Q s → Q (set_graph (graph_add t (st_graph s)) s)) →
                 preserves Q c) →
             preserves P c).
  { intros A c Hc. by apply Hc. }
  unfold merge_response in Hrun.
  apply bind_ok in Hrun as (j & s1 & H1 & Hrun).
  unfold lift_result in H1. injection H1 as _ <-.
  apply bind_ok in Hrun as (data & s2 & H2 & Hrun).
  assert (P s2) as P2.
  { pose proof (HP _ (load j) (λ Q a b c d, frame_load Q a j) s) as H.
    rewrite H2 in H. by apply H. }
  apply bind_ok in Hrun as (mapped & s3 & H3 & Hrun).
  assert (P s3) as P3.
  { pose proof (HP _ (apply_mappings env data (endpoint_mappings env td e))
                  (λ Q a b c d, frame_apply_mappings env Q a _ _) s2 P2) as H.
    by rewrite H3 in H. }
  apply bind_ok in Hrun as ([] & s4 & H4 & Hrun).
  assert (s4 = set_ctx ∅ s3) as -> by (by injection H4).
  apply bind_ok in Hrun as (ld & s5 & H5 & Hrun).
  assert (P s5) as P5.
  { pose proof (HP _ (enrich env (recursion_limit env) (term_str env r_uri)
                        mapped (TypeTerm <$> r_types (td_resource td))
                        (td_vars td) args)
                  (λ Q a b c d, frame_enrich env Q a b c _ _ _ _ _ _)
                  (set_ctx ∅ s3)) as H.
    rewrite H5 in H. apply H. by destruct P3. }
  apply bind_ok in Hrun as ([] & s6 & H6 & Hrun).
  assert (P s6) as [Hc6 Ht6].
  { pose proof (HP _ (ld_triples env ld)
                  (λ Q a b c d, frame_ld_triples env Q c d _) s5 P5) as H.
    by rewrite H6 in H. }
  unfold modify in Hrun. injection Hrun as <-. simpl.
  by rewrite Hc6, Ht6.
Qed.

Lemma call_endpoint_ok td r_uri args e s s' :
  call_endpoint env td r_uri args e s = (Ok tt, s') →
  ∃ answer, st_calls s' = st_calls s ++ [(e, answer)]
            ∧ st_ttl s' = lifetime_after (st_ttl s) [(e, answer)].
Proof.
  rewrite call_endpoint_unfold. cbv zeta.
  destruct (invoke env e (st_graph s) r_uri args) as [response|x]; [|done].
  exists (Ok response). unfold lifetime_after. simpl.
  destruct (decide (status_code response = 200%Z)).
  - by apply merge_response_ok in H as [-> ->].
  - by injection H as <-.
Qed.

(** A chain that runs to its end has invoked every endpoint, in order,
    and has derived the lifetime from the answers with status 200. *)
Lemma invoke_chain_ok td r_uri args es s s' :
  invoke_chain env td r_uri args es s = (Ok tt, s') →
  ∃ new, st_calls s' = st_calls s ++ new ∧ new.*1 = es
         ∧ st_ttl s' = lifetime_after (st_ttl s) new.
Proof.
  unfold invoke_chain. revert s.
  induction es as [|e es IH]; intros s; cbn [for_each].
  - unfold ret. intros [= <-]. exists []. by rewrite app_nil_r.
  - intros ([] & s1 & He & Hes)%bind_ok.
    apply call_endpoint_ok in He as (answer & Hc1 & Ht1).
    apply IH in Hes as (new & Hc & Hes & Ht).
    exists ((e, answer) :: new). split_and!.
    + by rewrite Hc, Hc1, <- app_assoc.
    + rewrite fmap_cons. by rewrite Hes.
    + by rewrite Ht, Ht1.
Qed.

(** C1, as the code has it.  An endpoint whose call answers with a
    status other than 200 is skipped: the chain goes on with the
    endpoints after it from the graph and the lifetime it had.  When
    the chain then runs to its end, every remaining endpoint has been
    invoked, in order, and the lifetime is derived from the hints of
    the answers with status 200 alone; and the triples in the graph
    once a later endpoint has been merged are in the graph at the end.
    (An endpoint whose call raises ends the chain instead.) *)
Theorem non_success_skipped (td : TD) (r_uri : Term) (args : Args)
  (es1 es2 : list Endpoint) (e : Endpoint) (s s1 : State)
  (response : Response) :
  invoke_chain env td r_uri args es1 s = (Ok tt, s1) →
  invoke env e (st_graph s1) r_uri args = Ok response →
  status_code response ≠ 200%Z →
  let logged := set_calls (st_calls s1 ++ [(e, Ok response)]) s1 in
  invoke_chain env td r_uri args (es1 ++ e :: es2) s
    = invoke_chain env td r_uri args es2 logged
  ∧ st_graph logged = st_graph s1
  ∧ st_ttl logged = st_ttl s1
  ∧ (∀ s', invoke_chain env td r_uri args es2 logged = (Ok tt, s') →
           ∃ new, st_calls s' = st_calls s1 ++ (e, Ok response) :: new
                  ∧ new.*1 = es2
                  ∧ st_ttl s' = lifetime_after (st_ttl s1) new)
  ∧ ∀ before e' after sa sb,
      es2 = before ++ e' :: after →
      invoke_chain env td r_uri args before logged = (Ok tt, sa) →
      call_endpoint env td r_uri args e' sa = (Ok tt, sb) →
      ∀ x, x ∈ st_graph sb →
           x ∈ st_graph (invoke_chain env td r_uri args es2 logged).2.
Proof.
  intros Hes1 Hinv Hstatus logged. split_and!; [|done|done| |].
  - unfold invoke_chain in *. rewrite for_each_app, Hes1.
    cbn [for_each]. unfold bind.
    by rewrite (call_endpoint_skipped _ _ _ _ _ _ Hinv Hstatus).
  - intros s' (new & Hcalls & Hnew & Httl)%invoke_chain_ok.
    exists new. split_and!; [|done|done].
    rewrite Hcalls. simpl. by rewrite <- app_assoc.
  - intros before e' after sa sb -> Hbefore He' x Hx.
    unfold invoke_chain in *. rewrite for_each_app, Hbefore.
    cbn [for_each]. unfold bind. rewrite He'.
    apply (frame_invoke_chain (λ s, x ∈ st_graph s)); try done.
    intros s0 t Hs0. simpl. apply elem_of_graph_add. by left.
Qed.

(** ** The lifetime *)

Lemma lifetime_inv_call_endpoint td r_uri args e :
  preserves lifetime_inv (call_endpoint env td r_uri args e).
Proof.
  intros s [Hle Hdef]. rewrite call_endpoint_unfold. cbv zeta.
  assert (Hkeep : ∀ answer,
            no_success (set_calls (st_calls s ++ [(e, answer)]) s) →
            no_success s).
  { intros answer Hno e0 r He0. apply (Hno e0 r). simpl.
    apply elem_of_app. by left. }
  destruct (invoke env e (st_graph s) r_uri args) as [response|x] eqn:Hinv.
  2:{ split; [done|]. intros Hno. eapply Hdef, Hkeep, Hno. }
  destruct (decide (status_code response = 200%Z)) as [H200|].
  2:{ split; [done|]. intros Hno. eapply Hdef, Hkeep, Hno. }
  assert (HP : preserves
                 (λ s', st_calls s' = st_calls s ++ [(e, Ok response)]
                        ∧ (st_ttl s' ≤ st_ttl s)%Z)
                 (merge_response env td r_uri args e response)).
  { apply frame_response; try done. simpl. intros s0 t Ht [? ?].
    split; [done|lia]. }
  destruct (HP (set_calls (st_calls s ++ [(e, Ok response)]) s))
    as [Hcalls Httl]; [by split|].
  split; [lia|]. intros Hno. exfalso.
  apply (Hno e response); [|exact H200].
  rewrite Hcalls. apply elem_of_app. right. by left.
Qed.

Lemma lifetime_inv_describe_body td tid b64 kwargs :
  preserves lifetime_inv (describe_body env eco td tid b64 kwargs).
Proof.
  unfold describe_body.
  apply preserves_bind; [apply preserves_lift_result|]. intros decoded.
  cbv zeta.
  apply preserves_bind; [by apply frame_copy_static|]. intros _.
  apply preserves_bind; [by apply frame_expand_types|]. intros props.
  apply preserves_bind; [by apply frame_merge_same_as|]. intros _.
  destruct (td_base td) as [|b0 bs]; [apply preserves_ret|].
  apply preserves_bind; [apply preserves_lift_result|]. intros es.
  apply preserves_for_each. intros e0 _.
  apply lifetime_inv_call_endpoint.
Qed.

(** C2, as the code has it.  For the id of a resource of the ecosystem
    an [Exception] raised inside the [try] block is not propagated: it
    is caught and printed, and the call hands back the graph and the
    lifetime as they are at that point.  The lifetime is at most the
    default one, and it is the default one unless an endpoint invoked
    before has answered 200. *)
Theorem describe_resource_catches (tid : string) (td : TD)
  (b64 : option string) (kwargs : list (string * string)) (draws : nat) :
  rdict eco !! tid = Some td →
  ∃ r s,
    describe_run env eco td tid b64 kwargs draws = (r, s)
    ∧ ((∀ e, r = Raise e → is_Exception e = true) →
       describe_resource env eco tid b64 kwargs draws
       = Ok (mkDescribed (st_graph s) (cache_control (st_ttl s))
               (match r with Raise e => Some e | Ok _ => None end)))
    ∧ (st_ttl s ≤ default_ttl)%Z
    ∧ (no_success s → st_ttl s = default_ttl).
Proof.
  intros Htd. unfold describe_resource. rewrite Htd.
  destruct (describe_run env eco td tid b64 kwargs draws) as [r s] eqn:Hrun.
  exists r, s.
  pose proof (lifetime_inv_describe_body td tid b64 kwargs
                (initial_state draws)) as Hinv.
  unfold describe_run in Hrun. rewrite Hrun in Hinv.
  destruct Hinv as [Hle Hdef]; [by split|].
  split_and!; [done| |done|done].
  intros Hexc. destruct r as [[]|e]; [done|]. by rewrite (Hexc e).
Qed.

(** ** A resource without endpoints *)

Lemma for_each_add_all {A} (f : A → Triple) (xs : list A) (s : State) :
  ∃ g, for_each xs (λ a, add_triple (f a)) s = (Ok tt, set_graph g s)
       ∧ ∀ x, x ∈ g ↔ x ∈ st_graph s ∨ ∃ a, a ∈ xs ∧ x = f a.
Proof.
  destruct (for_each_add (λ a, Some (f a)) xs s) as (g & Hrun & Hg).
  exists g. split; [exact Hrun|].
  intros x. rewrite Hg. naive_solver.
Qed.

Lemma expand_types_ok r_uri types props0 s props s' :
  expand_types env r_uri types props0 s = (Ok props, s') →
  s' = set_graph (st_graph s') s
  ∧ (∀ p, p ∈ props ↔ p ∈ props0 ∨ declared_property env types p)
  ∧ (∀ x, x ∈ st_graph s'
          ↔ x ∈ st_graph s ∨ supertype_statement env types r_uri x).
Proof.
  revert props0 s. induction types as [|t types IH]; intros props0 s.
  - cbn [expand_types]. unfold ret. intros [= <- <-].
    split_and!; [by destruct s| |].
    + intros p. split; [by left|]. intros [?|(t & ti & Ht & _)]; [done|].
      by apply elem_of_nil in Ht.
    + intros x. split; [by left|].
      intros [?|(t & ti & st & Ht & _)]; [done|]. by apply elem_of_nil in Ht.
  - cbn [expand_types]. unfold bind at 1, lift_result at 1.
    destruct (get_type env (type_n3 env (TypeTerm t))) as [ti|] eqn:Hti;
      [|done].
    unfold bind at 1.
    destruct (for_each_add_all
                (λ st, (r_uri, RDF_type, URIRef (extend_uri env st)))
                (ti_super ti) s) as (g & -> & Hg).
    intros Hrest. apply IH in Hrest as (Hs' & Hprops & Hgraph).
    split_and!.
    + rewrite Hs' at 1. done.
    + intros p. rewrite Hprops, elem_of_app. split.
      * intros [[?|?]|(t' & ti' & Ht' & Hti' & Hp)]; [by left| |].
        -- right. exists t, ti. split_and!; [left|done|done].
        -- right. exists t', ti'. split_and!; [by right|done|done].
      * intros [?|(t' & ti' & [->|Ht']%elem_of_cons & Hti' & Hp)].
        -- by left; left.
        -- left; right. congruence.
        -- right. by exists t', ti'.
    + intros x. rewrite Hgraph. simpl. rewrite Hg. split.
      * intros [[?|(st & Hst & ->)]|(t' & ti' & st & Ht' & Hrest)];
          [by left| |].
        -- right. exists t, ti, st. split_and!; [left|done|done|done].
        -- right. exists t', ti', st. destruct Hrest as (? & ? & ?).
           split_and!; [by right|done|done|done].
      * intros [?|(t' & ti' & st & [->|Ht']%elem_of_cons & Hti' & Hst & ->)].
        -- by left; left.
        -- left; right. exists st. split; [congruence|done].
        -- right. by exists t', ti', st.
Qed.

Lemma merge_same_as_ok td r_uri props s s' :
  merge_same_as env td r_uri props s = (Ok tt, s') →
  s' = set_graph (st_graph s') s
  ∧ (∀ x, x ∈ st_graph s'
          ↔ x ∈ st_graph s
            ∨ same_as_statement env (td_rdf_sources td) (λ p, p ∈ props) r_uri x).
Proof.
  unfold merge_same_as. generalize (td_rdf_sources td) as sources.
  intros sources. revert s.
  induction sources as [|href sources IH]; intros s.
  - cbn [for_each]. unfold ret. intros [= <-]. split; [by destruct s|].
    intros x. split; [by left|]. intros [?|(h & Hh & _)]; [done|].
    by apply elem_of_nil in Hh.
  - cbn [for_each]. unfold bind at 1. unfold bind at 1.
    unfold add_triple at 1, modify at 1. cbv beta iota.
    unfold bind at 1, lift_result at 1.
    destruct (load_graph env href) as [g|] eqn:Hload; [|done].
    cbv beta iota.
    rewrite (for_each_ext g _
               (λ t, match (same_as_copy env) r_uri (URIRef href) props t with
                     | Some t' => add_triple t'
                     | None => ret tt
                     end)).
    2:{ intros [[s0 p0] o0] s1. unfold same_as_copy.
        repeat case_decide; try done. by destruct (is_BNode s0). }
    destruct (for_each_add (same_as_copy env r_uri (URIRef href) props) g
                (set_graph (graph_add (r_uri, OWL_sameAs, URIRef href)
                              (st_graph s)) s)) as (g' & -> & Hg').
    intros Hrest. apply IH in Hrest as (Hs' & Hgraph).
    split; [by rewrite Hs' at 1|].
    intros x. rewrite Hgraph. simpl. rewrite Hg'. simpl.
    rewrite elem_of_graph_add. split.
    + intros [[[?| ->]|(t & Ht & Hcopy)]|(h & Hh & Hx)].
      * by left.
      * right. exists href. split; [left|by left].
      * right. exists href. split; [left|]. right.
        destruct t as [[s0 p0] o0]. unfold same_as_copy in Hcopy.
        exists g, s0, p0, o0. split_and!; [done|done| |].
        -- by case_decide.
        -- case_decide; [|done]. case_decide.
           ++ left. split; [done|congruence].
           ++ right. destruct (is_BNode s0) eqn:Hb; [|done].
              split_and!; [done|done|congruence].
      * right. exists h. split; [by right|done].
    + intros [?|(h & [->|Hh]%elem_of_cons & Hx)].
      * by left; left; left.
      * destruct Hx as [->|(g0 & s0 & p0 & o0 & Hg0 & Hin & Hp & Hx)].
        -- left; left; by right.
        -- left; right. exists (s0, p0, o0).
           rewrite Hload in Hg0. injection Hg0 as <-. split; [done|].
           unfold same_as_copy. rewrite decide_True by done.
           destruct Hx as [[-> ->]|(Hne & Hb & ->)].
           ++ by rewrite decide_True.
           ++ rewrite decide_False by done. by rewrite Hb.
      * right. by exists h.
Qed.

Lemma expand_types_total r_uri types props0 s :
  (∀ t, t ∈ types →
        ∃ ti, get_type env (type_n3 env (TypeTerm t)) = Ok ti) →
  ∃ props s', expand_types env r_uri types props0 s = (Ok props, s').
Proof.
  revert props0 s. induction types as [|t types IH]; intros props0 s Hall.
  - by exists props0, s.
  - cbn [expand_types]. unfold bind at 1, lift_result at 1.
    destruct (Hall t) as [ti ->]; [left|].
    unfold bind at 1.
    destruct (for_each_add_all
                (λ st, (r_uri, RDF_type, URIRef (extend_uri env st)))
                (ti_super ti) s) as (g & -> & _).
    apply IH. intros t' Ht'. apply Hall. by right.
Qed.

Lemma merge_same_as_total td r_uri props s :
  (∀ href, href ∈ td_rdf_sources td → ∃ g, load_graph env href = Ok g) →
  ∃ s', merge_same_as env td r_uri props s = (Ok tt, s').
Proof.
  unfold merge_same_as. generalize (td_rdf_sources td) as sources.
  intros sources. revert s.
  induction sources as [|href sources IH]; intros s Hall.
  - by exists s.
  - cbn [for_each]. unfold bind at 1. unfold bind at 1.
    unfold add_triple at 1, modify at 1. cbv beta iota.
    unfold bind at 1, lift_result at 1.
    destruct (Hall href) as [g ->]; [left|]. cbv beta iota.
    rewrite (for_each_ext g _
               (λ t, match same_as_copy env r_uri (URIRef href) props t with
                     | Some t' => add_triple t'
                     | None => ret tt
                     end)).
    2:{ intros [[s0 p0] o0] s1. unfold same_as_copy.
        repeat case_decide; try done. by destruct (is_BNode s0). }
    destruct (for_each_add (same_as_copy env r_uri (URIRef href) props) g
                (set_graph (graph_add (r_uri, OWL_sameAs, URIRef href)
                              (st_graph s)) s)) as (g' & -> & _).
    apply IH. intros h Hh. apply Hall. by right.
Qed.

(** C3. For a resource that declares no endpoint, [describe_resource]
    invokes no endpoint and answers with the default lifetime.  When
    the arguments decode, the registry knows the declared types and the
    same-as sources load, nothing raises; and when nothing raises the
    graph holds exactly the rewritten static statements, one type
    statement per supertype of each declared type, and the same-as
    statements. *)
Theorem no_endpoints_description (tid : string) (td : TD)
  (b64 : option string) (kwargs : list (string * string)) (draws : nat) :
  rdict eco !! tid = Some td →
  td_base td = [] →
  ∃ r s,
    describe_run env eco td tid b64 kwargs draws = (r, s)
    ∧ st_calls s = []
    ∧ (∀ d, describe_resource env eco tid b64 kwargs draws = Ok d →
            d_graph d = st_graph s
            ∧ d_cache_control d = cache_control default_ttl)
    ∧ ((∃ decoded, decode_request env b64 = Ok decoded) →
       (∀ t, t ∈ r_types (td_resource td) →
             ∃ ti, get_type env (type_n3 env (TypeTerm t)) = Ok ti) →
       (∀ href, href ∈ td_rdf_sources td →
                ∃ g, load_graph env href = Ok g) →
       r = Ok tt)
    ∧ (r = Ok tt →
       describe_resource env eco tid b64 kwargs draws
       = Ok (mkDescribed (st_graph s) (cache_control default_ttl) None)
       ∧ ∃ b64' args,
         decode_request env b64 = Ok (b64', args)
         ∧ let r_uri := request_uri env eco tid b64' kwargs in
           let types := r_types (td_resource td) in
           ∀ x, x ∈ st_graph s
                ↔ static_statement env eco td r_uri b64' args x
                  ∨ supertype_statement env types r_uri x
                  ∨ same_as_statement env (td_rdf_sources td)
                      (declared_property env types) r_uri x).
Proof.
  intros Htd Hbase. unfold describe_resource. rewrite Htd.
  destruct (describe_run env eco td tid b64 kwargs draws) as [r s] eqn:Hrun.
  exists r, s.
  assert (Hframe : st_ttl s = default_ttl ∧ st_calls s = []).
  { unfold describe_run in Hrun.
    assert (preserves (λ s, st_ttl s = default_ttl ∧ st_calls s = [])
              (describe_body env eco td tid b64 kwargs)) as Hpres.
    { unfold describe_body.
      apply preserves_bind; [apply preserves_lift_result|]. intros decoded.
      cbv zeta.
      apply preserves_bind; [by apply frame_copy_static|]. intros _.
      apply preserves_bind; [by apply frame_expand_types|]. intros props.
      apply preserves_bind; [by apply frame_merge_same_as|]. intros _.
      rewrite Hbase. apply preserves_ret. }
    specialize (Hpres (initial_state draws)). rewrite Hrun in Hpres.
    by apply Hpres. }
  destruct Hframe as [Httl Hcalls].
  split_and!; [done|done| | |].
  - intros d Hd. rewrite Httl in Hd. destruct r as [[]|e].
    + by injection Hd as <-.
    + destruct (is_Exception e); [by injection Hd as <-|done].
  - (* nothing raises *)
    intros [[b64' args] Hdec] Htypes Hsources.
    unfold describe_run, describe_body in Hrun.
    unfold bind at 1, lift_result at 1 in Hrun. rewrite Hdec in Hrun.
    cbv zeta in Hrun. cbn [fst snd] in Hrun.
    unfold bind at 1, copy_static in Hrun.
    destruct (for_each_add
                (rewrite_static env eco td
                   (request_uri env eco tid b64' kwargs) b64' args)
                (r_graph (td_resource td)) (initial_state draws))
      as (g1 & Hcopy & _).
    rewrite Hcopy in Hrun. unfold bind at 1 in Hrun.
    destruct (expand_types_total (request_uri env eco tid b64' kwargs)
                (r_types (td_resource td)) []
                (set_graph g1 (initial_state draws)) Htypes)
      as (props & s2 & Hexp).
    rewrite Hexp in Hrun. unfold bind at 1 in Hrun.
    destruct (merge_same_as_total td (request_uri env eco tid b64' kwargs)
                props s2 Hsources) as (s3 & Hsame).
    rewrite Hsame, Hbase in Hrun. unfold ret in Hrun. by injection Hrun as <-.
  - (* the graph *)
    intros ->. split; [by rewrite Httl|].
    unfold describe_run, describe_body in Hrun.
    unfold bind at 1, lift_result at 1 in Hrun.
    destruct (decode_request env b64) as [[b64' args]|] eqn:Hdec; [|done].
    exists b64', args. split; [done|]. cbv zeta in *. cbn [fst snd] in Hrun.
    unfold bind at 1, copy_static in Hrun.
    destruct (for_each_add
                (rewrite_static env eco td
                   (request_uri env eco tid b64' kwargs) b64' args)
                (r_graph (td_resource td)) (initial_state draws))
      as (g1 & Hcopy & Hg1).
    rewrite Hcopy in Hrun. unfold bind at 1 in Hrun.
    destruct (expand_types env (request_uri env eco tid b64' kwargs)
                (r_types (td_resource td)) []
                (set_graph g1 (initial_state draws)))
      as [[props|] s2] eqn:Hexp; [|done].
    apply expand_types_ok in Hexp as (Hs2 & Hprops & Hg2).
    unfold bind at 1 in Hrun.
    destruct (merge_same_as env td (request_uri env eco tid b64' kwargs)
                props s2) as [[[]|] s3] eqn:Hsame; [|done].
    apply merge_same_as_ok in Hsame as (Hs3 & Hg3).
    rewrite Hbase in Hrun. unfold ret in Hrun. injection Hrun as <-.
    intros x. rewrite Hg3, Hg2. simpl. rewrite Hg1. simpl.
    rewrite elem_of_nil.
    assert (same_as_statement env (td_rdf_sources td) (λ p, p ∈ props)
              (request_uri env eco tid b64' kwargs) x
            ↔ same_as_statement env (td_rdf_sources td)
                (declared_property env (r_types (td_resource td)))
                (request_uri env eco tid b64' kwargs) x) as ->.
    { unfold same_as_statement.
      assert (∀ p, p ∈ props
                   ↔ declared_property env (r_types (td_resource td)) p)
        as Hiff.
      { intros p. rewrite Hprops, elem_of_nil. naive_solver. }
      split; intros (h & Hh & [->|(g & s0 & p0 & o0 & ? & ? & Hp & ?)]);
        exists h; (split; [done|]); try (by left);
        right; exists g, s0, p0, o0; split_and!; try done; by apply Hiff. }
    unfold static_statement. naive_solver.
Qed.
End DescriptorProperties.

(* ================================================================== *)
(** * Properties of the enricher *)
(* ================================================================== *)

Lemma preserves_bind_strong {A B} (P : State → Prop) (c : M State A)
  (k : A → M State B) :
  preserves P c →
  (∀ a, (∃ s s', c s = (Ok a, s')) → preserves P (k a)) →
  preserves P (bind c k).
Proof.
  intros Hc Hk s Hs. unfold bind. specialize (Hc s Hs).
  destruct (c s) as [[a|e] s1] eqn:Hcs; simpl in *; [|done].
  apply Hk; [|done]. by exists s, s1.
Qed.

Section EnricherProperties.
Variable env : Env.

Section Field.
Variable active : list string.
Variable l0 : loc.
Variable k : string.
Variable v : val.
Variable c0 : option CtxEntry.
Hypothesis k_not_id : k ≠ "@id".
Hypothesis k_not_type : k ≠ "@type".
Hypothesis k_not_property :
  ∀ t ti, consulted env active t → get_type env t = Ok ti →
          k ∉ ti_properties ti.
Hypothesis k_not_short_type :
  ∀ t ti, consulted env active t → get_type env t = Ok ti →
          split_on ":" t !! 1%nat ≠ Some k.

Lemma kept_alloc o : preserves (field_kept l0 k v c0) (alloc o).
Proof.
  intros s [(kvs & Hl & Hk) Hc]. split; [|done].
  exists kvs. split; [|done]. simpl. by apply lookup_app_l_Some.
Qed.

Lemma kept_getitem md key : preserves (field_kept l0 k v c0) (getitem md key).
Proof. intros s Hs. unfold getitem. by repeat case_match. Qed.

Lemma kept_setitem md key x :
  key ≠ k → preserves (field_kept l0 k v c0) (setitem md key x).
Proof.
  intros Hne s [(kvs & Hl & Hk) Hc]. unfold setitem.
  destruct md as [| | | | |l]; try (by split; [exists kvs|]).
  simpl. destruct (st_heap s !! l) as [[d|xs|c]|] eqn:Hd;
    try (by split; [exists kvs|]).
  split; [|done]. simpl. destruct (decide (l = l0)) as [->|Hl0].
  - rewrite Hl in Hd. injection Hd as <-.
    exists (dict_set key x kvs). split.
    + apply list_lookup_insert_eq. by eapply lookup_lt_Some.
    + by rewrite assoc_dict_set_ne.
  - exists kvs. by rewrite list_lookup_insert_ne.
Qed.

Lemma kept_append lst x : preserves (field_kept l0 k v c0) (append lst x).
Proof.
  intros s [(kvs & Hl & Hk) Hc]. unfold append.
  destruct lst as [| | | | |l]; try (by split; [exists kvs|]).
  simpl. destruct (st_heap s !! l) as [[d|xs|c]|] eqn:Hd;
    try (by split; [exists kvs|]).
  split; [|done]. simpl. exists kvs. split; [|done].
  rewrite list_lookup_insert_ne; [done|]. intros ->. congruence.
Qed.

Lemma kept_ctx_set key e : key ≠ k → preserves (field_kept l0 k v c0) (ctx_set key e).
Proof.
  intros Hne s [Hf Hc]. split; [done|]. simpl.
  by rewrite lookup_insert_ne.
Qed.

Lemma kept_fresh_uuid : preserves (field_kept l0 k v c0) (fresh_uuid env).
Proof. by intros s Hs. Qed.

Lemma kept_call_provider f key vars kwargs :
  preserves (field_kept l0 k v c0) (call_provider env f key vars kwargs).
Proof. intros s Hs. unfold call_provider. by repeat case_match. Qed.

Lemma kept_property_entry pdict p_n3 x :
  preserves (field_kept l0 k v c0) (property_entry env pdict p_n3 x).
Proof. unfold property_entry. repeat preserves_step. Qed.

Lemma kept_enrich depth uri data types vars kwargs :
  (∀ t, t ∈ types → consulted env active (type_n3 env t)) →
  preserves (field_kept l0 k v c0) (enrich env depth uri data types vars kwargs).
Proof.
  revert uri data types vars kwargs.
  induction depth as [|d IH]; intros uri data types vars kwargs Htypes;
    cbn [enrich]; [apply preserves_raise|].
  apply preserves_bind; [by apply kept_setitem|]. intros _.
  apply preserves_bind; [apply kept_alloc|]. intros jt. cbv zeta.
  apply preserves_bind; [by apply kept_setitem|]. intros _.
  apply preserves_bind; [|intros _; apply preserves_ret].
  apply preserves_for_each. intros t Ht.
  apply preserves_bind_strong; [apply preserves_lift_result|].
  intros tinfo (s1 & s1' & Htinfo). unfold lift_result in Htinfo.
  injection Htinfo as Htinfo _.
  apply preserves_bind_strong; [by repeat preserves_step|].
  intros short_type (s2 & s2' & Hshort).
  assert (short_type ≠ k) as Hshort_ne.
  { intros ->. eapply (k_not_short_type (type_n3 env t));
      [by apply Htypes|done|].
    destruct (split_on ":" (type_n3 env t) !! 1%nat); [|done].
    unfold ret in Hshort. by injection Hshort as ->. }
  apply preserves_bind; [by apply kept_ctx_set|]. intros _.
  apply preserves_bind; [apply kept_append|]. intros _.
  apply preserves_bind; [apply preserves_gets|]. intros h.
  apply preserves_for_each. intros p_n3 _.
  destruct (decide (p_n3 ∈ ti_properties tinfo)) as [Hprop|];
    [|apply preserves_ret].
  assert (p_n3 ≠ k) as Hp_ne.
  { intros ->. by eapply (k_not_property (type_n3 env t));
      [apply Htypes| |]. }
  apply preserves_bind_strong; [apply preserves_lift_result|].
  intros pdict (s3 & s3' & Hpdict). unfold lift_result in Hpdict.
  injection Hpdict as Hpdict _.
  assert (∀ r, r ∈ TypeName <$> pi_range pdict →
               consulted env active (type_n3 env r)) as Hrange.
  { intros r (r0 & -> & Hr0)%list_elem_of_fmap. simpl.
    eapply consulted_range; [by apply Htypes|done..]. }
  apply preserves_bind; [apply kept_getitem|]. intros x.
  apply preserves_bind; [apply kept_property_entry|]. intros jp.
  apply preserves_bind; [by apply kept_ctx_set|]. intros _.
  apply preserves_bind; [apply kept_getitem|]. intros p_n3_data.
  apply preserves_bind; [apply preserves_gets|]. intros h1.
  destruct (obj_at h1 p_n3_data) as [[dd|xs|cc]|]; [| | |apply preserves_ret].
  - apply preserves_bind; [apply kept_fresh_uuid|]. intros u.
    apply preserves_bind; [by apply IH|]. intros sub.
    by apply kept_setitem.
  - destruct (forallb (is_callable h1) xs).
    + apply preserves_bind; [apply kept_alloc|]. intros l.
      apply preserves_bind; [|intros _; by apply kept_setitem].
      apply preserves_for_each. intros p_item _.
      apply preserves_bind; [apply kept_call_provider|]. intros r.
      apply preserves_for_each. intros y _. apply kept_append.
    + destruct (decide (pi_type pdict = "data")); [apply preserves_ret|].
      apply preserves_bind; [apply kept_alloc|]. intros l.
      apply preserves_bind; [by apply kept_setitem|]. intros _.
      apply preserves_for_each. intros y _.
      apply preserves_bind; [apply kept_fresh_uuid|]. intros u.
      apply preserves_bind; [by apply IH|]. intros sub.
      apply preserves_bind; [apply kept_getitem|]. intros cur.
      apply kept_append.
  - apply preserves_bind; [apply kept_call_provider|]. intros r.
    apply preserves_bind; [apply kept_alloc|]. intros l.
    by apply kept_setitem.
Qed.
End Field.

(** C8, as the code has it.  Take any dictionary of the tree and any of
    its fields whose key is neither ['@id'] nor ['@type'] and, for every
    type the call may look up (the active types and the ranges of their
    properties), is neither a declared property nor the short name of
    that type.  Whether [enrich] returns or raises, the field still
    holds the value it held, and the context has under that key what it
    had before the call. *)
Theorem enrich_keeps_other_fields (depth : nat) (uri : string) (data : val)
  (types : list TypeRef) (vars : list string) (kwargs : Args) (s : State)
  (l0 : loc) (kvs : list (string * val)) (k : string) (v : val) :
  k ≠ "@id" → k ≠ "@type" →
  (∀ t ti, consulted env (type_n3 env <$> types) t → get_type env t = Ok ti →
           (k ∉ ti_properties ti) ∧ split_on ":" t !! 1%nat ≠ Some k) →
  st_heap s !! l0 = Some (ODict kvs) →
  assoc k kvs = Some v →
  let s' := (enrich env depth uri data types vars kwargs s).2 in
  (∃ kvs', st_heap s' !! l0 = Some (ODict kvs') ∧ assoc k kvs' = Some v)
  ∧ st_ctx s' !! k = st_ctx s !! k.
Proof.
  intros Hid Htype Hk Hl Hv s'.
  apply (kept_enrich (type_n3 env <$> types) l0 k v (st_ctx s !! k));
    try done.
  - intros t ti Ht Hti. by apply (Hk t ti).
  - intros t ti Ht Hti. by apply (Hk t ti).
  - intros t Ht. apply consulted_active. by apply list_elem_of_fmap_2.
  - split; [by exists kvs|done].
Qed.
End EnricherProperties.

(* ================================================================== *)
(** * The properties on the small ecosystem *)
(* ================================================================== *)

(** The valve's open endpoint is composed with the endpoint of the
    sensor, its only predecessor. *)
Lemma compose_endpoints_spec_witness :
  (∀ t p, has_open_endpoint t →
          p ∈ eco_predecessors Demo.plant (td_id t) →
          ∃ pt, rdict Demo.plant !! p = Some pt
                ∧ Demo.rank (td_id pt) < Demo.rank (td_id t))
  ∧ Demo.rank (td_id Demo.valve) < 2
  ∧ compose_endpoints Demo.env Demo.plant 2 Demo.valve
    = Ok [mkEndpoint (Some "http://up/ok/valve") None 1].
Proof.
  assert (Hrank : ∀ t p, has_open_endpoint t →
            p ∈ eco_predecessors Demo.plant (td_id t) →
            ∃ pt, rdict Demo.plant !! p = Some pt
                  ∧ Demo.rank (td_id pt) < Demo.rank (td_id t)).
  { intros t p _.
    change (eco_predecessors Demo.plant (td_id t))
      with (if decide (td_id t = "valve") then ["sensor"] else []).
    unfold Demo.rank at 2.
    destruct (decide (td_id t = "valve")) as [Heq|Hne].
    - intros ->%list_elem_of_singleton.
      exists (Demo.sensor [Demo.e_ok]). split; [by vm_compute|].
      vm_compute. lia.
    - intros []%elem_of_nil. }
  assert (Hlt : Demo.rank (td_id Demo.valve) < 2) by (vm_compute; lia).
  split_and!; [exact Hrank|exact Hlt|].
  destruct (compose_endpoints_spec Demo.env Demo.plant Demo.rank 2 Demo.valve
              Hrank Hlt) as (es & Hes & _).
  rewrite Hes. by vm_compute.
Defined.

(** Two calls on the same document about the blank node [_:c14n0]: the
    first makes it the node [b0], the second the node [b1]. *)
Lemma ld_triples_blank_nodes_witness :
  let s1 := Demo.blank_document in
  let s1' := (ld_triples Demo.env (VRef 0) s1).2 in
  let s2 := set_graph [] s1' in
  let s2' := (ld_triples Demo.env (VRef 0) s2).2 in
  (∀ i j, uuid Demo.env i = uuid Demo.env j → i = j)
  ∧ ld_triples Demo.env (VRef 0) s1 = (Ok tt, s1')
  ∧ ld_triples Demo.env (VRef 0) s2 = (Ok tt, s2')
  ∧ (st_uuid s1' ≤ st_uuid s2)%nat
  ∧ st_graph s1' = [(BNode "b0", URIRef "ex:value",
                     Literal (LStr "21") (Some "xsd:string"))]
  ∧ st_graph s2' = [(BNode "b1", URIRef "ex:value",
                     Literal (LStr "21") (Some "xsd:string"))]
  ∧ ∃ ts1 ts2 (m1 m2 : gmap string string),
      normalize Demo.env (st_ctx s1) (st_heap s1) (VRef 0) = Ok ts1
      ∧ normalize Demo.env (st_ctx s2) (st_heap s2) (VRef 0) = Ok ts2
      ∧ (∀ t, t ∈ ts1 → is_Some (converted_triple Demo.env m1 t))
      ∧ (∀ t, t ∈ ts2 → is_Some (converted_triple Demo.env m2 t))
      ∧ (∀ x, x ∈ st_graph s1'
              ↔ x ∈ st_graph s1
                ∨ ∃ t, t ∈ ts1 ∧ converted_triple Demo.env m1 t = Some x)
      ∧ (∀ x, x ∈ st_graph s2'
              ↔ x ∈ st_graph s2
                ∨ ∃ t, t ∈ ts2 ∧ converted_triple Demo.env m2 t = Some x)
      ∧ (∀ b1 b2 u1 u2, m1 !! b1 = Some u1 → m2 !! b2 = Some u2 → u1 ≠ u2).
Proof.
  intros s1 s1' s2 s2'.
  assert (Hinj : ∀ i j, uuid Demo.env i = uuid Demo.env j → i = j).
  { intros i j Hij. simpl in Hij. injection Hij as Hij.
    by apply (inj pretty). }
  assert (H1 : ld_triples Demo.env (VRef 0) s1 = (Ok tt, s1'))
    by (by vm_compute).
  assert (H2 : ld_triples Demo.env (VRef 0) s2 = (Ok tt, s2'))
    by (by vm_compute).
  assert (Hle : (st_uuid s1' ≤ st_uuid s2)%nat) by (vm_compute; lia).
  split_and!; [exact Hinj|exact H1|exact H2|exact Hle
              |by vm_compute|by vm_compute|].
  exact (ld_triples_blank_nodes Demo.env (VRef 0) (VRef 0) s1 s1' s2 s2'
           Hinj H1 H2 Hle).
Defined.

(** On a host one hour east of UTC, the epoch as the number [0] and as an
    RFC-822 date. *)
Lemma datetime_forms_disagree_witness :
  float_of_string Demo.env "0" = Some (Binary64 0)
  ∧ float_micros Demo.env (Binary64 0) = Some (0 * 1000000)%Z
  ∧ float_of_string Demo.env Demo.epoch_rfc822 = None
  ∧ iso_parse_datetime Demo.env Demo.epoch_rfc822 = None
  ∧ rfc822_timestamp Demo.env Demo.epoch_rfc822 = Some 0%Z
  ∧ local_utcoffset Demo.env 0 = 3600%Z
  ∧ 3600%Z ≠ 0%Z
  ∧ parse_term Demo.env ∅ (datetime_literal "0") (initial_state 0)
    = (Ok (Literal (LDateTime (mkDateTime 0 None)) (Some XSD_dateTime), ∅),
       initial_state 0)
  ∧ parse_term Demo.env ∅ (datetime_literal Demo.epoch_rfc822)
      (initial_state 0)
    = (Ok (Literal (LDateTime (mkDateTime 3600000000 None))
             (Some XSD_dateTime), ∅),
       initial_state 0)
  ∧ ∃ d1 d2,
      parse_term Demo.env ∅ (datetime_literal "0") (initial_state 0)
        = (Ok (Literal (LDateTime d1) (Some XSD_dateTime), ∅), initial_state 0)
      ∧ parse_term Demo.env ∅ (datetime_literal Demo.epoch_rfc822)
          (initial_state 0)
        = (Ok (Literal (LDateTime d2) (Some XSD_dateTime), ∅), initial_state 0)
      ∧ (instant d2 - instant d1 = 3600 * 1000000)%Z
      ∧ d1 ≠ d2.
Proof.
  split_and!; try by vm_compute.
  exact (datetime_forms_disagree Demo.env "0" Demo.epoch_rfc822 (Binary64 0)
           0 3600 ∅ (initial_state 0)
           eq_refl eq_refl eq_refl eq_refl eq_refl eq_refl
           ltac:(discriminate)).
Defined.

(** The target holds [1] and [2] is written: the target becomes the list
    [[1, 2]]. *)
Lemma merge_target_spec_witness :
  let s := mkState [] default_ttl [] 0 [ODict [("ex:p", VInt 1)]] ∅ in
  let s' := mkState [] default_ttl [] 0
              [ODict [("ex:p", VRef 1)]; OList [VInt 1; VInt 2]] ∅ in
  st_heap s !! 0%nat = Some (ODict [("ex:p", VInt 1)])
  ∧ assoc "ex:p" [("ex:p", VInt 1)] = Some (VInt 1)
  ∧ merge_target Demo.env (VRef 0) "ex:p" (VInt 2) s = (Ok tt, s')
  ∧ ((py_eq Demo.env (recursion_limit Demo.env) (st_heap s) (VInt 1) (VInt 2)
      = Some true ∧ s' = s)
     ∨ (py_eq Demo.env (recursion_limit Demo.env) (st_heap s) (VInt 1) (VInt 2)
        = Some false
        ∧ ∃ lst kvs' present,
            let es := entries (st_heap s) (VInt 1) in
            let h1 := <[lst := OList es]> (st_heap s') in
            st_heap s' !! (0%nat) = Some (ODict kvs')
            ∧ assoc "ex:p" kvs' = Some (VRef lst)
            ∧ py_in Demo.env h1 (VInt 2) es = Some present
            ∧ st_heap s' !! lst
              = Some (OList (if present then es else es ++ [VInt 2]))
            ∧ (pairwise_distinct Demo.env h1 es →
               pairwise_distinct Demo.env h1
                 (if present then es else es ++ [VInt 2])))).
Proof.
  intros s s'.
  assert (Hl : st_heap s !! 0%nat = Some (ODict [("ex:p", VInt 1)]))
    by reflexivity.
  assert (Hk : assoc "ex:p" [("ex:p", VInt 1)] = Some (VInt 1))
    by reflexivity.
  assert (Hrun : merge_target Demo.env (VRef 0) "ex:p" (VInt 2) s = (Ok tt, s'))
    by (by vm_compute).
  split_and!; [exact Hl|exact Hk|exact Hrun|].
  exact (merge_target_spec Demo.env 0 [("ex:p", VInt 1)] "ex:p" (VInt 2)
           (VInt 1) s s' Hl Hk Hrun).
Defined.

(** C5 as stated fails.  The fields [a] and [b] are both mapped onto
    [ex:p]; [a] holds [[1, 1]] and [b] holds [1].  The value of [b] is in
    the list already and is not added, and the target keeps the two equal
    entries it took from [a]. *)
Lemma mapping_keeps_duplicates :
  let mappings := [mkMapping "a" (URIRef "ex:p") None false None;
                   mkMapping "b" (URIRef "ex:p") None false None] in
  let document := JObj [("a", JArr [JInt 1; JInt 1]); ("b", JInt 1)] in
  let run := (data <~ load document ;;
              mapped <~ apply_mappings Demo.env data mappings ;;
              target <~ getitem mapped "ex:p" ;;
              gets (λ s, entries (st_heap s) target)) (initial_state 0) in
  run.1 = Ok [VInt 1; VInt 1] ∧ ¬ NoDup [VInt 1; VInt 1].
Proof.
  split; [by vm_compute|].
  intros Hnd. apply NoDup_cons in Hnd as [Hin _]. apply Hin. left.
Qed.

(** The field [other] is no property of [ex:Sensor]: it keeps its value
    and gets no context entry. *)
Lemma enrich_keeps_other_fields_witness :
  let document := JObj [("ex:value", JStr "21"); ("other", JInt 3)] in
  let s := (load document (initial_state 0)).2 in
  let types := [TypeTerm (URIRef "ex:Sensor")] in
  let s' := (enrich Demo.env 100 "http://gw/sensor" (VRef 0) types [] [] s).2 in
  "other" ≠ "@id" ∧ "other" ≠ "@type"
  ∧ (∀ t ti, consulted Demo.env (type_n3 Demo.env <$> types) t →
             get_type Demo.env t = Ok ti →
             ("other" ∉ ti_properties ti)
             ∧ split_on ":" t !! 1%nat ≠ Some "other")
  ∧ st_heap s !! 0%nat
    = Some (ODict [("ex:value", VStr "21"); ("other", VInt 3)])
  ∧ assoc "other" [("ex:value", VStr "21"); ("other", VInt 3)]
    = Some (VInt 3)
  ∧ (∃ kvs', st_heap s' !! 0%nat = Some (ODict kvs')
             ∧ assoc "other" kvs' = Some (VInt 3))
  ∧ st_ctx s' !! "other" = st_ctx s !! "other".
Proof.
  intros document s types s'.
  assert (Hk : ∀ t ti, consulted Demo.env (type_n3 Demo.env <$> types) t →
             get_type Demo.env t = Ok ti →
             ("other" ∉ ti_properties ti)
             ∧ split_on ":" t !! 1%nat ≠ Some "other").
  { intros t ti _ Hget. simpl in Hget. unfold Demo.registry_type in Hget.
    destruct (decide (t = "ex:Sensor")) as [->|]; [|done].
    injection Hget as <-. split; [|by vm_compute].
    simpl. by intros [=]%list_elem_of_singleton. }
  assert (Hl : st_heap s !! 0%nat
               = Some (ODict [("ex:value", VStr "21"); ("other", VInt 3)]))
    by reflexivity.
  assert (Hv : assoc "other" [("ex:value", VStr "21"); ("other", VInt 3)]
               = Some (VInt 3)) by reflexivity.
  split_and!; [done|done|exact Hk|exact Hl|exact Hv|..];
    apply (enrich_keeps_other_fields Demo.env 100 "http://gw/sensor" (VRef 0)
             types [] [] s 0 _ "other" (VInt 3)
             ltac:(done) ltac:(done) Hk Hl Hv).
Defined.

(** C8 as stated fails.  The upstream document has a field ['@id'], which
    is no declared property of [ex:Sensor]; [enrich] replaces its value
    with the URI of the resource. *)
Lemma enrich_overwrites_id :
  let document := JObj [("@id", JStr "urn:upstream:42");
                        ("ex:value", JStr "21")] in
  let s := (load document (initial_state 0)).2 in
  let types := [TypeTerm (URIRef "ex:Sensor")] in
  let s' := (enrich Demo.env 100 "http://gw/sensor" (VRef 0) types [] [] s).2 in
  get_type Demo.env "ex:Sensor" = Ok (mkTypeInfo ["ex:value"] ["ex:Device"])
  ∧ ("@id" ∉ ["ex:value"])
  ∧ (getitem (VRef 0) "@id" s).1 = Ok (VStr "urn:upstream:42")
  ∧ (getitem (VRef 0) "@id" s').1 = Ok (VStr "http://gw/sensor")
  ∧ VStr "urn:upstream:42" ≠ VStr "http://gw/sensor".
Proof.
  split_and!; try by vm_compute.
  by intros [=]%list_elem_of_singleton.
Qed.

(** The first endpoint answers 503 and is skipped; the second is invoked
    from the same graph and lifetime. *)
Lemma non_success_skipped_witness :
  let td := Demo.sensor [Demo.e_down; Demo.e_ok] in
  let r_uri := URIRef "http://gw/sensor" in
  let s := initial_state 0 in
  let logged :=
    set_calls (st_calls s ++ [(Demo.e_down, Ok Demo.down_response)]) s in
  invoke_chain Demo.env td r_uri [] [] s = (Ok tt, s)
  ∧ invoke Demo.env Demo.e_down (st_graph s) r_uri [] = Ok Demo.down_response
  ∧ status_code Demo.down_response ≠ 200%Z
  ∧ st_graph (invoke_chain Demo.env td r_uri []
                ([] ++ Demo.e_down :: [Demo.e_ok]) s).2
    = [Demo.value_statement]
  ∧ st_calls (invoke_chain Demo.env td r_uri []
                ([] ++ Demo.e_down :: [Demo.e_ok]) s).2
    = [(Demo.e_down, Ok Demo.down_response); (Demo.e_ok, Ok Demo.ok_response)]
  ∧ invoke_chain Demo.env td r_uri [] ([] ++ Demo.e_down :: [Demo.e_ok]) s
    = invoke_chain Demo.env td r_uri [] [Demo.e_ok] logged
  ∧ st_graph logged = st_graph s
  ∧ st_ttl logged = st_ttl s
  ∧ (∀ s', invoke_chain Demo.env td r_uri [] [Demo.e_ok] logged = (Ok tt, s') →
           ∃ new, st_calls s'
                  = st_calls s ++ (Demo.e_down, Ok Demo.down_response) :: new
                  ∧ new.*1 = [Demo.e_ok]
                  ∧ st_ttl s' = lifetime_after (st_ttl s) new)
  ∧ ∀ before e' after sa sb,
      [Demo.e_ok] = before ++ e' :: after →
      invoke_chain Demo.env td r_uri [] before logged = (Ok tt, sa) →
      call_endpoint Demo.env td r_uri [] e' sa = (Ok tt, sb) →
      ∀ x, x ∈ st_graph sb →
           x ∈ st_graph (invoke_chain Demo.env td r_uri [] [Demo.e_ok]
                           logged).2.
Proof.
  intros td r_uri s logged.
  assert (H1 : invoke_chain Demo.env td r_uri [] [] s = (Ok tt, s))
    by reflexivity.
  assert (H2 : invoke Demo.env Demo.e_down (st_graph s) r_uri []
               = Ok Demo.down_response) by reflexivity.
  assert (H3 : status_code Demo.down_response ≠ 200%Z) by done.
  split_and!; [exact H1|exact H2|exact H3|by vm_compute|by vm_compute|..];
    apply (non_success_skipped Demo.env td r_uri [] [] [Demo.e_ok]
             Demo.e_down s s Demo.down_response H1 H2 H3).
Defined.

(** C1 as stated fails.  The first endpoint of the chain raises and the
    second would answer 200: the second is never invoked and the
    statement it contributes is not in the returned graph. *)
Lemma raising_endpoint_ends_chain :
  let base := [Demo.e_boom; Demo.e_ok] in
  let eco := Demo.ecosystem base in
  let run := describe_run Demo.env eco (Demo.sensor base) "sensor" None [] 0 in
  (∀ g u a, invoke Demo.env Demo.e_boom g u a
            = Raise (ExternalError "connection refused"))
  ∧ (∀ g u a, invoke Demo.env Demo.e_ok g u a = Ok Demo.ok_response)
  ∧ status_code Demo.ok_response = 200%Z
  ∧ compose_endpoints Demo.env eco 100 (Demo.sensor base)
    = Ok [Demo.e_boom; Demo.e_ok]
  ∧ sorted_by_order [Demo.e_boom; Demo.e_ok] = [Demo.e_boom; Demo.e_ok]
  ∧ run.1 = Raise (ExternalError "connection refused")
  ∧ st_calls run.2
    = [(Demo.e_boom, Raise (ExternalError "connection refused"))]
  ∧ (Demo.e_ok ∉ (st_calls run.2).*1)
  ∧ (Demo.value_statement ∉ st_graph run.2)
  ∧ (Demo.value_statement
       ∈ (describe_run Demo.env (Demo.ecosystem [Demo.e_ok])
            (Demo.sensor [Demo.e_ok]) "sensor" None [] 0).2.(st_graph)).
Proof.
  intros base eco run.
  split_and!; try done; try by vm_compute.
  - vm_compute. by intros [=]%list_elem_of_singleton.
  - vm_compute. intros Hin. repeat apply elem_of_cons in Hin as [[=]|Hin].
    by apply elem_of_nil in Hin.
  - vm_compute. do 2 right. left.
Qed.

(** The sensor with one endpoint that answers and a later one that
    raises: the call returns, with the error logged. *)
Lemma describe_resource_catches_witness :
  let base := [Demo.e_ok; Demo.e_late] in
  let eco := Demo.ecosystem base in
  rdict eco !! "sensor" = Some (Demo.sensor base)
  ∧ ∃ r s,
      describe_run Demo.env eco (Demo.sensor base) "sensor" None [] 0 = (r, s)
      ∧ ((∀ e, r = Raise e → is_Exception e = true) →
         describe_resource Demo.env eco "sensor" None [] 0
         = Ok (mkDescribed (st_graph s) (cache_control (st_ttl s))
                 (match r with Raise e => Some e | Ok _ => None end)))
      ∧ (st_ttl s ≤ default_ttl)%Z
      ∧ (no_success s → st_ttl s = default_ttl).
Proof.
  intros base eco.
  assert (Htd : rdict eco !! "sensor" = Some (Demo.sensor base))
    by (by vm_compute).
  split; [exact Htd|].
  exact (describe_resource_catches Demo.env eco "sensor" (Demo.sensor base)
           None [] 0 Htd).
Defined.

(** C2 as stated fails.  The first endpoint answers 200 with a freshness
    hint of 60 seconds, the second raises: the error is caught, but the
    cache directive carries 60 seconds and not the default lifetime. *)
Lemma raise_after_success_keeps_hint :
  let base := [Demo.e_ok; Demo.e_late] in
  let described :=
    describe_resource Demo.env (Demo.ecosystem base) "sensor" None [] 0 in
  ttl_hint Demo.ok_response = Some 60%Z
  ∧ described
    = Ok (mkDescribed
            [(URIRef "http://gw/sensor", RDF_type, URIRef "ex:Sensor");
             (URIRef "http://gw/sensor", RDF_type, URIRef "ex:Device");
             Demo.value_statement]
            "max-age=60"
            (Some (ExternalError "connection refused")))
  ∧ cache_control default_ttl = "max-age=100000"
  ∧ "max-age=60" ≠ cache_control default_ttl.
Proof. split_and!; by vm_compute. Qed.

(** The sensor without endpoints. *)
Lemma no_endpoints_description_witness :
  let eco := Demo.ecosystem [] in
  let td := Demo.sensor [] in
  rdict eco !! "sensor" = Some td
  ∧ td_base td = []
  ∧ describe_resource Demo.env eco "sensor" None [] 0
    = Ok (mkDescribed
            [(URIRef "http://gw/sensor", RDF_type, URIRef "ex:Sensor");
             (URIRef "http://gw/sensor", RDF_type, URIRef "ex:Device")]
            "max-age=100000" None)
  ∧ ∃ r s,
      describe_run Demo.env eco td "sensor" None [] 0 = (r, s)
      ∧ st_calls s = []
      ∧ (∀ d, describe_resource Demo.env eco "sensor" None [] 0 = Ok d →
              d_graph d = st_graph s
              ∧ d_cache_control d = cache_control default_ttl)
      ∧ ((∃ decoded, decode_request Demo.env None = Ok decoded) →
         (∀ t, t ∈ r_types (td_resource td) →
               ∃ ti, get_type Demo.env (type_n3 Demo.env (TypeTerm t)) = Ok ti) →
         (∀ href, href ∈ td_rdf_sources td →
                  ∃ g, load_graph Demo.env href = Ok g) →
         r = Ok tt)
      ∧ (r = Ok tt →
         describe_resource Demo.env eco "sensor" None [] 0
         = Ok (mkDescribed (st_graph s) (cache_control default_ttl) None)
         ∧ ∃ b64' args,
           decode_request Demo.env None = Ok (b64', args)
           ∧ let r_uri := request_uri Demo.env eco "sensor" b64' [] in
             let types := r_types (td_resource td) in
             ∀ x, x ∈ st_graph s
                  ↔ static_statement Demo.env eco td r_uri b64' args x
                    ∨ supertype_statement Demo.env types r_uri x
                    ∨ same_as_statement Demo.env (td_rdf_sources td)
                        (declared_property Demo.env types) r_uri x).
Proof.
  intros eco td.
  assert (Htd : rdict eco !! "sensor" = Some td) by (by vm_compute).
  assert (Hbase : td_base td = []) by reflexivity.
  split_and!; [exact Htd|exact Hbase|by vm_compute|].
  exact (no_endpoints_description Demo.env eco "sensor" td None [] 0
           Htd Hbase).
Defined.

(* ================================================================== *)
(** * The tables of the proxy *)
(* ================================================================== *)

Section TableProperties.
Variable env : Env.
Variable eco : Ecosystem.

Lemma last_filter_snoc {A} (P : A → Prop) `{∀ x, Decision (P x)}
  (l : list A) (x : A) :
  last (filter P (l ++ [x]))
  = if decide (P x) then Some x else last (filter P l).
Proof.
  rewrite filter_app, filter_cons, filter_nil.
  destruct (decide (P x)); [apply last_snoc|by rewrite app_nil_r].
Qed.

Lemma rdict_is_Some (id : string) :
  is_Some (rdict eco !! id) ↔ id ∈ td_id <$> eco_tds eco.
Proof.
  unfold rdict. induction (eco_tds eco) as [|td tds IH] using rev_ind.
  - simpl. rewrite lookup_empty, elem_of_nil. split; [by intros []|done].
  - rewrite foldl_app, fmap_app, elem_of_app. simpl.
    rewrite list_elem_of_singleton.
    destruct (decide (td_id td = id)) as [->|Hne].
    + rewrite lookup_insert_eq. split; [by right|by eexists].
    + rewrite lookup_insert_ne by done. rewrite IH. naive_solver.
Qed.

Lemma ndict_lookup (node : Term) :
  ndict eco !! node
  = td_id <$> last (filter (λ t, r_node (td_resource t) = node)
                      (eco_tds eco)).
Proof.
  unfold ndict. induction (eco_tds eco) as [|td tds IH] using rev_ind.
  - simpl. by rewrite lookup_empty.
  - rewrite foldl_app, last_filter_snoc. simpl.
    destruct (decide (r_node (td_resource td) = node)) as [->|Hne].
    + by rewrite lookup_insert_eq.
    + by rewrite lookup_insert_ne.
Qed.

(** X1. The table of thing descriptions built by the constructor
    answers, for an id, with the last thing description of the
    ecosystem that has this id: a later one replaces an earlier one,
    and an id that no thing description has is not in the table. *)
Theorem rdict_lookup (id : string) :
  rdict eco !! id = last (filter (λ t, td_id t = id) (eco_tds eco)).
Proof.
  unfold rdict. induction (eco_tds eco) as [|td tds IH] using rev_ind.
  - simpl. by rewrite lookup_empty.
  - rewrite foldl_app, last_filter_snoc. simpl.
    destruct (decide (td_id td = id)) as [->|Hne].
    + by rewrite lookup_insert_eq.
    + by rewrite lookup_insert_ne.
Qed.

(** X2. [describe_resource] raises [KeyError] exactly for an id that
    no thing description of the ecosystem has: the lookup precedes the
    [try], so the error reaches the caller. *)
Theorem describe_resource_unknown (tid : string) (b64 : option string)
  (kwargs : list (string * string)) (draws : nat) :
  describe_resource env eco tid b64 kwargs draws = Raise KeyError
  ↔ tid ∉ td_id <$> eco_tds eco.
Proof.
  rewrite <- rdict_is_Some. unfold describe_resource.
  destruct (rdict eco !! tid) as [td|] eqn:Htd.
  - split; [|by intros []].
    destruct (describe_run env eco td tid b64 kwargs draws) as [[[]|e] s];
      [done|].
    destruct (is_Exception e) eqn:He; [done|]. by intros [= ->].
  - split; [by intros _ []|done].
Qed.

(** X3. For a thing description of the ecosystem whose graph node is
    a blank node, [url_for] of the node is [url_for] of the id,
    provided the thing descriptions with this node agree on the id. *)
Theorem url_for_node (td : TD) (b64 : option string) (kwargs : Args) :
  td ∈ eco_tds eco →
  is_BNode (r_node (td_resource td)) = true →
  (∀ td', td' ∈ eco_tds eco →
          r_node (td_resource td') = r_node (td_resource td) →
          td_id td' = td_id td) →
  url_for env eco (TidNode (r_node (td_resource td))) b64 kwargs
  = url_for env eco (TidId (td_id td)) b64 kwargs.
Proof.
  intros Hin Hblank Hid. unfold url_for. rewrite Hblank, ndict_lookup.
  destruct (last (filter (λ t, r_node (td_resource t)
                               = r_node (td_resource td)) (eco_tds eco)))
    as [td'|] eqn:Hlast; simpl.
  - apply last_Some_elem_of, list_elem_of_filter in Hlast as [Hnode Hin'].
    by rewrite (Hid td' Hin' Hnode).
  - apply last_None in Hlast.
    assert (td ∈ filter (λ t, r_node (td_resource t)
                              = r_node (td_resource td)) (eco_tds eco))
      as Htd by (by apply list_elem_of_filter).
    rewrite Hlast in Htd. by apply elem_of_nil in Htd.
Qed.
End TableProperties.

(* ================================================================== *)
(** * More on the seed registry *)
(* ================================================================== *)

Section SeedAgain.
Variable env : Env.
Variable eco : Ecosystem.

Lemma add_types_present (uri : Term) (types : list Term) (s : Seeds) :
  (∀ t, t ∈ types → (uri, n3 env t) ∈ s) →
  foldl (λ s t, seeds_add (uri, n3 env t) s) s types = s.
Proof.
  induction types as [|t types IH]; intros Hin; simpl; [done|].
  unfold seeds_add at 2. rewrite decide_True by (apply Hin; left).
  apply IH. intros t' Ht'. apply Hin. by right.
Qed.

(** X4. [instantiate_seed] is idempotent: a second call with the same
    root and the same arguments returns the same URI and leaves the
    seed set exactly as the first call left it. *)
Theorem instantiate_seed_twice (root : TD) (kwargs : Args) (seeds : Seeds) :
  let once := instantiate_seed env eco root kwargs seeds in
  instantiate_seed env eco root kwargs once.2 = once.
Proof.
  unfold instantiate_seed.
  destruct (decide (RootTD root ∈ eco_roots eco)); simpl; [|done].
  f_equal. apply add_types_present. intros t Ht.
  apply elem_of_add_types. right. by exists t.
Qed.

(** X5. Right after the proxy is built, [instantiate_seed] without
    arguments of a root thing description that has no variables
    returns its URI and adds nothing: the constructor has recorded
    these seeds already. *)
Theorem instantiate_seed_after_init (root : TD) :
  RootTD root ∈ eco_roots eco →
  td_vars root = [] →
  instantiate_seed env eco root [] (init_seeds env eco)
  = (Some (URIRef (url_for env eco (TidId (td_id root)) None [])),
     init_seeds env eco).
Proof.
  intros Hroot Hvars. unfold instantiate_seed.
  rewrite decide_True by done. f_equal.
  apply add_types_present. intros t Ht.
  unfold init_seeds. apply init_seeds_from. right.
  exists (RootTD root). split; [done|]. simpl. rewrite Hvars.
  apply list_elem_of_fmap. by exists t.
Qed.
End SeedAgain.

Section SeedResetProperties.
Context {F : Type}.
Variable schema_n3 : Term → string.
Variable delete_type_seeds : string → M F unit.
Variable eco : Ecosystem.

Lemma for_each_nested {S A B} (xs : list A) (inner : A → list B)
  (body : B → M S unit) (s : S) :
  for_each xs (λ x, for_each (inner x) body) s
  = for_each (mjoin (inner <$> xs)) body s.
Proof.
  revert s. induction xs as [|x xs IH]; intros s; [done|].
  cbn [for_each fmap list_fmap mjoin list_join].
  rewrite for_each_app. unfold bind.
  destruct (for_each (inner x) body s) as [[[]|e] s1]; [apply IH|done].
Qed.

(** X6. [clear_seeds] leaves the seed set of the proxy empty whether
    the fountain raises or not.  It asks the fountain to delete the
    seeds of every declared type of every root, in order, the thing
    descriptions with variables included, and stops at the first
    deletion that raises. *)
Theorem clear_seeds_spec (seeds : Seeds) (f : F) :
  let types :=
    mjoin ((λ root, r_types (root_resource root)) <$> eco_roots eco) in
  let deleted :=
    for_each (schema_n3 <$> types) delete_type_seeds f in
  clear_seeds schema_n3 delete_type_seeds eco (seeds, f)
  = (deleted.1, ([], deleted.2)).
Proof.
  intros types deleted. unfold clear_seeds. cbn [snd].
  rewrite (for_each_nested (eco_roots eco)
             (λ root, r_types (root_resource root))
             (λ t, delete_type_seeds (schema_n3 t))).
  fold types.
  assert (Hmap : ∀ (ts : list Term) f0,
             for_each ts (λ t, delete_type_seeds (schema_n3 t)) f0
             = for_each (schema_n3 <$> ts) delete_type_seeds f0).
  { induction ts as [|t ts IH]; intros f0; [done|].
    cbn [for_each fmap list_fmap]. unfold bind.
    destruct (delete_type_seeds (schema_n3 t) f0) as [[[]|e] f1];
      [apply IH|done]. }
  rewrite Hmap. fold deleted. by destruct deleted.
Qed.
End SeedResetProperties.

(* ================================================================== *)
(** * More on the endpoint composer *)
(* ================================================================== *)

Section ComposerEdges.
Variable env : Env.
Variable eco : Ecosystem.

Lemma concat_results_raise {A B} (f : A → Result (list B)) (l : list A)
  (x : A) (e : exn) :
  x ∈ l → f x = Raise e → ∃ e', concat_results (f <$> l) = Raise e'.
Proof.
  intros Hx Hfx. induction l as [|y l IH]; [by apply elem_of_nil in Hx|].
  rewrite fmap_cons, concat_results_cons.
  apply elem_of_cons in Hx as [<-|Hx].
  - rewrite Hfx. eauto.
  - destruct (IH Hx) as [e' ->]. destruct (f y); eauto.
Qed.

(** X7. When the resource has no predecessor in the network, or no
    endpoint without an address, [compose_endpoints] yields exactly
    its endpoints that carry an address, in the declared order: an
    endpoint without an address and without a predecessor to compose
    it through is dropped. *)
Theorem compose_endpoints_direct (depth : nat) (td : TD) :
  (has_open_endpoint td → eco_predecessors eco (td_id td) = []) →
  compose_endpoints env eco (S depth) td
  = Ok (filter has_address (td_base td)).
Proof.
  intros Hpred. rewrite compose_endpoints_unfold.
  assert (Hall : ∀ b, b ∈ td_base td → e_href b = None →
                      eco_predecessors eco (td_id td) = []).
  { intros b Hb Hh. apply Hpred. by exists b. }
  clear Hpred. induction (td_base td) as [|b bs IH]; [done|].
  rewrite fmap_cons, concat_results_cons, filter_cons.
  rewrite IH by (intros b' Hb'; apply Hall; by right).
  pose proof (Hall b (list_elem_of_here _ _)) as Hb.
  destruct (e_href b) as [h|] eqn:Hh.
  - rewrite decide_True; [done|]. unfold has_address. by rewrite Hh.
  - rewrite Hb by done. simpl.
    rewrite decide_False; [done|]. unfold has_address. rewrite Hh.
    by intros [].
Qed.

(** X8. On a set of thing descriptions in which each one has an
    endpoint composed through another one of the set (a cycle of the
    network, for instance), [compose_endpoints] yields no list of
    endpoints, however deep the interpreter lets the calls nest: it
    raises. *)
Theorem compose_endpoints_cycle (C : TD → Prop) (depth : nat) (td : TD) :
  (∀ a, C a → ∃ b, C b ∧ composed_through eco a b) →
  C td →
  ∃ e, compose_endpoints env eco depth td = Raise e.
Proof.
  intros Hcycle. revert td.
  induction depth as [|d IH]; intros td Htd; [by exists RuntimeError|].
  destruct (Hcycle td Htd) as (b & Hb & (base_e & Hbase & Hopen) & Hpred & Hknown).
  destruct (IH b Hb) as [e He].
  rewrite compose_endpoints_unfold.
  assert (∃ e', concat_results
                  ((λ pred,
                      match rdict eco !! pred with
                      | None => Raise KeyError
                      | Some pred_thing =>
                          match compose_endpoints env eco d pred_thing with
                          | Ok pes =>
                              Ok ((λ pred_e,
                                     endpoint_add env pred_e base_e) <$> pes)
                          | Raise e => Raise e
                          end
                      end) <$> eco_predecessors eco (td_id td))
                = Raise e') as [e' He'].
  { eapply concat_results_raise; [exact Hpred|].
    cbv beta. by rewrite Hknown, He. }
  eapply concat_results_raise; [exact Hbase|].
  cbv beta. rewrite Hopen. exact He'.
Qed.

(** X9. When the resource has an endpoint without an address and one
    of its predecessors in the network is no thing description of the
    ecosystem, [compose_endpoints] raises. *)
Theorem compose_endpoints_unknown_predecessor (depth : nat) (td : TD)
  (pred : string) :
  has_open_endpoint td →
  pred ∈ eco_predecessors eco (td_id td) →
  pred ∉ td_id <$> eco_tds eco →
  ∃ e, compose_endpoints env eco depth td = Raise e.
Proof.
  intros (base_e & Hbase & Hopen) Hpred Hunknown.
  destruct depth as [|d]; [by exists RuntimeError|].
  rewrite compose_endpoints_unfold.
  assert (rdict eco !! pred = None) as Hnone.
  { apply eq_None_not_Some. by rewrite rdict_is_Some. }
  assert (∃ e', concat_results
                  ((λ pred,
                      match rdict eco !! pred with
                      | None => Raise KeyError
                      | Some pred_thing =>
                          match compose_endpoints env eco d pred_thing with
                          | Ok pes =>
                              Ok ((λ pred_e,
                                     endpoint_add env pred_e base_e) <$> pes)
                          | Raise e => Raise e
                          end
                      end) <$> eco_predecessors eco (td_id td))
                = Raise e') as [e' He'].
  { eapply concat_results_raise; [exact Hpred|].
    cbv beta. by rewrite Hnone. }
  eapply concat_results_raise; [exact Hbase|].
  cbv beta. rewrite Hopen. exact He'.
Qed.
End ComposerEdges.

(* ================================================================== *)
(** * More on the resource descriptor *)
(* ================================================================== *)

(** ** The order of the endpoints *)

Lemma insert_by_order_perm (e : Endpoint) (es : list Endpoint) :
  insert_by_order e es ≡ₚ e :: es.
Proof.
  induction es as [|e' es IH]; simpl; [done|].
  case_decide; [done|]. rewrite IH. apply Permutation_swap.
Qed.

Lemma insert_by_order_sorted (e : Endpoint) (es : list Endpoint) :
  Sorted by_order es → Sorted by_order (insert_by_order e es).
Proof.
  induction es as [|e' es IH]; intros Hs; simpl.
  - by repeat constructor.
  - case_decide as Hle.
    + constructor; [done|]. by constructor.
    + apply Sorted_inv in Hs as [Hs Hhd]. constructor; [by apply IH|].
      destruct es as [|e'' es]; simpl.
      * constructor. unfold by_order. lia.
      * case_decide; constructor; [unfold by_order; lia|].
        by apply HdRel_inv in Hhd.
Qed.

Lemma insert_by_order_filter (o : Z) (e : Endpoint) (es : list Endpoint) :
  filter (λ x, e_order x = o) (insert_by_order e es)
  = filter (λ x, e_order x = o) (e :: es).
Proof.
  induction es as [|e' es IH]; simpl; [done|].
  case_decide as Hle; [done|].
  rewrite filter_cons, IH, !filter_cons.
  repeat case_decide; try done; lia.
Qed.

Section DescriptorEdges.
Variable env : Env.
Variable eco : Ecosystem.

(** X10. When the argument payload does not decode (the decoding
    raises an [Exception]), [describe_resource] of a resource of the
    ecosystem hands back an empty graph with the default lifetime:
    not even the static triples are copied. *)
Theorem describe_resource_bad_payload (tid : string) (td : TD)
  (b : string) (kwargs : list (string * string)) (draws : nat) (e : exn) :
  rdict eco !! tid = Some td →
  decode_args env (unquote_padding b) = Raise e →
  is_Exception e = true →
  describe_resource env eco tid (Some b) kwargs draws
  = Ok (mkDescribed [] (cache_control default_ttl) (Some e)).
Proof.
  intros Htd Hdec He. unfold describe_resource. rewrite Htd.
  unfold describe_run, describe_body, bind, lift_result, decode_request.
  rewrite Hdec. cbn. by rewrite He.
Qed.

(** X11. The copy of the static triples never adds a triple whose
    subject or object is a blank node that stands for a thing
    description of the ecosystem: such an object is replaced by the
    URL of the thing, and a triple with such a subject is left
    out. *)
Theorem copy_static_hides_nodes (td : TD) (r_uri : Term)
  (b64 : option string) (args : Args) (s : State) (x : Triple) :
  x ∈ st_graph (copy_static env eco td r_uri b64 args s).2 →
  ¬ names_thing eco r_uri →
  x ∈ st_graph s ∨ (¬ names_thing eco x.1.1 ∧ ¬ names_thing eco x.2).
Proof.
  intros Hx Huri. unfold copy_static in Hx.
  destruct (for_each_add (rewrite_static env eco td r_uri b64 args)
              (r_graph (td_resource td)) s) as (g & Hrun & Hg).
  rewrite Hrun in Hx. simpl in Hx. apply Hg in Hx as [?|(t & _ & Ht)];
    [by left|right].
  destruct t as [[s0 p0] o0]. unfold rewrite_static in Ht.
  destruct (is_BNode (if decide (s0 = r_node (td_resource td))
                      then r_uri else s0)
            && bool_decide (is_Some (ndict eco !!
                 (if decide (s0 = r_node (td_resource td))
                  then r_uri else s0)))) eqn:Hguard; [done|].
  injection Ht as <-. simpl. split.
  - intros [Hb Hn]. rewrite Hb in Hguard. simpl in Hguard.
    by apply bool_decide_eq_false in Hguard.
  - intros [Hb Hn]. destruct o0 as [u|bid|v dt]; [done| |].
    + destruct (ndict eco !! BNode bid) eqn:Hnd; [done|].
      rewrite Hnd in Hn. by destruct Hn.
    + by destruct (assoc (lit_str env v) args).
Qed.

(** X12. As soon as the argument payload decodes, every static triple
    of the resource is in the graph that [describe_resource] works
    on at the end, in its rewritten form, whether a later step of the
    pipeline raises or not. *)
Theorem static_statements_survive (td : TD) (tid : string)
  (b64 b64' : option string) (args : Args)
  (kwargs : list (string * string)) (draws : nat) (t x : Triple) :
  decode_request env b64 = Ok (b64', args) →
  t ∈ r_graph (td_resource td) →
  rewrite_static env eco td (request_uri env eco tid b64' kwargs)
    b64' args t = Some x →
  x ∈ st_graph (describe_run env eco td tid b64 kwargs draws).2.
Proof.
  intros Hdec Ht Hx. unfold describe_run, describe_body.
  unfold bind at 1, lift_result at 1. rewrite Hdec. cbv zeta. cbn [fst snd].
  unfold bind at 1, copy_static.
  destruct (for_each_add
              (rewrite_static env eco td
                 (request_uri env eco tid b64' kwargs) b64' args)
              (r_graph (td_resource td)) (initial_state draws))
    as (g1 & -> & Hg1).
  set (P := λ s0 : State, x ∈ st_graph s0).
  assert (HPg : ∀ s0 t0, P s0 → P (set_graph (graph_add t0 (st_graph s0)) s0)).
  { intros s0 t0 Hs0. unfold P. simpl. apply elem_of_graph_add. by left. }
  assert (P (set_graph g1 (initial_state draws))) as Hstart.
  { unfold P. simpl. apply Hg1. right. by exists t. }
  revert Hstart. generalize (set_graph g1 (initial_state draws)).
  change (preserves P
    (resource_props <~ expand_types env
         (request_uri env eco tid b64' kwargs) (r_types (td_resource td)) [] ;;
     merge_same_as env td (request_uri env eco tid b64' kwargs)
       resource_props ;;;
     match td_base td with
     | [] => ret tt
     | _ :: _ =>
         es <~ lift_result
                 (compose_endpoints env eco (recursion_limit env) td) ;;
         invoke_chain env td (request_uri env eco tid b64' kwargs) args
           (sorted_by_order es)
     end)).
  apply preserves_bind; [by apply frame_expand_types|]. intros props.
  apply preserves_bind; [by apply frame_merge_same_as|]. intros _.
  destruct (td_base td); [apply preserves_ret|].
  apply preserves_bind; [apply preserves_lift_result|]. intros es.
  by apply frame_invoke_chain.
Qed.

Lemma describe_body_calls (td : TD) (tid : string) (b64 : option string)
  (kwargs : list (string * string)) (s s' : State) :
  td_base td ≠ [] →
  describe_body env eco td tid b64 kwargs s = (Ok tt, s') →
  ∃ es, compose_endpoints env eco (recursion_limit env) td = Ok es
        ∧ ∃ new, st_calls s' = st_calls s ++ new
                 ∧ new.*1 = sorted_by_order es.
Proof.
  intros Hbase Hrun. unfold describe_body in Hrun.
  set (P := λ s0 : State, st_calls s0 = st_calls s).
  assert (HPg : ∀ s0 t0, P s0 → P (set_graph (graph_add t0 (st_graph s0)) s0))
    by done.
  apply bind_ok in Hrun as (decoded & s0 & Hdec & Hrun).
  unfold lift_result in Hdec. injection Hdec as _ <-.
  cbv zeta in Hrun.
  apply bind_ok in Hrun as ([] & s1 & Hcopy & Hrun).
  apply bind_ok in Hrun as (props & s2 & Hexp & Hrun).
  apply bind_ok in Hrun as ([] & s3 & Hsame & Hrun).
  set (r_uri := request_uri env eco tid decoded.1 kwargs) in *.
  assert (P s3) as Hs3.
  { pose proof (frame_merge_same_as env P HPg td r_uri props s2) as H3.
    rewrite Hsame in H3. apply H3.
    pose proof (frame_expand_types env P HPg r_uri
                  (r_types (td_resource td)) [] s1) as H2.
    rewrite Hexp in H2. apply H2.
    pose proof (frame_copy_static env eco P HPg td r_uri
                  decoded.1 decoded.2 s) as H1.
    rewrite Hcopy in H1. by apply H1. }
  destruct (td_base td) as [|b0 bs]; [done|].
  apply bind_ok in Hrun as (es & s4 & Hcomp & Hrun).
  unfold lift_result in Hcomp. injection Hcomp as Hcomp <-.
  exists es. split; [done|].
  apply invoke_chain_ok in Hrun as (new & Hcalls & Hnew & _).
  exists new. split; [|done]. by rewrite Hcalls, Hs3.
Qed.

(** X13. When [describe_resource] runs to the end of its [try] block
    for a resource with endpoints, it has invoked every composed
    endpoint exactly once, in ascending order of [order]; endpoints
    with the same order are invoked in the order in which
    [compose_endpoints] yields them. *)
Theorem endpoints_invoked_in_order (td : TD) (tid : string)
  (b64 : option string) (kwargs : list (string * string)) (draws : nat)
  (s : State) :
  td_base td ≠ [] →
  describe_run env eco td tid b64 kwargs draws = (Ok tt, s) →
  ∃ es,
    compose_endpoints env eco (recursion_limit env) td = Ok es
    ∧ (st_calls s).*1 ≡ₚ es
    ∧ Sorted by_order (st_calls s).*1
    ∧ ∀ o, filter (λ e, e_order e = o) (st_calls s).*1
           = filter (λ e, e_order e = o) es.
Proof.
  intros Hbase Hrun.
  apply describe_body_calls in Hrun as (es & Hes & new & Hcalls & Hnew);
    [|done].
  exists es. split; [done|]. simpl in Hcalls. rewrite Hcalls, Hnew.
  clear. unfold sorted_by_order. split_and!.
  - induction es as [|e es IH]; simpl; [done|].
    by rewrite insert_by_order_perm, IH.
  - induction es as [|e es IH]; simpl; [constructor|].
    by apply insert_by_order_sorted.
  - intros o. induction es as [|e es IH]; simpl; [done|].
    by rewrite insert_by_order_filter, !filter_cons, IH.
Qed.

(** X14. An endpoint that answers 200 and whose answer is merged
    lowers the lifetime to the freshness hint of the answer when the
    hint is below it.  An answer without a hint, and an answer whose
    hint is 0, leave the lifetime as it is. *)
Theorem lifetime_of_answer (td : TD) (r_uri : Term) (args : Args)
  (e : Endpoint) (s s' : State) (response : Response) :
  invoke env e (st_graph s) r_uri args = Ok response →
  status_code response = 200%Z →
  call_endpoint env td r_uri args e s = (Ok tt, s') →
  st_ttl s' = match ttl_hint response with
              | Some 0%Z | None => st_ttl s
              | Some h => Z.min (st_ttl s) h
              end.
Proof.
  intros Hinv Hstatus Hrun. rewrite call_endpoint_unfold in Hrun.
  cbv zeta in Hrun. rewrite Hinv, decide_True in Hrun by done.
  apply merge_response_ok in Hrun as [_ ->]. simpl.
  unfold hint_or. destruct (ttl_hint response) as [h|]; [|lia].
  case_decide as Hh; [subst; lia|]. by destruct h.
Qed.
End DescriptorEdges.

(* ================================================================== *)
(** * More on the mapping engine *)
(* ================================================================== *)

Lemma assoc_dict_set_id {A} (k : string) (v : A) (kvs : list (string * A)) :
  assoc k kvs = Some v →
  ∀ set : string → A → list (string * A) → list (string * A),
    (∀ k0 v0, set k0 v0 [] = [(k0, v0)]) →
    (∀ k0 v0 k' v' rest,
        set k0 v0 ((k', v') :: rest)
        = if decide (k' = k0) then (k0, v0) :: rest
          else (k', v') :: set k0 v0 rest) →
    set k v kvs = kvs.
Proof.
  intros Hk set Hnil Hcons. induction kvs as [|[k' v'] rest IH]; [done|].
  rewrite Hcons. simpl in Hk. case_decide as Hd.
  - by simplify_eq.
  - by rewrite IH.
Qed.

Lemma dict_set_id (k : string) (v : val) (kvs : list (string * val)) :
  assoc k kvs = Some v → dict_set k v kvs = kvs.
Proof. intros Hk. by apply (assoc_dict_set_id k v kvs Hk dict_set). Qed.

Lemma assoc_NoDup {A} (k : string) (v : A) (kvs : list (string * A)) :
  NoDup kvs.*1 → (k, v) ∈ kvs → assoc k kvs = Some v.
Proof.
  induction kvs as [|[k' v'] rest IH]; intros Hnd Hin;
    [by apply elem_of_nil in Hin|].
  rewrite fmap_cons in Hnd. apply NoDup_cons in Hnd as [Hk' Hnd].
  simpl. apply elem_of_cons in Hin as [[= -> ->]|Hin].
  - by rewrite decide_True.
  - rewrite decide_False; [by apply IH|].
    intros ->. apply Hk'. apply list_elem_of_fmap. by exists (k, v).
Qed.

Section MappingEdges.
Variable env : Env.

(** A dictionary updated with items it already has is unchanged. *)
Lemma update_present (l : loc) (kvs items : list (string * val))
  (s : State) :
  st_heap s !! l = Some (ODict kvs) →
  (∀ k v, (k, v) ∈ items → assoc k kvs = Some v) →
  update (VRef l) items s = (Ok tt, s).
Proof.
  intros Hl Hitems. unfold update.
  induction items as [|[k v] items IH]; [done|].
  cbn [for_each]. unfold bind, setitem. simpl. rewrite Hl.
  rewrite dict_set_id by (apply Hitems; left).
  rewrite list_insert_id by done.
  replace (mkState (st_graph s) (st_ttl s) (st_calls s) (st_uuid s)
             (st_heap s) (st_ctx s)) with s by (by destruct s).
  apply IH. intros k' v' Hin. apply Hitems. by right.
Qed.

Lemma bind_run {A B} (c : M State A) (k : A → M State B) s a s1 :
  c s = (Ok a, s1) → bind c k s = k a s1.
Proof. intros Hc. unfold bind. by rewrite Hc. Qed.

Lemma bind_stop {A B} (c : M State A) (k : A → M State B) s e s1 :
  c s = (Raise e, s1) → bind c k s = (Raise e, s1).
Proof. intros Hc. unfold bind. by rewrite Hc. Qed.

(** X15. A path that matches nothing, or that the path library
    rejects, is ignored: on a dictionary, a mapping with such a path
    is applied to the dictionary as it stands, and the dictionary is
    handed back. *)
Theorem unmatched_path_is_ignored (m : Mapping) (path : string)
  (l : loc) (kvs : list (string * val)) (s : State) :
  m_path m = Some path →
  st_heap s !! l = Some (ODict kvs) →
  NoDup kvs.*1 →
  jsonpath_find env path (st_heap s) (VRef l) = None
  ∨ jsonpath_find env path (st_heap s) (VRef l) = Some [] →
  apply_mappings env (VRef l) [m] s
  = (apply_mapping env (recursion_limit env) (VRef l) m
       (n3 env (m_predicate m)) ;;;
     ret (VRef l)) s.
Proof.
  intros Hpath Hl Hnd Hfind. unfold apply_mappings.
  assert (is_dict (st_heap s) (VRef l) = true) as Hdict
    by (unfold is_dict; simpl; by rewrite Hl).
  assert (path_data env path (VRef l) s = (Ok (VRef l), s)) as Hpd.
  { unfold path_data. case_decide; [done|].
    unfold bind, gets. by destruct Hfind as [-> | ->]. }
  erewrite bind_run; [|reflexivity].
  rewrite Hdict, andb_false_r.
  erewrite bind_run; [|reflexivity].
  rewrite Hpath.
  erewrite bind_run; [reflexivity|].
  erewrite bind_run; [|exact Hpd].
  erewrite bind_run; [|reflexivity].
  unfold obj_at. rewrite Hl.
  erewrite bind_run; [reflexivity|].
  apply (update_present l kvs kvs s Hl).
  intros k v Hin. by apply assoc_NoDup.
Qed.
(** ** Fields that the mappings leave alone *)

Section Kept.
Variable l0 : loc.
Variable k : string.
Variable v : val.
Variable c0 : option CtxEntry.




End Kept.

End MappingEdges.

(* ================================================================== *)
(** * Answers that are no JSON object *)
(* ================================================================== *)

Lemma load_total (j : Json) : ∀ s, ∃ v s', load j s = (Ok v, s').
Proof.
  induction j as [|b|z|f|str|xs IH|kvs IH] using Json_nested_ind; intros s;
    cbn [load]; try (by eexists _, _).
  - match goal with
    | |- context [bind (?f xs)] =>
        assert (∀ s0, ∃ vs s1, f xs s0 = (Ok vs, s1)) as Hall
    end.
    { induction IH as [|j' js' Hj' _ IHjs]; intros s0; [by eexists _, _|].
      destruct (Hj' s0) as (v & s1 & Hv).
      destruct (IHjs s1) as (vs & s2 & Hvs).
      exists (v :: vs), s2.
      erewrite bind_run by exact Hv. by erewrite bind_run by exact Hvs. }
    destruct (Hall s) as (vs & s1 & Hvs).
    erewrite bind_run by exact Hvs. by eexists _, _.
  - match goal with
    | |- context [bind (?f kvs)] =>
        assert (∀ s0, ∃ items s1, f kvs s0 = (Ok items, s1)) as Hall
    end.
    { induction IH as [|[k j'] ms' Hj' _ IHms]; intros s0; [by eexists _, _|].
      destruct (Hj' s0) as (v & s1 & Hv).
      destruct (IHms s1) as (items & s2 & Hitems).
      exists ((k, v) :: items), s2.
      erewrite bind_run by exact Hv. by erewrite bind_run by exact Hitems. }
    destruct (Hall s) as (items & s1 & Hitems).
    erewrite bind_run by exact Hitems. by eexists _, _.
Qed.

Lemma load_plain (j : Json) (s : State) :
  (∀ kvs, j ≠ JObj kvs) →
  ∃ v s', load j s = (Ok v, s') ∧ plain v s'.
Proof.
  intros Hj. destruct j as [|b|z|f|str|xs|kvs]; try (by eexists _, _);
    [|by destruct (Hj kvs)].
  cbn [load].
  match goal with
  | |- context [bind (?f xs)] =>
      assert (∀ s0, ∃ vs s1, f xs s0 = (Ok vs, s1)) as Hall
  end.
  { clear. induction xs as [|j' js' IH]; intros s0; [by eexists _, _|].
    destruct (load_total j' s0) as (v & s1 & Hv).
    destruct (IH s1) as (vs & s2 & Hvs).
    exists (v :: vs), s2.
    erewrite bind_run by exact Hv. by erewrite bind_run by exact Hvs. }
  destruct (Hall s) as (vs & s1 & Hvs).
  erewrite bind_run by exact Hvs.
  eexists _, _. split; [reflexivity|]. simpl. exists vs.
  by apply list_lookup_middle.
Qed.

Lemma setitem_plain (v : val) (k : string) (x : val) (s : State) :
  plain v s → setitem v k x s = (Raise TypeError, s).
Proof.
  intros Hv. unfold setitem.
  destruct v as [| | | | |l]; try done. simpl in *.
  destruct Hv as [xs ->]. done.
Qed.

Section PlainKept.
Variable env : Env.
Variable v : val.

Lemma plain_alloc o : preserves (plain v) (alloc o).
Proof.
  intros s Hv. destruct v as [| | | | |l]; try done. simpl in *.
  destruct Hv as [xs Hl]. exists xs. by apply lookup_app_l_Some.
Qed.

Lemma plain_setitem md k x : preserves (plain v) (setitem md k x).
Proof.
  intros s Hv. unfold setitem.
  destruct md as [| | | | |l']; try done. simpl.
  destruct (st_heap s !! l') as [[kvs|ys|c]|] eqn:Hl'; try done.
  destruct v as [| | | | |l]; try done. simpl in *.
  destruct Hv as [xs Hl]. exists xs.
  rewrite list_lookup_insert_ne; [done|]. intros ->. congruence.
Qed.

Lemma plain_append lst x : preserves (plain v) (append lst x).
Proof.
  intros s Hv. unfold append.
  destruct lst as [| | | | |l']; try done. simpl.
  destruct (st_heap s !! l') as [[kvs|ys|c]|] eqn:Hl'; try done.
  destruct v as [| | | | |l]; try done. simpl in *.
  destruct Hv as [xs Hl]. destruct (decide (l' = l)) as [->|Hne].
  - exists (ys ++ [x]). apply list_lookup_insert_eq.
    by eapply lookup_lt_Some.
  - exists xs. by rewrite list_lookup_insert_ne.
Qed.

Ltac plain_prim :=
  first [ apply plain_alloc | apply frame_getitem | apply plain_append
        | apply frame_eq_val | apply frame_contains | apply plain_setitem ].

Ltac plain_steps := repeat (first [ plain_prim | preserves_step ]).

Lemma plain_merge_target md key x :
  preserves (plain v) (merge_target env md key x).
Proof. unfold merge_target. plain_steps. Qed.

Lemma plain_apply_mapping depth md mapping p_n3 :
  preserves (plain v) (apply_mapping env depth md mapping p_n3).
Proof.
  revert md. induction depth as [|d IH]; intros md; cbn [apply_mapping].
  - apply preserves_raise.
  - plain_steps; first [apply plain_merge_target | apply IH].
Qed.
End PlainKept.

Section PlainAnswers.
Variable env : Env.

(** Without a path and without the key [$container], the mappings
    hand back the value they were given, and a value that is no
    dictionary is none afterwards. *)
Lemma apply_mappings_plain (data : val) (mappings : list Mapping)
  (s : State) :
  (∀ m, m ∈ mappings → m_path m = None ∧ m_key m ≠ "$container") →
  plain data s →
  plain data (apply_mappings env data mappings s).2
  ∧ ∀ v, (apply_mappings env data mappings s).1 = Ok v → v = data.
Proof.
  intros Hms Hdata. unfold apply_mappings.
  erewrite bind_run; [|reflexivity].
  assert (existsb is_container mappings = false) as ->.
  { apply not_true_is_false. intros (m & Hm & Hc)%existsb_exists.
    apply list_elem_of_In, Hms in Hm as [_ Hk].
    unfold is_container in Hc. by apply bool_decide_eq_true in Hc. }
  rewrite andb_false_l. erewrite bind_run; [|reflexivity].
  revert s Hdata. induction mappings as [|m ms IH]; intros s Hdata;
    [by split; [|intros v [= <-]]|].
  destruct (Hms m) as [-> _]; [left|].
  erewrite bind_run; [|reflexivity].
  pose proof (plain_apply_mapping env data (recursion_limit env) data m
                (n3 env (m_predicate m)) s Hdata) as Hkept.
  destruct (apply_mapping env (recursion_limit env) data m
              (n3 env (m_predicate m)) s) as [[[]|e] s1] eqn:Hm.
  - rewrite !(bind_run _ _ _ _ _ Hm).
    apply IH; [|done]. intros m' Hm'. apply Hms. by right.
  - rewrite !(bind_stop _ _ _ _ _ Hm). by split; [|intros v [=]].
Qed.

(** X17. An answer with status 200 whose body is JSON but no object
    (an array, a string, a number) contributes nothing when no
    mapping of the endpoint has a path or the key [$container]: the
    call raises, and the graph and the lifetime stay as they
    were. *)
Theorem non_object_answer_rejected (td : TD) (r_uri : Term) (args : Args)
  (e : Endpoint) (s : State) (response : Response) (j : Json) :
  invoke env e (st_graph s) r_uri args = Ok response →
  status_code response = 200%Z →
  json_body response = Ok j →
  (∀ kvs, j ≠ JObj kvs) →
  (∀ m, m ∈ endpoint_mappings env td e →
        m_path m = None ∧ m_key m ≠ "$container") →
  let run := call_endpoint env td r_uri args e s in
  (∃ x, run.1 = Raise x)
  ∧ st_graph run.2 = st_graph s
  ∧ st_ttl run.2 = st_ttl s.
Proof.
  intros Hinv Hstatus Hjson Hj Hms.
  assert (∃ x s', call_endpoint env td r_uri args e s = (Raise x, s')
                  ∧ st_graph s' = st_graph s ∧ st_ttl s' = st_ttl s)
    as (x & s' & -> & Hg & Ht); [|by split; [eexists|]].
  rewrite call_endpoint_unfold. cbv zeta.
  rewrite Hinv, decide_True by done.
  set (logged := set_calls (st_calls s ++ [(e, Ok response)]) s).
  set (P := λ s0 : State, st_graph s0 = st_graph s ∧ st_ttl s0 = st_ttl s).
  assert (HPh : ∀ s0 h, P s0 → P (set_heap h s0)) by done.
  unfold merge_response.
  erewrite bind_run; [|by unfold lift_result; rewrite Hjson].
  destruct (load_plain j logged Hj) as (v & s1 & Hload & Hplain).
  assert (P s1) as Hs1.
  { pose proof (frame_load P HPh j logged) as H1.
    rewrite Hload in H1. by apply H1. }
  erewrite bind_run by exact Hload.
  destruct (apply_mappings_plain v (endpoint_mappings env td e) s1 Hms
              Hplain) as [Hplain2 Hsame].
  assert (P (apply_mappings env v (endpoint_mappings env td e) s1).2)
    as Hs2 by (by apply (frame_apply_mappings env P HPh)).
  destruct (apply_mappings env v (endpoint_mappings env td e) s1)
    as [[v'|x] s2] eqn:Hmap; simpl in Hplain2, Hsame, Hs2.
  - erewrite bind_run by exact Hmap.
    rewrite (Hsame v') by done.
    erewrite bind_run; [|reflexivity].
    destruct (recursion_limit env) as [|d].
    + by exists RuntimeError, (set_ctx ∅ s2).
    + exists TypeError, (set_ctx ∅ s2). split; [|done].
      apply bind_stop. cbn [enrich]. apply bind_stop.
      by apply setitem_plain.
  - exists x, s2. split; [|done]. by apply bind_stop.
Qed.
End PlainAnswers.

(* ================================================================== *)
(** * What precedes the endpoints *)
(* ================================================================== *)

Section Prelude.
Variable env : Env.
Variable eco : Ecosystem.

Lemma expand_types_known r_uri types props0 s props s' :
  expand_types env r_uri types props0 s = (Ok props, s') →
  ∀ t, t ∈ types →
       ∃ ti, get_type env (type_n3 env (TypeTerm t)) = Ok ti.
Proof.
  revert props0 s. induction types as [|t0 types IH]; intros props0 s Hrun t Ht;
    [by apply elem_of_nil in Ht|].
  cbn [expand_types] in Hrun.
  apply bind_ok in Hrun as (ti & s1 & Hti & Hrun).
  unfold lift_result in Hti. injection Hti as Hti _.
  apply bind_ok in Hrun as ([] & s2 & _ & Hrun).
  apply elem_of_cons in Ht as [->|Ht]; [by exists ti|].
  by eapply IH.
Qed.

Lemma merge_same_as_loaded td r_uri props s s' :
  merge_same_as env td r_uri props s = (Ok tt, s') →
  ∀ href, href ∈ td_rdf_sources td → ∃ g, load_graph env href = Ok g.
Proof.
  unfold merge_same_as. revert s.
  induction (td_rdf_sources td) as [|h hs IH]; intros s Hrun href Hh;
    [by apply elem_of_nil in Hh|].
  cbn [for_each] in Hrun.
  apply bind_ok in Hrun as ([] & s1 & Hbody & Hrun).
  apply bind_ok in Hbody as ([] & s2 & _ & Hbody).
  apply bind_ok in Hbody as (g & s3 & Hg & _).
  unfold lift_result in Hg. injection Hg as Hg _.
  apply elem_of_cons in Hh as [->|Hh]; [by exists g|].
  by eapply IH.
Qed.

(** X18. [describe_resource] invokes an endpoint only after every
    earlier step has gone through: when the log of a call is not
    empty, the argument payload has decoded, the registry has
    answered for every declared type of the resource, every same-as
    source has loaded, and [compose_endpoints] has yielded its
    list. *)
Theorem endpoints_need_prelude (td : TD) (tid : string)
  (b64 : option string) (kwargs : list (string * string)) (draws : nat) :
  st_calls (describe_run env eco td tid b64 kwargs draws).2 ≠ [] →
  (∃ decoded, decode_request env b64 = Ok decoded)
  ∧ (∀ t, t ∈ r_types (td_resource td) →
          ∃ ti, get_type env (type_n3 env (TypeTerm t)) = Ok ti)
  ∧ (∀ href, href ∈ td_rdf_sources td → ∃ g, load_graph env href = Ok g)
  ∧ ∃ es, compose_endpoints env eco (recursion_limit env) td = Ok es.
Proof.
  unfold describe_run, describe_body. intros Hcalls.
  set (P := λ s0 : State, st_calls s0 = []).
  assert (HPg : ∀ s0 t0, P s0 → P (set_graph (graph_add t0 (st_graph s0)) s0))
    by done.
  destruct (decode_request env b64) as [decoded|x] eqn:Hdec; [|done].
  erewrite bind_run in Hcalls; [|reflexivity]. cbv zeta in Hcalls.
  set (r_uri := request_uri env eco tid decoded.1 kwargs) in *.
  pose proof (frame_copy_static env eco P HPg td r_uri decoded.1 decoded.2
                (initial_state draws) eq_refl) as H1.
  destruct (copy_static env eco td r_uri decoded.1 decoded.2
              (initial_state draws)) as [[[]|x] s1] eqn:Hcopy;
    [|by rewrite (bind_stop _ _ _ _ _ Hcopy) in Hcalls].
  rewrite (bind_run _ _ _ _ _ Hcopy) in Hcalls.
  pose proof (frame_expand_types env P HPg r_uri
                (r_types (td_resource td)) [] s1 H1) as H2.
  destruct (expand_types env r_uri (r_types (td_resource td)) [] s1)
    as [[props|x] s2] eqn:Hexp;
    [|by rewrite (bind_stop _ _ _ _ _ Hexp) in Hcalls].
  rewrite (bind_run _ _ _ _ _ Hexp) in Hcalls.
  pose proof (frame_merge_same_as env P HPg td r_uri props s2 H2) as H3.
  destruct (merge_same_as env td r_uri props s2) as [[[]|x] s3] eqn:Hsame;
    [|by rewrite (bind_stop _ _ _ _ _ Hsame) in Hcalls].
  rewrite (bind_run _ _ _ _ _ Hsame) in Hcalls.
  split_and!; [by eexists|by eapply expand_types_known
              |by eapply merge_same_as_loaded|].
  destruct (td_base td) as [|b0 bs]; [done|].
  destruct (compose_endpoints env eco (recursion_limit env) td)
    as [es|x]; [by exists es|done].
Qed.
End Prelude.

(* ================================================================== *)
(** * The scholars of the gateway *)
(* ================================================================== *)

Lemma insert_string_perm (x : string) (xs : list string) :
  insert_string x xs ≡ₚ x :: xs.
Proof.
  induction xs as [|y xs IH]; simpl; [done|].
  destruct (String.leb x y); [done|]. rewrite IH. apply Permutation_swap.
Qed.

Lemma sorted_strings_perm (xs : list string) : sorted_strings xs ≡ₚ xs.
Proof.
  induction xs as [|x xs IH]; simpl; [done|].
  by rewrite insert_string_perm, IH.
Qed.

Section GatewayProperties.
Context {Sch W FS : Type}.
Variable gw_id : string.
Variable parameters : list string.
Variable md5_base64 : string → string.
Variable new_scholar : string → FS → M W Sch.
Variable scholar_shutdown : Sch → M W unit.

Lemma scholar_id_ext (kwargs kwargs' : Kwargs) :
  (∀ k, k ∈ parameters →
        default "" (assoc k kwargs') = default "" (assoc k kwargs)) →
  scholar_id gw_id parameters md5_base64 kwargs'
  = scholar_id gw_id parameters md5_base64 kwargs.
Proof.
  intros Hsame. unfold scholar_id. destruct parameters as [|p ps] eqn:Hp;
    [done|]. rewrite <- Hp in *. do 4 f_equal.
  apply list_fmap_ext. intros i k Hk. f_equal. apply Hsame.
  rewrite <- sorted_strings_perm. by eapply list_elem_of_lookup_2.
Qed.

(** X19. The gateway keeps one scholar per scholar id.  Once
    [_scholar] has handed out a scholar, a later call whose arguments
    agree with the earlier ones on every required parameter (a
    missing argument counting as the empty string) hands out the same
    scholar and builds none: the seed of the later call is not
    used. *)
Theorem scholar_reused (force_seed force_seed' : FS)
  (kwargs kwargs' : Kwargs) (g g' : gmap string Sch * W) (scholar : Sch) :
  _scholar gw_id parameters md5_base64 new_scholar force_seed kwargs g
  = (Ok scholar, g') →
  (∀ k, k ∈ parameters →
        default "" (assoc k kwargs') = default "" (assoc k kwargs)) →
  _scholar gw_id parameters md5_base64 new_scholar force_seed' kwargs' g'
  = (Ok scholar, g').
Proof.
  intros Hfirst Hsame. unfold _scholar in *.
  rewrite (scholar_id_ext kwargs kwargs' Hsame).
  set (sid := scholar_id gw_id parameters md5_base64 kwargs) in *.
  cbv zeta in *.
  destruct (g.1 !! sid) as [sch|] eqn:Hg.
  - injection Hfirst as -> <-. by rewrite Hg.
  - destruct (new_scholar sid force_seed g.2) as [[sch|e] w]; [|done].
    injection Hfirst as -> <-. simpl. by rewrite lookup_insert_eq.
Qed.

Lemma shutdown_loop (scholars : list Sch) (w : W) :
  (∀ sch w0 e w', scholar_shutdown sch w0 = (Raise e, w') →
                  is_Exception e = true) →
  for_each scholars (shutdown_one scholar_shutdown) w
  = (Ok tt, foldl (λ w0 sch, (scholar_shutdown sch w0).2) w scholars).
Proof.
  intros Hexc. revert w. induction scholars as [|sch rest IH]; intros w;
    [done|].
  cbn [for_each foldl]. unfold bind, shutdown_one at 1.
  destruct (scholar_shutdown sch w) as [[[]|e] w1] eqn:Hsch; simpl.
  - apply IH.
  - rewrite (Hexc _ _ _ _ Hsch). apply IH.
Qed.

(** X20. When no scholar raises anything but an [Exception],
    [shutdown] returns with no scholar left in the gateway, having
    attempted to shut down every scholar it had, each one after the
    other: a scholar that raises does not keep the later ones from
    being shut down. *)
Theorem shutdown_clears (g : gmap string Sch * W) :
  (∀ sch w e w', scholar_shutdown sch w = (Raise e, w') →
                 is_Exception e = true) →
  shutdown scholar_shutdown g
  = (Ok tt,
     (∅, foldl (λ w sch, (scholar_shutdown sch w).2) g.2
           (map_to_list g.1).*2)).
Proof.
  intros Hexc. unfold shutdown. by rewrite shutdown_loop.
Qed.
End GatewayProperties.

(* ================================================================== *)
(** * More on the materializer *)
(* ================================================================== *)

Section MaterializerEdges.
Variable env : Env.

Lemma materialize_app m ts1 ts2 s :
  materialize env m (ts1 ++ ts2) s
  = match materialize env m ts1 s with
    | (Ok m1, s1) => materialize env m1 ts2 s1
    | (Raise e, s1) => (Raise e, s1)
    end.
Proof.
  revert m s. induction ts1 as [|[[s0 p0] o0] ts1 IH]; intros m s; [done|].
  cbn [materialize app]. unfold bind at 1 5.
  destruct (parse_term env m s0 s) as [[subject|e] s1]; [|done].
  unfold bind at 1 4.
  destruct (parse_term env subject.2 p0 s1) as [[predicate|e] s2]; [|done].
  unfold bind at 1 3.
  destruct (parse_term env predicate.2 o0 s2) as [[object|e] s3]; [|done].
  unfold bind at 1 2.
  destruct (add_triple (subject.1, predicate.1, object.1) s3)
    as [[[]|e] s4]; [|done].
  apply IH.
Qed.

(** X21. [ld_triples] adds the statements to the graph one by one
    and takes nothing back: when the conversion of a statement
    raises, the statements converted before it are in the graph. *)
Theorem ld_triples_keeps_earlier (data : val) (ts1 ts2 : list NTriple)
  (s s1 : State) (m1 : gmap string string) (t : NTriple) (x : Triple) :
  normalize env (st_ctx s) (st_heap s) data = Ok (ts1 ++ ts2) →
  materialize env ∅ ts1 s = (Ok m1, s1) →
  t ∈ ts1 →
  converted_triple env m1 t = Some x →
  x ∈ st_graph (ld_triples env data s).2.
Proof.
  intros Hnorm Hfirst Ht Hx. unfold ld_triples.
  erewrite bind_run; [|reflexivity].
  erewrite bind_run; [|by unfold lift_result; rewrite Hnorm].
  assert (x ∈ st_graph (materialize env ∅ (ts1 ++ ts2) s).2) as Hin.
  { rewrite materialize_app, Hfirst.
    apply (frame_materialize env (λ s0, x ∈ st_graph s0)); [done| |].
    - intros s0 t0 Hs0. simpl. apply elem_of_graph_add. by left.
    - apply materialize_ok in Hfirst as (_ & _ & _ & _ & Hg).
      apply Hg. right. by exists t. }
  unfold bind.
  by destruct (materialize env ∅ (ts1 ++ ts2) s) as [[m'|e] s'].
Qed.
End MaterializerEdges.

(* ================================================================== *)
(** * The enricher on flat documents *)
(* ================================================================== *)

Lemma assoc_elem {A} (k : string) (v : A) (kvs : list (string * A)) :
  assoc k kvs = Some v → (k, v) ∈ kvs.
Proof.
  induction kvs as [|[k' v'] rest IH]; simpl; [done|].
  case_decide as Hk; [intros [= ->]; subst; left|right; by apply IH].
Qed.

Section FlatDocuments.
Variable env : Env.

Lemma declared_field_dec (types : list TypeRef) (keys : list string)
  (k : string) : Decision (declared_field env types keys k).
Proof.
  unfold declared_field. apply and_dec; [apply _|].
  induction types as [|t ts IH].
  - right. by intros (t & ti & []%elem_of_nil & _).
  - destruct IH as [IH|IH].
    { left. destruct IH as (t' & ti & ? & ? & ?).
      exists t', ti. split_and!; [by right|done|done]. }
    destruct (get_type env (type_n3 env t)) as [ti|e] eqn:Hti.
    + destruct (decide (k ∈ ti_properties ti)) as [Hin|Hout].
      * left. exists t, ti. split_and!; [left|done|done].
      * right. intros (t' & ti' & [->|Ht']%elem_of_cons & Hti' & Hk).
        -- congruence.
        -- apply IH. by exists t', ti'.
    + right. intros (t' & ti' & [->|Ht']%elem_of_cons & Hti' & Hk).
      * congruence.
      * apply IH. by exists t', ti'.
Qed.

Lemma property_entry_id pdict p v s jp s' :
  property_entry env pdict p v s = (Ok jp, s') → ce_id jp = extend_uri env p.
Proof.
  unfold property_entry. repeat case_match; unfold bind, gets, ret, raise;
    by intros [= <- _].
Qed.

Lemma elem_of_dict_set_keys (k k' : string) (v : val)
  (kvs : list (string * val)) :
  k' ∈ (dict_set k v kvs).*1 ↔ k' = k ∨ k' ∈ kvs.*1.
Proof.
  induction kvs as [|[k0 v0] rest IH]; simpl.
  - rewrite list_elem_of_singleton, elem_of_nil. naive_solver.
  - case_decide as Hk; simpl; rewrite !elem_of_cons; [naive_solver|].
    rewrite IH. naive_solver.
Qed.

Lemma property_entry_state pdict p v s jp s' :
  property_entry env pdict p v s = (Ok jp, s') → s' = s.
Proof.
  unfold property_entry. repeat case_match; unfold bind, gets, ret, raise;
    by intros [= _ <-].
Qed.

(** X22. On a flat document (a dictionary whose values are all
    scalars), when no type declares ['@id'] or ['@type'] as a property,
    an [enrich] that returns hands back the document itself with
    ['@id'] set to the given URI and ['@type'] set to a new list of the
    short names of the types, in order; it changes no other field,
    creates no other object and draws no identifier.  The context has
    an entry under every short type name and under every field that a
    type declares (an entry for the expanded name of the field, when
    the field is no short type name), and is unchanged under every
    other key. *)
Theorem enrich_flat_document (depth : nat) (uri : string) (l : loc)
  (kvs : list (string * val)) (types : list TypeRef) (vars : list string)
  (kwargs : Args) (s s' : State) (v : val) :
  st_heap s !! l = Some (ODict kvs) →
  (∀ k x, (k, x) ∈ kvs → ∀ l', x ≠ VRef l') →
  (∀ t ti, t ∈ types → get_type env (type_n3 env t) = Ok ti →
           ("@id" ∉ ti_properties ti) ∧ ("@type" ∉ ti_properties ti)) →
  enrich env depth uri (VRef l) types vars kwargs s = (Ok v, s') →
  v = VRef l
  ∧ ∃ shorts,
      Forall2 (λ t w, split_on ":" (type_n3 env t) !! 1%nat = Some w)
        types shorts
      ∧ st_heap s'
        = <[l := ODict (dict_set "@type" (VRef (length (st_heap s)))
                          (dict_set "@id" (VStr uri) kvs))]>
            (st_heap s ++ [OList (VStr <$> shorts)])
      ∧ st_uuid s' = st_uuid s
      ∧ st_graph s' = st_graph s
      ∧ ∀ k,
          (k ∈ shorts → is_Some (st_ctx s' !! k))
          ∧ (declared_field env types kvs.*1 k →
             ∃ ce, st_ctx s' !! k = Some ce
                   ∧ (k ∉ shorts → ce_id ce = extend_uri env k))
          ∧ (k ∉ shorts → ¬ declared_field env types kvs.*1 k →
             st_ctx s' !! k = st_ctx s !! k).
Proof.
  intros Hl Hflat Hprops Hrun.
  destruct depth as [|d]; [done|]. cbn [enrich] in Hrun.
  apply bind_ok in Hrun as ([] & s1 & Hid & Hrun).
  apply bind_ok in Hrun as (jt & s2 & Hjt & Hrun).
  apply bind_ok in Hrun as ([] & s3 & Htype & Hrun).
  apply bind_ok in Hrun as ([] & s4 & Hloop & Hrun).
  injection Hrun as <- <-. split; [done|].
  assert (Hlt : (l < length (st_heap s))%nat) by (by eapply lookup_lt_Some).
  unfold setitem in Hid. simpl in Hid. rewrite Hl in Hid. injection Hid as <-.
  unfold alloc in Hjt. injection Hjt as <- <-.
  rewrite length_insert in *.
  set (jt := length (st_heap s)) in *.
  set (kvs0 := dict_set "@id" (VStr uri) kvs) in *.
  set (kvs1 := dict_set "@type" (VRef jt) kvs0).
  set (H0 := <[l := ODict kvs1]> (st_heap s ++ [OList []])).
  unfold setitem in Htype. simpl in Htype.
  rewrite lookup_app_l in Htype by (by rewrite length_insert).
  rewrite list_lookup_insert_eq in Htype by done. injection Htype as <-.
  fold kvs1 in Hloop.
  rewrite insert_app_l in Hloop by (by rewrite length_insert).
  rewrite list_insert_insert_eq in Hloop.
  rewrite <- insert_app_l in Hloop by done. fold H0 in Hloop.
  assert (HH0l : H0 !! l = Some (ODict kvs1)).
  { unfold H0. apply list_lookup_insert_eq. rewrite length_app. lia. }
  assert (HH0len : length H0 = S jt).
  { unfold H0. rewrite length_insert, length_app. simpl. unfold jt. lia. }
  assert (Hne : jt ≠ l) by (unfold jt; lia).
  lazymatch type of Hloop with
  | for_each _ ?b _ = _ => set (outer := b) in *
  end.
  assert (Hstep : ∀ ts acc s0 s1',
             (∀ t, t ∈ ts → t ∈ types) →
             st_heap s0 = <[jt := OList (VStr <$> acc)]> H0 →
             for_each ts outer s0 = (Ok tt, s1') →
             ∃ shorts,
               Forall2 (λ t w, split_on ":" (type_n3 env t) !! 1%nat = Some w)
                 ts shorts
               ∧ st_heap s1' = <[jt := OList (VStr <$> (acc ++ shorts))]> H0
               ∧ st_uuid s1' = st_uuid s0
               ∧ st_graph s1' = st_graph s0
               ∧ ∀ k,
                   (k ∈ shorts → is_Some (st_ctx s1' !! k))
                   ∧ (declared_field env ts kvs1.*1 k →
                      ∃ ce, st_ctx s1' !! k = Some ce
                            ∧ (k ∉ shorts → ce_id ce = extend_uri env k))
                   ∧ (k ∉ shorts → ¬ declared_field env ts kvs1.*1 k →
                      st_ctx s1' !! k = st_ctx s0 !! k)).
  { induction ts as [|t ts IH]; intros acc s0 s1' Hts Hheap Hrun.
    - injection Hrun as <-. exists []. rewrite app_nil_r.
      split_and!; try done. intros k. split_and!; [|by intros (_ & t & ? & []%elem_of_nil & _)|done].
      by intros []%elem_of_nil.
    - cbn [for_each] in Hrun.
      apply bind_ok in Hrun as ([] & sa & Hbody & Hrest).
      unfold outer at 1 in Hbody.
      apply bind_ok in Hbody as (tinfo & sb & Hget & Hbody).
      unfold lift_result in Hget. injection Hget as Hget <-.
      destruct (Hprops t tinfo (Hts t (list_elem_of_here _ _)) Hget)
        as [Hnid Hntype].
      apply bind_ok in Hbody as (w & sb & Hshort & Hbody).
      destruct (split_on ":" (type_n3 env t) !! 1%nat) as [w'|] eqn:Hw;
        [|done].
      injection Hshort as -> <-.
      apply bind_ok in Hbody as ([] & sb & Hctx & Hbody).
      injection Hctx as <-.
      apply bind_ok in Hbody as ([] & sc & Happ & Hbody).
      unfold append in Happ. simpl in Happ. rewrite Hheap in Happ.
      rewrite list_lookup_insert_eq in Happ by lia.
      injection Happ as <-. rewrite list_insert_insert_eq in Hbody.
      apply bind_ok in Hbody as (h & sc & Hh & Hbody).
      injection Hh as <- <-. simpl in Hbody.
      set (Hc := <[jt:=OList ((VStr <$> acc) ++ [VStr w])]> H0) in *.
      assert (HHcl : Hc !! l = Some (ODict kvs1)).
      { unfold Hc. by rewrite list_lookup_insert_ne. }
      rewrite HHcl in Hbody.
      lazymatch type of Hbody with
      | for_each _ ?b _ = _ => set (inner := b) in *
      end.
      assert (Hinner : ∀ keys sk sk',
                 st_heap sk = Hc →
                 for_each keys inner sk = (Ok tt, sk') →
                 st_heap sk' = Hc ∧ st_uuid sk' = st_uuid sk
                 ∧ st_graph sk' = st_graph sk
                 ∧ ∀ k,
                     (k ∈ keys → k ∈ ti_properties tinfo →
                      ∃ ce, st_ctx sk' !! k = Some ce
                            ∧ ce_id ce = extend_uri env k)
                     ∧ (¬ (k ∈ keys ∧ k ∈ ti_properties tinfo) →
                        st_ctx sk' !! k = st_ctx sk !! k)).
      { induction keys as [|p keys IHk]; intros sk sk' Hs0 Hkeys.
        - injection Hkeys as <-. split_and!; try done.
          intros k. split; [by intros []%elem_of_nil|done].
        - cbn [for_each] in Hkeys.
          apply bind_ok in Hkeys as ([] & sx & Hp & Hkeys).
          assert (st_heap sx = Hc ∧ st_uuid sx = st_uuid sk
                  ∧ st_graph sx = st_graph sk
                  ∧ ((p ∈ ti_properties tinfo
                      ∧ ∃ ce, st_ctx sx = <[p := ce]> (st_ctx sk)
                              ∧ ce_id ce = extend_uri env p)
                     ∨ ((p ∉ ti_properties tinfo) ∧ st_ctx sx = st_ctx sk)))
            as (Hx1 & Hx2 & Hx3 & Hx4).
          { unfold inner in Hp.
            case_decide as Hin; [|injection Hp as <-; split_and!; try done;
                                  by right].
            apply bind_ok in Hp as (pdict & sy & Hpd & Hp).
            unfold lift_result in Hpd. injection Hpd as _ <-.
            apply bind_ok in Hp as (x & sy & Hx & Hp).
            unfold getitem in Hx. simpl in Hx. rewrite Hs0, HHcl in Hx.
            destruct (assoc p kvs1) as [x'|] eqn:Hassoc; [|done].
            injection Hx as -> <-.
            assert (∀ l', x ≠ VRef l') as Hscalar.
            { apply (Hflat p). apply assoc_elem.
              rewrite <- Hassoc. unfold kvs1, kvs0.
              rewrite !assoc_dict_set_ne; [done| |]; by intros <-. }
            apply bind_ok in Hp as (jp & sy & Hjp & Hp).
            pose proof (property_entry_id _ _ _ _ _ _ Hjp) as Hjpid.
            apply property_entry_state in Hjp as ->.
            apply bind_ok in Hp as ([] & sy & Hctx & Hp).
            injection Hctx as <-.
            apply bind_ok in Hp as (x2 & sy & Hx2 & Hp).
            unfold getitem in Hx2. simpl in Hx2. rewrite Hs0, HHcl, Hassoc in Hx2.
            injection Hx2 as <- <-.
            apply bind_ok in Hp as (h1 & sy & Hh1 & Hp).
            injection Hh1 as <- <-.
            destruct x; try (injection Hp as <-; split_and!; try done;
                             left; split; [done|]; by exists jp).
            by destruct (Hscalar l0). }
          destruct (IHk sx sk' Hx1 Hkeys) as (? & ? & ? & Hctx).
          split_and!; [done|congruence|congruence|].
          intros k. destruct (Hctx k) as [Hk1 Hk2].
          rewrite elem_of_cons.
          destruct Hx4 as [(Hpin & ce & Hce & Hceid)|[Hpout Hce]];
            rewrite Hce in *; clear Hce.
          + destruct (decide (k ∈ keys ∧ k ∈ ti_properties tinfo))
              as [[? ?]|Hnot].
            * split; [intros _ _; by apply Hk1|naive_solver].
            * rewrite (Hk2 Hnot). destruct (decide (k = p)) as [->|Hkp].
              -- rewrite lookup_insert_eq. split; [by eauto|naive_solver].
              -- rewrite lookup_insert_ne by done. split; [naive_solver|done].
          + destruct (decide (k ∈ keys ∧ k ∈ ti_properties tinfo))
              as [[? ?]|Hnot].
            * split; [intros _ _; by apply Hk1|naive_solver].
            * rewrite (Hk2 Hnot). split; [naive_solver|done]. }
      apply Hinner in Hbody as (Ha1 & Ha2 & Ha3 & Ha4); [|done].
      simpl in Ha4.
      destruct (IH (acc ++ [w]) sa s1')
        as (shorts & Hshorts & Hh & Hu & Hg & Hc');
        [intros t' Ht'; apply Hts; by right
        |rewrite Ha1; unfold Hc; by rewrite fmap_app|done|].
      exists (w :: shorts). split_and!;
        [by constructor|rewrite Hh; by rewrite <- app_assoc
        |by rewrite Hu, Ha2|by rewrite Hg, Ha3|].
      intros k. destruct (Hc' k) as (Hk1 & Hk2 & Hk3).
      destruct (Ha4 k) as [Hk4 Hk5].
      assert (Hmatch : declared_field env (t :: ts) kvs1.*1 k
                       ↔ (k ∈ kvs1.*1 ∧ k ∈ ti_properties tinfo)
                         ∨ declared_field env ts kvs1.*1 k).
      { unfold declared_field. split.
        - intros (Hk & t' & ti' & [->|Ht']%elem_of_cons & Hti' & Hp').
          + left. split; [done|]. congruence.
          + right. split; [done|]. by exists t', ti'.
        - intros [[Hk Hp']|(Hk & t' & ti' & Ht' & Hti' & Hp')];
            (split; [done|]).
          + exists t, tinfo. split_and!; [left|done|done].
          + exists t', ti'. split_and!; [by right|done|done]. }
      assert (Hwsome : is_Some (st_ctx sa !! w)).
      { destruct (Ha4 w) as [Hw4 Hw5].
        destruct (decide (w ∈ kvs1.*1 ∧ w ∈ ti_properties tinfo))
          as [[Hwa Hwb]|Hnot].
        - destruct (Hw4 Hwa Hwb) as (ce & -> & _). by eexists.
        - rewrite (Hw5 Hnot). rewrite lookup_insert_eq. by eexists. }
      rewrite Hmatch, elem_of_cons. split_and!.
      + intros [->|Hin]; [|by apply Hk1].
        destruct (decide (w ∈ shorts)) as [?|Hws]; [by apply Hk1|].
        destruct (declared_field_dec ts kvs1.*1 w) as [Hd|Hd].
        * destruct (Hk2 Hd) as (ce & -> & _). by eexists.
        * by rewrite (Hk3 Hws Hd).
      + intros [[Hkin Hkp]|Hd].
        * destruct (declared_field_dec ts kvs1.*1 k) as [Hd|Hd].
          -- destruct (Hk2 Hd) as (ce & Hce & Hid). exists ce.
             split; [done|]. intros Hn. apply Hid.
             intros Hin. apply Hn. by right.
          -- destruct (Hk4 Hkin Hkp) as (ce & Hce & Hid).
             destruct (decide (k ∈ shorts)) as [Hks|Hks].
             ++ destruct (Hk1 Hks) as [ce' Hce']. exists ce'.
                split; [done|]. intros Hn. destruct Hn. by right.
             ++ exists ce. rewrite (Hk3 Hks Hd). split; [done|]. by intros _.
        * destruct (Hk2 Hd) as (ce & Hce & Hid). exists ce.
          split; [done|]. intros Hn. apply Hid.
          intros Hin. apply Hn. by right.
      + intros Hn Hnd.
        rewrite Hk3; [|intros Hin; apply Hn; by right
                      |intros Hd; apply Hnd; by right].
        rewrite Hk5 by (intros Hboth; apply Hnd; by left).
        rewrite lookup_insert_ne; [done|].
        intros ->. apply Hn. by left. }
  assert (HH0jt : H0 !! jt = Some (OList [])).
  { unfold H0. rewrite list_lookup_insert_ne by done.
    by apply list_lookup_middle. }
  apply (Hstep types []) in Hloop as (shorts & Hshorts & Hh & Hu & Hg & Hc);
    [|done|by simpl; rewrite list_insert_id].
  exists shorts. split_and!; [done| |done|done|].
  - rewrite Hh. simpl. unfold H0. rewrite list_insert_insert_ne by done.
    f_equal. rewrite insert_app_r_alt by (unfold jt; lia).
    by rewrite Nat.sub_diag.
  - assert (Hfield : ∀ k, declared_field env types kvs1.*1 k
                          ↔ declared_field env types kvs.*1 k).
    { intros k. unfold declared_field, kvs1, kvs0.
      rewrite !elem_of_dict_set_keys. split; [|naive_solver].
      intros ([->|[->|?]] & t & ti & Ht & Hti & Hp); [| |naive_solver];
        destruct (Hprops t ti Ht Hti); done. }
    intros k. destruct (Hc k) as (Hk1 & Hk2 & Hk3).
    rewrite <- Hfield. done.
Qed.
End FlatDocuments.

(* ================================================================== *)
(** * The mapping engine on flat documents *)
(* ================================================================== *)

Section FlatMappings.
Variable env : Env.

Lemma dict_set_absent (k : string) (v : val) (kvs : list (string * val)) :
  assoc k kvs = None → dict_set k v kvs = kvs ++ [(k, v)].
Proof.
  induction kvs as [|[k' v'] rest IH]; simpl; [done|].
  case_decide; [done|]. intros Hk. by rewrite IH.
Qed.

Lemma assoc_app_l {A} (k : string) (kvs more : list (string * A)) (x : A) :
  assoc k kvs = Some x → assoc k (kvs ++ more) = Some x.
Proof.
  induction kvs as [|[k' v'] rest IH]; simpl; [done|].
  case_decide; [done|]. apply IH.
Qed.

Lemma assoc_is_Some {A} (k : string) (kvs : list (string * A)) :
  k ∈ kvs.*1 → is_Some (assoc k kvs).
Proof.
  induction kvs as [|[k' v'] rest IH]; simpl; [by intros []%elem_of_nil|].
  case_decide; [by eexists|].
  intros [->|Hin]%elem_of_cons; [done|]. by apply IH.
Qed.

(** A value that the engine does not descend into. *)
Lemma apply_mapping_leaf depth (x : val) mapping p_n3 s :
  (∀ xs, obj_at (st_heap s) x ≠ Some (OList xs)) →
  (∀ kvs, obj_at (st_heap s) x ≠ Some (ODict kvs)) →
  apply_mapping env (S depth) x mapping p_n3 s = (Ok tt, s).
Proof.
  intros Hl Hd. cbn [apply_mapping]. erewrite bind_run; [|reflexivity].
  destruct (obj_at (st_heap s) x) as [[kvs|xs|c]|] eqn:Hx; try done.
  - by destruct (Hd kvs).
  - by destruct (Hl xs).
Qed.

Lemma assoc_app_absent {A} (k : string) (x : A) (kvs : list (string * A)) :
  assoc k kvs = None → assoc k (kvs ++ [(k, x)]) = Some x.
Proof.
  induction kvs as [|[k' v'] rest IH]; simpl; [by rewrite decide_True|].
  case_decide; [done|]. apply IH.
Qed.

Lemma merge_target_absent (l : loc) (kvs : list (string * val)) (p : string)
  (x : val) (s : State) :
  st_heap s !! l = Some (ODict kvs) →
  assoc p kvs = None →
  merge_target env (VRef l) p x s
  = (Ok tt, set_heap (<[l := ODict (kvs ++ [(p, x)])]> (st_heap s)) s).
Proof.
  intros Hl Hp. unfold merge_target. erewrite bind_run; [|reflexivity].
  unfold obj_at. rewrite Hl, Hp. unfold setitem. simpl. rewrite Hl.
  by rewrite dict_set_absent.
Qed.

(** X23. On a flat dictionary (all values scalars, keys distinct) that
    has no field under the predicate name yet, a mapping does one
    thing: when the source key holds a value other than [None], it adds
    a field under the predicate name (the model lists it last),
    holding that value, or, when the mapping has a transform, a new
    callable that remembers the transform and the value.  The source
    field stays; a source key that is missing or holds [None] leaves
    the document as it is. *)
Theorem apply_mapping_flat (d : nat) (l : loc) (kvs : list (string * val))
  (m : Mapping) (p_n3 : string) (s : State) :
  st_heap s !! l = Some (ODict kvs) →
  NoDup kvs.*1 →
  (∀ k x, (k, x) ∈ kvs → ∀ l', x ≠ VRef l') →
  assoc p_n3 kvs = None →
  apply_mapping env (S (S d)) (VRef l) m p_n3 s
  = match assoc (m_key m) kvs with
    | None | Some VNone => (Ok tt, s)
    | Some v =>
        match m_transform m with
        | None =>
            (Ok tt,
             set_heap (<[l := ODict (kvs ++ [(p_n3, v)])]> (st_heap s)) s)
        | Some t =>
            (Ok tt,
             set_heap
               (<[l := ODict (kvs ++ [(p_n3, VRef (length (st_heap s)))])]>
                  (st_heap s ++ [OCall (mkCallable t v)])) s)
        end
    end.
Proof.
  intros Hl Hnd Hflat Hp.
  remember (S d) as d' eqn:Hd'.
  cbn [apply_mapping]. erewrite bind_run; [|reflexivity].
  change (obj_at (st_heap s) (VRef l)) with (st_heap s !! l). rewrite Hl.
  lazymatch goal with
  | |- for_each _ ?b _ = _ => set (body := b)
  end.
  (* the keys other than the source key *)
  assert (Hother : ∀ k s0 kvs0,
             k ≠ m_key m → k ∈ kvs.*1 →
             st_heap s0 !! l = Some (ODict kvs0) →
             (∀ x, assoc k kvs = Some x → assoc k kvs0 = Some x) →
             body k s0 = (Ok tt, s0)).
  { intros k s0 kvs0 Hk Hin Hl0 Hsame. unfold body.
    rewrite decide_False by done.
    destruct (assoc_is_Some k kvs Hin) as [x Hx].
    erewrite bind_run;
      [|unfold getitem; simpl; by rewrite Hl0, (Hsame x Hx)].
    apply assoc_elem in Hx. rewrite Hd'.
    apply apply_mapping_leaf; intros ?; destruct x; try done;
      by destruct (Hflat _ _ Hx l0). }
  assert (Hothers : ∀ ks s0 kvs0,
             m_key m ∉ ks → (∀ k, k ∈ ks → k ∈ kvs.*1) →
             st_heap s0 !! l = Some (ODict kvs0) →
             (∀ k x, assoc k kvs = Some x → assoc k kvs0 = Some x) →
             for_each ks body s0 = (Ok tt, s0)).
  { induction ks as [|k ks IH]; intros s0 kvs0 Hkey Hks Hl0 Hsame; [done|].
    cbn [for_each]. erewrite bind_run.
    - apply (IH s0 kvs0); [|intros k' ?; apply Hks; by right|done|done].
      intros ?. apply Hkey. by right.
    - apply (Hother k s0 kvs0); [|apply Hks; left|done|by apply Hsame].
      intros ->. apply Hkey. left. }
  destruct (assoc (m_key m) kvs) as [v|] eqn:Hv.
  2:{ apply (Hothers _ s kvs); [|done|done|done].
      intros Hin. apply assoc_is_Some in Hin as [x Hx]. congruence. }
  assert (m_key m ∈ kvs.*1) as Hin.
  { apply list_elem_of_fmap. exists (m_key m, v). split; [done|].
    by apply assoc_elem. }
  apply list_elem_of_split in Hin as (before & after & Hsplit).
  assert (Hnd' := Hnd). rewrite Hsplit in Hnd'.
  apply NoDup_app in Hnd' as (_ & Hb & Ha%NoDup_cons).
  destruct Ha as [Ha _].
  assert (Hbefore : m_key m ∉ before).
  { intros Hin. apply (Hb _ Hin). left. }
  rewrite Hsplit, for_each_app.
  rewrite (Hothers before s kvs Hbefore); [|intros k Hk; rewrite Hsplit;
    apply elem_of_app; by left|done|done].
  cbn [for_each].
  assert (Hafter : ∀ s1 kvs1,
             st_heap s1 !! l = Some (ODict kvs1) →
             (∀ k x, assoc k kvs = Some x → assoc k kvs1 = Some x) →
             for_each after body s1 = (Ok tt, s1)).
  { intros s1 kvs1 Hl1 Hsame. apply (Hothers after s1 kvs1); [done| |done|done].
    intros k Hk. rewrite Hsplit. apply elem_of_app. right. by right. }
  assert (Hscalar : ∀ l', v ≠ VRef l').
  { apply (Hflat (m_key m)). by apply assoc_elem. }
  assert (Hobj : ∀ h, obj_at h v = None).
  { intros h. destruct v; try done. by destruct (Hscalar l0). }
  assert (Hmatch : ∀ (A : Type) (a b : A),
             v ≠ VNone → match v with VNone => a | _ => b end = b)
    by (intros; by destruct v).
  assert (Hget : getitem (VRef l) (m_key m) s = (Ok v, s))
    by (unfold getitem; simpl; by rewrite Hl, Hv).
  destruct (decide (v = VNone)) as [->|Hnone].
  { erewrite bind_run; [by apply (Hafter s kvs)|].
    unfold body. rewrite decide_True by done.
    by erewrite bind_run by exact Hget. }
  rewrite Hmatch by done.
  destruct (m_transform m) as [t|] eqn:Ht.
  - set (s1 := set_heap (st_heap s ++ [OCall (mkCallable t v)]) s).
    assert (Hl1 : st_heap s1 !! l = Some (ODict kvs))
      by (by apply lookup_app_l_Some).
    set (x := VRef (length (st_heap s))).
    set (s2 := set_heap (<[l:=ODict (kvs ++ [(p_n3, x)])]> (st_heap s1)) s1).
    assert (Hl2 : st_heap s2 !! l = Some (ODict (kvs ++ [(p_n3, x)]))).
    { simpl. apply list_lookup_insert_eq. by eapply lookup_lt_Some. }
    erewrite (bind_run _ _ s tt s2).
    + apply (Hafter s2 _ Hl2). intros k x0. apply assoc_app_l.
    + unfold body. rewrite decide_True by done.
      erewrite bind_run by exact Hget. rewrite Hmatch by done.
      erewrite bind_run; [|reflexivity]. rewrite Hobj.
      erewrite bind_run; [|reflexivity].
      erewrite bind_run; [|reflexivity].
      erewrite bind_run; [|by apply (merge_target_absent l kvs)].
      erewrite bind_run;
        [|unfold getitem; simpl obj_at;
          rewrite list_lookup_insert_eq
            by (rewrite length_app; apply lookup_lt_Some in Hl; lia);
          by rewrite assoc_app_absent].
      rewrite Hd'. apply apply_mapping_leaf; intros ?; unfold x; simpl.
      * rewrite list_lookup_insert_ne.
        -- by rewrite list_lookup_middle.
        -- apply lookup_lt_Some in Hl. lia.
      * rewrite list_lookup_insert_ne.
        -- by rewrite list_lookup_middle.
        -- apply lookup_lt_Some in Hl. lia.
  - set (s2 := set_heap (<[l:=ODict (kvs ++ [(p_n3, v)])]> (st_heap s)) s).
    assert (Hl2 : st_heap s2 !! l = Some (ODict (kvs ++ [(p_n3, v)]))).
    { simpl. apply list_lookup_insert_eq. by eapply lookup_lt_Some. }
    erewrite (bind_run _ _ s tt s2).
    + apply (Hafter s2 _ Hl2). intros k x0. apply assoc_app_l.
    + unfold body. rewrite decide_True by done.
      erewrite bind_run by exact Hget. rewrite Hmatch by done.
      erewrite bind_run; [|reflexivity]. rewrite Hobj.
      erewrite bind_run; [|reflexivity].
      erewrite bind_run; [|reflexivity].
      erewrite bind_run; [|by apply (merge_target_absent l kvs)].
      erewrite bind_run;
        [|unfold getitem; simpl obj_at;
          rewrite list_lookup_insert_eq by (by eapply lookup_lt_Some);
          by rewrite assoc_app_absent].
      rewrite Hd'. apply apply_mapping_leaf; intros ?; by rewrite Hobj.
Qed.
End FlatMappings.

(* ================================================================== *)
(** * When the materializer and the enricher return *)
(* ================================================================== *)

Section Returns.
Variable env : Env.

Lemma parse_term_total m term s :
  well_formed env term → ∃ x m' s', parse_term env m term s = (Ok (x, m'), s').
Proof.
  unfold well_formed, parse_term. intros Hwf.
  repeat case_decide; try (by eexists _, _, _).
  - destruct Hwf as [d Hd]; [done|]. rewrite Hd. by eexists _, _, _.
  - destruct (float_of_string env (nt_value term)); by eexists _, _, _.
  - destruct Hwf as [bid ->].
    destruct (m !! bid); by eexists _, _, _.
Qed.

Lemma converted_term_well_formed m term x :
  converted_term env m term = Some x → well_formed env term.
Proof.
  unfold well_formed, converted_term. intros Hx.
  repeat case_decide; try done.
  - intros _. destruct (coerce_datetime env (nt_value term)); [by eexists|done].
  - destruct (split_on ":" (nt_value term) !! 1%nat); [by eexists|done].
Qed.

Lemma materialize_total (m : gmap string string) (ts : list NTriple)
  (s : State) :
  (∃ m' s', materialize env m ts s = (Ok m', s'))
  ↔ ∀ t, t ∈ ts → well_formed env t.1.1 ∧ well_formed env t.1.2
                   ∧ well_formed env t.2.
Proof.
  split.
  - intros (m' & s' & Hrun) t Ht.
    apply materialize_ok in Hrun as (_ & _ & _ & Hconv & _).
    destruct (Hconv t Ht) as [x Hx]. unfold converted_triple in Hx.
    destruct (converted_term env m' t.1.1) eqn:H1; [|done].
    destruct (converted_term env m' t.1.2) eqn:H2; [|done].
    destruct (converted_term env m' t.2) eqn:H3; [|done].
    split_and!; by eapply converted_term_well_formed.
  - revert m s. induction ts as [|[[s0 p0] o0] ts IH]; intros m s Hwf;
      [by eexists _, _|].
    destruct (Hwf (s0, p0, o0)) as (Hs & Hp & Ho); [left|]. simpl in *.
    destruct (parse_term_total m s0 s Hs) as (x1 & m1 & s1 & H1).
    destruct (parse_term_total m1 p0 s1 Hp) as (x2 & m2 & s2 & H2).
    destruct (parse_term_total m2 o0 s2 Ho) as (x3 & m3 & s3 & H3).
    cbn [materialize].
    erewrite bind_run by exact H1. erewrite bind_run by exact H2.
    erewrite bind_run by exact H3. erewrite bind_run; [|reflexivity].
    apply IH. intros t Ht. apply Hwf. by right.
Qed.
(** X24. [ld_triples] returns exactly when the normalization returns
    and every term of every normalized statement can be read: a term
    that is neither an IRI nor a literal carries an identifier with a
    colon, and the value of a literal of datatype [xsd:dateTime] is
    accepted by one of the three readers. *)
Theorem ld_triples_returns (data : val) (s : State) :
  (∃ s', ld_triples env data s = (Ok tt, s'))
  ↔ ∃ ts, normalize env (st_ctx s) (st_heap s) data = Ok ts
          ∧ ∀ t, t ∈ ts → well_formed env t.1.1 ∧ well_formed env t.1.2
                           ∧ well_formed env t.2.
Proof.
  unfold ld_triples. erewrite bind_run; [|reflexivity].
  destruct (normalize env (st_ctx s) (st_heap s) data) as [ts|e] eqn:Hnorm.
  - erewrite bind_run; [|reflexivity]. split.
    + intros (s' & (m' & s1 & Hrun & _)%bind_ok). exists ts. split; [done|].
      apply (materialize_total ∅ ts s). by exists m', s1.
    + intros (ts' & [= <-] & Hwf).
      apply (materialize_total ∅ ts s) in Hwf as (m' & s' & Hrun).
      exists s'. by erewrite bind_run by exact Hrun.
  - split; [by intros [s' Hrun]|by intros (ts & ? & _)].
Qed.

Lemma property_entry_total pd p x s :
  (pi_type pd = "data" → pi_range pd ≠ []) →
  ∃ jp, property_entry env pd p x s = (Ok jp, s).
Proof.
  unfold property_entry. intros Hrange. case_decide as Hdata; [|by eexists].
  destruct (pi_range pd) as [|r rs]; [by destruct Hrange|].
  case_decide; by eexists.
Qed.

(** X25. On a flat document, when no type declares ['@id'] or
    ['@type'], [enrich] returns (the document itself) as soon as the
    registry knows every type, every type name has a colon, and the
    registry knows every declared field of the document, with a range
    when it is a data property. *)
Theorem enrich_flat_returns (d : nat) (uri : string) (l : loc)
  (kvs : list (string * val)) (types : list TypeRef) (vars : list string)
  (kwargs : Args) (s : State) :
  st_heap s !! l = Some (ODict kvs) →
  (∀ k x, (k, x) ∈ kvs → ∀ l', x ≠ VRef l') →
  (∀ t ti, t ∈ types → get_type env (type_n3 env t) = Ok ti →
           ("@id" ∉ ti_properties ti) ∧ ("@type" ∉ ti_properties ti)) →
  (∀ t, t ∈ types →
        is_Some (split_on ":" (type_n3 env t) !! 1%nat)
        ∧ ∃ ti, get_type env (type_n3 env t) = Ok ti) →
  (∀ k, declared_field env types kvs.*1 k →
        ∃ pd, get_property env k = Ok pd
              ∧ (pi_type pd = "data" → pi_range pd ≠ [])) →
  ∃ s', enrich env (S d) uri (VRef l) types vars kwargs s = (Ok (VRef l), s').
Proof.
  intros Hl Hflat Hprops Htypes Hfields.
  assert (Hlt : (l < length (st_heap s))%nat) by (by eapply lookup_lt_Some).
  cbn [enrich].
  erewrite bind_run; [|unfold setitem; simpl; by rewrite Hl].
  erewrite bind_run; [|reflexivity].
  erewrite bind_run;
    [|unfold setitem; simpl;
      rewrite lookup_app_l by (by rewrite length_insert);
      by rewrite list_lookup_insert_eq].
  simpl. rewrite length_insert.
  set (jt := length (st_heap s)).
  set (kvs0 := dict_set "@id" (VStr uri) kvs).
  set (kvs1 := dict_set "@type" (VRef jt) kvs0).
  rewrite insert_app_l by (by rewrite length_insert).
  rewrite list_insert_insert_eq.
  rewrite <- insert_app_l by done.
  set (H0 := <[l := ODict kvs1]> (st_heap s ++ [OList []])).
  assert (HH0l : H0 !! l = Some (ODict kvs1)).
  { unfold H0. apply list_lookup_insert_eq. rewrite length_app. lia. }
  assert (HH0jt : H0 !! jt = Some (OList [])).
  { unfold H0. rewrite list_lookup_insert_ne by (unfold jt; lia).
    by apply list_lookup_middle. }
  lazymatch goal with
  | |- context [for_each types ?b] => set (outer := b)
  end.
  assert (Hloop : ∀ ts s0 acc,
             (∀ t, t ∈ ts → t ∈ types) →
             st_heap s0 !! l = Some (ODict kvs1) →
             st_heap s0 !! jt = Some (OList acc) →
             ∃ s1', for_each ts outer s0 = (Ok tt, s1')).
  { induction ts as [|t ts IH]; intros s0 acc Hts Hl0 Hjt; [by eexists|].
    destruct (Htypes t) as ([w Hw] & ti & Hti); [apply Hts; left|].
    destruct (Hprops t ti) as [Hnid Hntype]; [apply Hts; left|done|].
    cbn [for_each].
    assert (∃ sa acc', outer t s0 = (Ok tt, sa)
                       ∧ st_heap sa !! l = Some (ODict kvs1)
                       ∧ st_heap sa !! jt = Some (OList acc'))
      as (sa & acc' & Hbody & Hla & Hjta).
    { unfold outer.
      erewrite bind_run; [|by unfold lift_result; rewrite Hti].
      rewrite Hw. erewrite bind_run; [|reflexivity].
      erewrite bind_run; [|reflexivity].
      erewrite bind_run; [|unfold append; simpl; by rewrite Hjt].
      erewrite bind_run; [|reflexivity].
      simpl st_heap. unfold obj_at.
      rewrite list_lookup_insert_ne by (unfold jt; lia). rewrite Hl0.
      set (Hc := <[jt:=OList (acc ++ [VStr w])]> (st_heap s0)).
      lazymatch goal with
      | |- context [for_each _ ?b] => set (inner := b)
      end.
      assert (Hinner : ∀ keys sk,
                 (∀ k, k ∈ keys → k ∈ kvs1.*1) →
                 st_heap sk = Hc →
                 ∃ c, for_each keys inner sk = (Ok tt, set_ctx c sk)).
      { induction keys as [|p keys IHk]; intros sk Hkeys Hsk.
        - exists (st_ctx sk). by destruct sk.
        - cbn [for_each].
          assert (∃ c, inner p sk = (Ok tt, set_ctx c sk)) as [c Hp].
          { unfold inner. case_decide as Hin;
              [|exists (st_ctx sk); by destruct sk].
            assert (Hkl : st_heap sk !! l = Some (ODict kvs1)).
            { rewrite Hsk. unfold Hc.
              by rewrite list_lookup_insert_ne by (unfold jt; lia). }
            assert (p ≠ "@id" ∧ p ≠ "@type") as [Hp1 Hp2]
              by (split; by intros ->).
            assert (p ∈ kvs.*1) as Hpk.
            { pose proof (Hkeys p (list_elem_of_here _ _)) as Hpin.
              unfold kvs1, kvs0 in Hpin.
              rewrite !elem_of_dict_set_keys in Hpin. naive_solver. }
            destruct (Hfields p) as (pd & Hpd & Hrange).
            { split; [done|]. exists t, ti. split_and!; [|done|done].
              apply Hts. left. }
            destruct (assoc_is_Some p kvs Hpk) as [x Hx].
            assert (assoc p kvs1 = Some x) as Hx1.
            { unfold kvs1, kvs0. by rewrite !assoc_dict_set_ne. }
            erewrite bind_run; [|by unfold lift_result; rewrite Hpd].
            erewrite bind_run;
              [|unfold getitem; simpl; by rewrite Hkl, Hx1].
            destruct (property_entry_total pd p x sk Hrange) as [jp Hjp].
            erewrite bind_run by exact Hjp.
            erewrite bind_run; [|reflexivity].
            erewrite bind_run;
              [|unfold getitem; simpl; by rewrite Hkl, Hx1].
            erewrite bind_run; [|reflexivity].
            exists (<[p:=jp]> (st_ctx sk)).
            apply assoc_elem in Hx.
            destruct x; try done. by destruct (Hflat _ _ Hx l0). }
          erewrite bind_run by exact Hp.
          destruct (IHk (set_ctx c sk)) as [c' Hrest];
            [intros k Hk; apply Hkeys; by right|done|].
          exists c'. by rewrite Hrest. }
      destruct (Hinner kvs1.*1
                  (set_heap Hc (set_ctx (<[w := mkCtxEntry
                     (extend_uri env (type_n3 env t)) (Some "@id")]>
                     (st_ctx s0)) s0))) as [c Hrun]; [done|done|].
      eexists _, (acc ++ [VStr w]). split; [exact Hrun|]. simpl. unfold Hc.
      split.
      - by rewrite list_lookup_insert_ne by (unfold jt; lia).
      - apply list_lookup_insert_eq. by eapply lookup_lt_Some. }
    erewrite bind_run by exact Hbody.
    apply (IH sa acc'); [|done|done]. intros t' Ht'. apply Hts. by right. }
  destruct (Hloop types (set_heap H0 s) []) as [s' Hs']; [done|done|done|].
  exists s'. by erewrite bind_run by exact Hs'.
Qed.
End Returns.

(* ================================================================== *)
(** * What the pipeline can raise *)
(* ================================================================== *)

Section SafeMonad.
Lemma safe_ret {A} (a : A) : raises_exceptions (ret a).
Proof. by intros s e s'. Qed.
Lemma safe_raise {A} (e : exn) :
  is_Exception e = true → raises_exceptions (raise (A:=A) e).
Proof. by intros He s e' s' [= <- _]. Qed.
Lemma safe_lift_result {A} (r : Result A) :
  (∀ e, r = Raise e → is_Exception e = true) →
  raises_exceptions (lift_result r).
Proof. intros Hr s e s' [= -> _]. by apply Hr. Qed.
Lemma safe_gets {A} (f : State → A) : raises_exceptions (gets f).
Proof. by intros s e s'. Qed.
Lemma safe_get : raises_exceptions get.
Proof. by intros s e s'. Qed.
Lemma safe_modify (f : State → State) : raises_exceptions (modify f).
Proof. by intros s e s'. Qed.
Lemma safe_bind {A B} (c : M State A) (k : A → M State B) :
  raises_exceptions c → (∀ a, raises_exceptions (k a)) →
  raises_exceptions (bind c k).
Proof.
  intros Hc Hk s e s'. unfold bind.
  destruct (c s) as [[a|x] s1] eqn:Hcs.
  - apply Hk.
  - intros [= <- _]. by eapply Hc.
Qed.
Lemma safe_for_each {A} (xs : list A) (body : A → M State unit) :
  (∀ x, x ∈ xs → raises_exceptions (body x)) →
  raises_exceptions (for_each xs body).
Proof.
  induction xs as [|x xs IH]; intros Hbody; simpl.
  - apply safe_ret.
  - apply safe_bind; [apply Hbody; left|].
    intros _. apply IH. intros y Hy. apply Hbody. by right.
Qed.
End SafeMonad.

Ltac safe_step :=
  lazymatch goal with
  | |- raises_exceptions (ret _) => apply safe_ret
  | |- raises_exceptions (raise _) => by apply safe_raise
  | |- raises_exceptions (gets _) => apply safe_gets
  | |- raises_exceptions get => apply safe_get
  | |- raises_exceptions (modify _) => apply safe_modify
  | |- raises_exceptions (bind _ _) => apply safe_bind; [|intros ?]
  | |- raises_exceptions (for_each _ _) => apply safe_for_each; intros ? ?
  | |- raises_exceptions (match ?x with _ => _ end) => destruct x eqn:?
  | |- raises_exceptions (let _ := _ in _) => cbv zeta
  end.

Section Safe.
Variable env : Env.
Hypothesis Hpolite : polite env.

Ltac prim :=
  intros s e s'; cbv beta; repeat case_match; by intros [= <- _].

Lemma safe_alloc o : raises_exceptions (alloc o).
Proof. unfold alloc. prim. Qed.
Lemma safe_getitem md k : raises_exceptions (getitem md k).
Proof. unfold getitem. prim. Qed.
Lemma safe_setitem md k v : raises_exceptions (setitem md k v).
Proof. unfold setitem. prim. Qed.
Lemma safe_append lst v : raises_exceptions (append lst v).
Proof. unfold append. prim. Qed.
Lemma safe_eq_val a b : raises_exceptions (eq_val env a b).
Proof. unfold eq_val. prim. Qed.
Lemma safe_contains lst v : raises_exceptions (contains env lst v).
Proof. unfold contains. prim. Qed.
Lemma safe_ctx_set k e : raises_exceptions (ctx_set k e).
Proof. unfold ctx_set. apply safe_modify. Qed.
Lemma safe_fresh_uuid : raises_exceptions (fresh_uuid env).
Proof. unfold fresh_uuid. prim. Qed.
Lemma safe_add_triple t : raises_exceptions (add_triple t).
Proof. unfold add_triple. apply safe_modify. Qed.
Lemma safe_call_provider f key vars kwargs :
  raises_exceptions (call_provider env f key vars kwargs).
Proof.
  unfold call_provider. intros s e s'. repeat case_match;
    try (by intros [= <- _]).
  intros [= Hp _]. by eapply polite_provider.
Qed.

Ltac safe_prim :=
  first [ apply safe_alloc | apply safe_getitem | apply safe_setitem
        | apply safe_append | apply safe_eq_val | apply safe_contains
        | apply safe_ctx_set | apply safe_fresh_uuid
        | apply safe_call_provider | apply safe_add_triple ].

Ltac safe := repeat (first [ safe_prim | safe_step ]).

Lemma safe_update md items : raises_exceptions (update md items).
Proof. unfold update. safe. Qed.

Lemma safe_load j : raises_exceptions (load j).
Proof.
  induction j as [|b|z|f|str|xs IH|kvs IH] using Json_nested_ind;
    cbn [load]; try apply safe_ret.
  - apply safe_bind; [|intros ?; safe].
    induction IH as [|j' js' Hj' _ IHjs]; safe; auto.
  - apply safe_bind; [|intros ?; safe].
    induction IH as [|[k j'] ms' Hj' _ IHms]; safe; auto.
Qed.

Lemma safe_path_data path data : raises_exceptions (path_data env path data).
Proof. unfold path_data. safe. Qed.

Lemma safe_merge_target md k v :
  raises_exceptions (merge_target env md k v).
Proof. unfold merge_target. safe. Qed.

Lemma safe_apply_mapping depth md mapping p_n3 :
  raises_exceptions (apply_mapping env depth md mapping p_n3).
Proof.
  revert md. induction depth as [|d IH]; intros md; cbn [apply_mapping].
  - by apply safe_raise.
  - safe; first [apply safe_merge_target | apply IH].
Qed.

Lemma safe_apply_mappings data mappings :
  raises_exceptions (apply_mappings env data mappings).
Proof.
  unfold apply_mappings. apply safe_bind; [safe|]. intros h.
  apply safe_bind; [safe|]. intros data0. clear data h.
  revert data0. induction mappings as [|m ms IH]; intros data; [safe|].
  apply safe_bind.
  { safe; first [apply safe_path_data | apply safe_update]. }
  intros data'. apply safe_bind; [apply safe_apply_mapping|].
  intros _. apply IH.
Qed.

Lemma safe_property_entry pdict p_n3 v :
  raises_exceptions (property_entry env pdict p_n3 v).
Proof. unfold property_entry. safe. Qed.

Lemma safe_enrich depth uri data types vars kwargs :
  raises_exceptions (enrich env depth uri data types vars kwargs).
Proof.
  revert uri data types vars kwargs.
  induction depth as [|d IH]; intros uri data types vars kwargs;
    cbn [enrich].
  - by apply safe_raise.
  - repeat first
      [ safe_prim | safe_step | apply safe_property_entry | apply IH
      | apply safe_lift_result; by eauto using polite_get_type,
                                    polite_get_property ].
Qed.

Lemma safe_parse_term m term : raises_exceptions (parse_term env m term).
Proof.
  unfold parse_term. safe; try (by intros s e s').
  apply safe_lift_result. unfold coerce_datetime.
  intros x. repeat case_match; by intros [= <-].
Qed.

Lemma safe_materialize m ts : raises_exceptions (materialize env m ts).
Proof.
  revert m. induction ts as [|[[s p] o] ts IH]; intros m;
    cbn [materialize]; safe; first [apply safe_parse_term | apply IH].
Qed.

Lemma safe_ld_triples data : raises_exceptions (ld_triples env data).
Proof.
  unfold ld_triples. safe; [|apply safe_materialize].
  apply safe_lift_result. by eauto using polite_normalize.
Qed.

Variable eco : Ecosystem.

Lemma safe_copy_static td r_uri b64 args :
  raises_exceptions (copy_static env eco td r_uri b64 args).
Proof. unfold copy_static. safe. Qed.

Lemma safe_expand_types r_uri types props :
  raises_exceptions (expand_types env r_uri types props).
Proof.
  revert props. induction types as [|t types IH]; intros props;
    cbn [expand_types]; [apply safe_ret|].
  apply safe_bind.
  { apply safe_lift_result. by eauto using polite_get_type. }
  intros ti. apply safe_bind; [safe|]. intros _. apply IH.
Qed.

Lemma safe_merge_same_as td r_uri props :
  raises_exceptions (merge_same_as env td r_uri props).
Proof.
  unfold merge_same_as. apply safe_for_each. intros href _.
  apply safe_bind; [apply safe_add_triple|]. intros _.
  apply safe_bind.
  { apply safe_lift_result. by eauto using polite_load_graph. }
  intros g. apply safe_for_each. intros [[s p] o] _.
  repeat case_decide; try apply safe_ret; try apply safe_add_triple.
  destruct (is_BNode s); [apply safe_add_triple|apply safe_ret].
Qed.

Lemma safe_merge_response td r_uri args e response :
  (∀ y, json_body response = Raise y → is_Exception y = true) →
  raises_exceptions (merge_response env td r_uri args e response).
Proof.
  intros Hjson. unfold merge_response.
  apply safe_bind; [by apply safe_lift_result|].
  intros j. apply safe_bind; [apply safe_load|]. intros data.
  apply safe_bind; [by apply safe_apply_mappings|]. intros mapped.
  apply safe_bind; [apply safe_modify|]. intros _.
  apply safe_bind; [by apply safe_enrich|]. intros ld.
  apply safe_bind; [by apply safe_ld_triples|]. intros _.
  apply safe_modify.
Qed.

Lemma safe_call_endpoint td r_uri args e :
  raises_exceptions (call_endpoint env td r_uri args e).
Proof.
  intros s x s'. rewrite call_endpoint_unfold. cbv zeta.
  destruct (invoke env e (st_graph s) r_uri args) as [response|y] eqn:Hinv.
  - case_decide; [|done]. apply safe_merge_response.
    intros y Hy. by eapply polite_json.
  - intros [= <- _]. by eapply polite_invoke.
Qed.

Lemma safe_invoke_chain td r_uri args es :
  raises_exceptions (invoke_chain env td r_uri args es).
Proof.
  unfold invoke_chain. apply safe_for_each.
  intros e _. apply safe_call_endpoint.
Qed.

Lemma concat_results_exception {A B} (f : A → Result (list B))
  (l : list A) (e : exn) :
  (∀ x e', x ∈ l → f x = Raise e' → is_Exception e' = true) →
  concat_results (f <$> l) = Raise e → is_Exception e = true.
Proof.
  induction l as [|x l IH]; intros Hf; [done|].
  rewrite fmap_cons, concat_results_cons.
  destruct (f x) as [xs|e'] eqn:Hx.
  - destruct (concat_results (f <$> l)) as [ys|e''] eqn:Hl; [done|].
    intros [= <-]. apply IH; [|done].
    intros y e0 Hy. apply Hf. by right.
  - intros [= <-]. eapply Hf; [left|done].
Qed.

Lemma compose_endpoints_exception depth td e :
  compose_endpoints env eco depth td = Raise e → is_Exception e = true.
Proof.
  revert td e. induction depth as [|d IH]; intros td e;
    [by intros [= <-]|].
  rewrite compose_endpoints_unfold. apply concat_results_exception.
  intros b e' _. cbv beta. destruct (e_href b); [done|].
  apply concat_results_exception. intros p e'' _.
  destruct (rdict eco !! p) as [pt|]; [|by intros [= <-]].
  destruct (compose_endpoints env eco d pt) as [pes|x] eqn:Hp; [done|].
  intros [= <-]. by eapply IH.
Qed.

Lemma safe_describe_body td tid b64 kwargs :
  raises_exceptions (describe_body env eco td tid b64 kwargs).
Proof.
  unfold describe_body. apply safe_bind.
  { apply safe_lift_result. unfold decode_request. intros e.
    destruct b64 as [b|]; [|done].
    destruct (decode_args env (unquote_padding b)) eqn:Hdec; [done|].
    intros [= <-]. by eapply polite_decode_args. }
  intros decoded. cbv zeta.
  apply safe_bind; [apply safe_copy_static|]. intros _.
  apply safe_bind; [apply safe_expand_types|]. intros props.
  apply safe_bind; [apply safe_merge_same_as|]. intros _.
  destruct (td_base td); [apply safe_ret|].
  apply safe_bind; [|intros es; apply safe_invoke_chain].
  apply safe_lift_result. apply compose_endpoints_exception.
Qed.

(** X26. When the collaborators raise nothing but instances of
    [Exception], [describe_resource] returns for every id of a thing
    description of the ecosystem, whatever the payload and the
    arguments: it hands back the graph and the lifetime that its
    [try] block has reached. *)
Theorem describe_resource_returns (tid : string) (td : TD)
  (b64 : option string) (kwargs : list (string * string)) (draws : nat) :
  rdict eco !! tid = Some td →
  ∃ logged,
    describe_resource env eco tid b64 kwargs draws
    = Ok (mkDescribed
            (st_graph (describe_run env eco td tid b64 kwargs draws).2)
            (cache_control
               (st_ttl (describe_run env eco td tid b64 kwargs draws).2))
            logged).
Proof.
  intros Htd. unfold describe_resource. rewrite Htd.
  pose proof (safe_describe_body td tid b64 kwargs (initial_state draws))
    as Hsafe.
  unfold describe_run in *.
  destruct (describe_body env eco td tid b64 kwargs (initial_state draws))
    as [[[]|e] s]; [by eexists|].
  rewrite (Hsafe e s eq_refl). by eexists.
Qed.
End Safe.

(* ================================================================== *)
(** * The further properties on the small ecosystems *)
(* ================================================================== *)

(** The sensor is found under its blank node. *)
Lemma url_for_node_witness :
  let eco := Demo.ecosystem [] in
  let td := Demo.sensor [] in
  td ∈ eco_tds eco
  ∧ is_BNode (r_node (td_resource td)) = true
  ∧ (∀ td', td' ∈ eco_tds eco →
            r_node (td_resource td') = r_node (td_resource td) →
            td_id td' = td_id td)
  ∧ url_for Demo.env eco (TidNode (BNode "n1")) None [] = "http://gw/sensor".
Proof.
  intros eco td.
  assert (Hin : td ∈ eco_tds eco) by (by apply list_elem_of_singleton).
  assert (Hb : is_BNode (r_node (td_resource td)) = true) by reflexivity.
  assert (Hid : ∀ td', td' ∈ eco_tds eco →
                  r_node (td_resource td') = r_node (td_resource td) →
                  td_id td' = td_id td).
  { intros td' Htd' _. apply list_elem_of_singleton in Htd'. by subst. }
  split_and!; [exact Hin|exact Hb|exact Hid|].
  change (BNode "n1") with (r_node (td_resource td)).
  rewrite (url_for_node Demo.env eco td None [] Hin Hb Hid).
  reflexivity.
Defined.

(** The sensor, a root without variables, is instantiated again. *)
Lemma instantiate_seed_after_init_witness :
  let eco := Demo.ecosystem [] in
  let td := Demo.sensor [] in
  RootTD td ∈ eco_roots eco
  ∧ td_vars td = []
  ∧ instantiate_seed Demo.env eco td [] (init_seeds Demo.env eco)
    = (Some (URIRef "http://gw/sensor"),
       [(URIRef "http://gw/sensor", "ex:Sensor")]).
Proof.
  intros eco td.
  assert (Hroot : RootTD td ∈ eco_roots eco)
    by (by apply list_elem_of_singleton).
  assert (Hvars : td_vars td = []) by reflexivity.
  split_and!; [exact Hroot|exact Hvars|].
  rewrite (instantiate_seed_after_init Demo.env eco td Hroot Hvars).
  reflexivity.
Defined.

(** The valve in an ecosystem where it has no predecessor: its only
    endpoint has no address and is dropped. *)
Lemma compose_endpoints_direct_witness :
  let eco := Demo.ecosystem [] in
  (has_open_endpoint Demo.valve → eco_predecessors eco (td_id Demo.valve) = [])
  ∧ compose_endpoints Demo.env eco 1 Demo.valve = Ok [].
Proof.
  intros eco.
  assert (Hpred : has_open_endpoint Demo.valve →
                  eco_predecessors eco (td_id Demo.valve) = []) by done.
  split; [exact Hpred|].
  rewrite (compose_endpoints_direct Demo.env eco 0 Demo.valve Hpred).
  reflexivity.
Defined.

(** The pump is composed through itself. *)
Lemma compose_endpoints_cycle_witness :
  (∀ a, a = Ring.pump →
        ∃ b, b = Ring.pump ∧ composed_through Ring.ring a b)
  ∧ ∃ e, compose_endpoints Demo.env Ring.ring 100 Ring.pump = Raise e.
Proof.
  assert (Hcycle : ∀ a, a = Ring.pump →
            ∃ b, b = Ring.pump ∧ composed_through Ring.ring a b).
  { intros a ->. exists Ring.pump. split; [done|]. split_and!.
    - exists Ring.e_open. split; [|done]. by apply list_elem_of_singleton.
    - by apply list_elem_of_singleton.
    - reflexivity. }
  split; [exact Hcycle|].
  exact (compose_endpoints_cycle Demo.env Ring.ring (λ a, a = Ring.pump) 100
           Ring.pump Hcycle eq_refl).
Defined.

(** The tap is composed through a thing the ecosystem does not have. *)
Lemma compose_endpoints_unknown_predecessor_witness :
  has_open_endpoint Ring.tap
  ∧ "ghost" ∈ eco_predecessors Ring.ring (td_id Ring.tap)
  ∧ ("ghost" ∉ td_id <$> eco_tds Ring.ring)
  ∧ ∃ e, compose_endpoints Demo.env Ring.ring 100 Ring.tap = Raise e.
Proof.
  assert (Hopen : has_open_endpoint Ring.tap).
  { exists Ring.e_open. split; [|done]. right. left. }
  assert (Hpred : "ghost" ∈ eco_predecessors Ring.ring (td_id Ring.tap))
    by (by apply list_elem_of_singleton).
  assert (Hghost : "ghost" ∉ td_id <$> eco_tds Ring.ring).
  { simpl. intros Hin. repeat apply elem_of_cons in Hin as [[=]|Hin].
    by apply elem_of_nil in Hin. }
  split_and!; [exact Hopen|exact Hpred|exact Hghost|].
  exact (compose_endpoints_unknown_predecessor Demo.env Ring.ring 100
           Ring.tap "ghost" Hopen Hpred Hghost).
Defined.

(** The sensor asked with a payload that does not decode. *)
Lemma describe_resource_bad_payload_witness :
  let eco := Demo.ecosystem [Demo.e_ok] in
  rdict eco !! "sensor" = Some (Demo.sensor [Demo.e_ok])
  ∧ decode_args Demo.env (unquote_padding "") = Raise TypeError
  ∧ is_Exception TypeError = true
  ∧ describe_resource Demo.env eco "sensor" (Some "") [] 0
    = Ok (mkDescribed [] "max-age=100000" (Some TypeError)).
Proof.
  intros eco.
  assert (Htd : rdict eco !! "sensor" = Some (Demo.sensor [Demo.e_ok]))
    by (by vm_compute).
  assert (Hdec : decode_args Demo.env (unquote_padding "") = Raise TypeError)
    by reflexivity.
  split_and!; [exact Htd|exact Hdec|reflexivity|].
  rewrite (describe_resource_bad_payload Demo.env eco "sensor"
             (Demo.sensor [Demo.e_ok]) "" [] 0 TypeError Htd Hdec eq_refl).
  by vm_compute.
Defined.

(** The static triple of the sensor, copied under the URL of the
    request. *)
Lemma copy_static_hides_nodes_witness :
  let eco := Demo.ecosystem [] in
  let r_uri := URIRef "http://gw/sensor" in
  let x := (r_uri, RDF_type, URIRef "ex:Sensor") in
  x ∈ st_graph (copy_static Demo.env eco (Demo.sensor []) r_uri None []
                  (initial_state 0)).2
  ∧ ¬ names_thing eco r_uri
  ∧ (x ∈ st_graph (initial_state 0)
     ∨ (¬ names_thing eco x.1.1 ∧ ¬ names_thing eco x.2)).
Proof.
  intros eco r_uri x.
  assert (Hx : x ∈ st_graph (copy_static Demo.env eco (Demo.sensor []) r_uri
                               None [] (initial_state 0)).2)
    by (vm_compute; left).
  assert (Huri : ¬ names_thing eco r_uri) by (by intros [[=] _]).
  split_and!; [exact Hx|exact Huri|].
  exact (copy_static_hides_nodes Demo.env eco (Demo.sensor []) r_uri None []
           (initial_state 0) x Hx Huri).
Defined.

(** The only endpoint of the sensor refuses the connection: the static
    triple is in the graph all the same. *)
Lemma static_statements_survive_witness :
  let base := [Demo.e_boom] in
  let eco := Demo.ecosystem base in
  let t := (Demo.sensor_node, RDF_type, URIRef "ex:Sensor") in
  let x := (URIRef "http://gw/sensor", RDF_type, URIRef "ex:Sensor") in
  decode_request Demo.env None = Ok (None, [])
  ∧ t ∈ r_graph (td_resource (Demo.sensor base))
  ∧ rewrite_static Demo.env eco (Demo.sensor base)
      (request_uri Demo.env eco "sensor" None []) None [] t = Some x
  ∧ (describe_run Demo.env eco (Demo.sensor base) "sensor" None [] 0).1
    = Raise (ExternalError "connection refused")
  ∧ x ∈ st_graph
          (describe_run Demo.env eco (Demo.sensor base) "sensor" None [] 0).2.
Proof.
  intros base eco t x.
  assert (Hdec : decode_request Demo.env None = Ok (None, [])) by reflexivity.
  assert (Ht : t ∈ r_graph (td_resource (Demo.sensor base)))
    by (by apply list_elem_of_singleton).
  assert (Hx : rewrite_static Demo.env eco (Demo.sensor base)
                 (request_uri Demo.env eco "sensor" None []) None [] t
               = Some x) by (by vm_compute).
  split_and!; [exact Hdec|exact Ht|exact Hx|by vm_compute|].
  exact (static_statements_survive Demo.env eco (Demo.sensor base) "sensor"
           None None [] [] 0 t x Hdec Ht Hx).
Defined.

(** The sensor with the endpoint of order 2 declared before the one of
    order 1. *)
Lemma endpoints_invoked_in_order_witness :
  let base := [Demo.e_ok; Demo.e_down] in
  let eco := Demo.ecosystem base in
  let run := describe_run Demo.env eco (Demo.sensor base) "sensor" None [] 0 in
  td_base (Demo.sensor base) ≠ []
  ∧ run.1 = Ok tt
  ∧ (st_calls run.2).*1 = [Demo.e_down; Demo.e_ok]
  ∧ ∃ es,
      compose_endpoints Demo.env eco (recursion_limit Demo.env)
        (Demo.sensor base) = Ok es
      ∧ (st_calls run.2).*1 ≡ₚ es
      ∧ Sorted by_order (st_calls run.2).*1
      ∧ ∀ o, filter (λ e, e_order e = o) (st_calls run.2).*1
             = filter (λ e, e_order e = o) es.
Proof.
  intros base eco run.
  assert (Hbase : td_base (Demo.sensor base) ≠ []) by done.
  assert (Hrun : run = (Ok tt, run.2)) by (by vm_compute).
  split_and!; [exact Hbase|by vm_compute|by vm_compute|].
  exact (endpoints_invoked_in_order Demo.env eco (Demo.sensor base) "sensor"
           None [] 0 run.2 Hbase Hrun).
Defined.

(** The answer of the endpoint that works carries a hint of 60
    seconds. *)
Lemma lifetime_of_answer_witness :
  let td := Demo.sensor [Demo.e_ok] in
  let r_uri := URIRef "http://gw/sensor" in
  let s := initial_state 0 in
  let run := call_endpoint Demo.env td r_uri [] Demo.e_ok s in
  invoke Demo.env Demo.e_ok (st_graph s) r_uri [] = Ok Demo.ok_response
  ∧ status_code Demo.ok_response = 200%Z
  ∧ run.1 = Ok tt
  ∧ st_ttl run.2 = 60%Z.
Proof.
  intros td r_uri s run.
  assert (Hinv : invoke Demo.env Demo.e_ok (st_graph s) r_uri []
                 = Ok Demo.ok_response) by reflexivity.
  assert (Hstatus : status_code Demo.ok_response = 200%Z) by reflexivity.
  assert (Hrun : run = (Ok tt, run.2)) by (by vm_compute).
  split_and!; [exact Hinv|exact Hstatus|by vm_compute|].
  rewrite (lifetime_of_answer Demo.env td r_uri [] Demo.e_ok s run.2
             Demo.ok_response Hinv Hstatus Hrun).
  reflexivity.
Defined.

(** A reading mapped with a path that the path library rejects. *)
Lemma unmatched_path_is_ignored_witness :
  let m := mkMapping "v" (URIRef "ex:value") (Some "$..[") false None in
  let kvs := [("v", VStr "21")] in
  let s := mkState [] default_ttl [] 0 [ODict kvs] ∅ in
  m_path m = Some "$..["
  ∧ st_heap s !! 0%nat = Some (ODict kvs)
  ∧ NoDup kvs.*1
  ∧ (jsonpath_find Demo.env "$..[" (st_heap s) (VRef 0) = None
     ∨ jsonpath_find Demo.env "$..[" (st_heap s) (VRef 0) = Some [])
  ∧ apply_mappings Demo.env (VRef 0) [m] s
    = (Ok (VRef 0),
       mkState [] default_ttl [] 0
         [ODict [("v", VStr "21"); ("ex:value", VStr "21")]] ∅).
Proof.
  intros m kvs s.
  assert (Hl : st_heap s !! 0%nat = Some (ODict kvs)) by reflexivity.
  assert (Hnd : NoDup kvs.*1) by (apply NoDup_singleton).
  assert (Hfind : jsonpath_find Demo.env "$..[" (st_heap s) (VRef 0) = None
                  ∨ jsonpath_find Demo.env "$..[" (st_heap s) (VRef 0)
                    = Some []) by (by left).
  split_and!; [reflexivity|exact Hl|exact Hnd|exact Hfind|].
  rewrite (unmatched_path_is_ignored Demo.env m "$..[" 0 kvs s eq_refl
             Hl Hnd Hfind).
  by vm_compute.
Defined.


(** An upstream that answers 200 with an array. *)
Lemma non_object_answer_rejected_witness :
  let td := Demo.sensor [Demo.e_ok] in
  let r_uri := URIRef "http://gw/sensor" in
  let s := initial_state 0 in
  let j := JArr [JStr "21"; JStr "22"] in
  let run := call_endpoint Listing.env td r_uri [] Demo.e_ok s in
  invoke Listing.env Demo.e_ok (st_graph s) r_uri [] = Ok Listing.response
  ∧ status_code Listing.response = 200%Z
  ∧ json_body Listing.response = Ok j
  ∧ (∀ kvs, j ≠ JObj kvs)
  ∧ (∀ m, m ∈ endpoint_mappings Listing.env td Demo.e_ok →
          m_path m = None ∧ m_key m ≠ "$container")
  ∧ run.1 = Raise TypeError
  ∧ (∃ x, run.1 = Raise x)
  ∧ st_graph run.2 = st_graph s
  ∧ st_ttl run.2 = st_ttl s.
Proof.
  intros td r_uri s j run.
  assert (Hinv : invoke Listing.env Demo.e_ok (st_graph s) r_uri []
                 = Ok Listing.response) by reflexivity.
  assert (Hstatus : status_code Listing.response = 200%Z) by reflexivity.
  assert (Hjson : json_body Listing.response = Ok j) by reflexivity.
  assert (Hj : ∀ kvs, j ≠ JObj kvs) by done.
  assert (Hms : ∀ m, m ∈ endpoint_mappings Listing.env td Demo.e_ok →
                     m_path m = None ∧ m_key m ≠ "$container")
    by (by intros m ->%list_elem_of_singleton).
  split_and!; [exact Hinv|exact Hstatus|exact Hjson|exact Hj|exact Hms
              |by vm_compute|..];
    apply (non_object_answer_rejected Listing.env td r_uri [] Demo.e_ok s
             Listing.response j Hinv Hstatus Hjson Hj Hms).
Defined.

(** The sensor with an endpoint that is invoked. *)
Lemma endpoints_need_prelude_witness :
  let base := [Demo.e_ok] in
  let eco := Demo.ecosystem base in
  let td := Demo.sensor base in
  st_calls (describe_run Demo.env eco td "sensor" None [] 0).2 ≠ []
  ∧ (∃ decoded, decode_request Demo.env None = Ok decoded)
  ∧ (∀ t, t ∈ r_types (td_resource td) →
          ∃ ti, get_type Demo.env (type_n3 Demo.env (TypeTerm t)) = Ok ti)
  ∧ (∀ href, href ∈ td_rdf_sources td →
             ∃ g, load_graph Demo.env href = Ok g)
  ∧ ∃ es, compose_endpoints Demo.env eco (recursion_limit Demo.env) td
          = Ok es.
Proof.
  intros base eco td.
  assert (Hcalls : st_calls (describe_run Demo.env eco td "sensor" None []
                               0).2 ≠ []) by (by vm_compute).
  split; [exact Hcalls|].
  exact (endpoints_need_prelude Demo.env eco td "sensor" None [] 0 Hcalls).
Defined.

(** Two requests for the same room, the second with one more argument
    and another seed. *)
Lemma scholar_reused_witness :
  let first :=
    _scholar "gw" ["room"] Desk.digest Desk.build 1 [("room", "1")] (∅, []) in
  let later :=
    _scholar "gw" ["room"] Desk.digest Desk.build 2
      [("floor", "3"); ("room", "1")] first.2 in
  first = (Ok "gw/room1",
           ({["gw/room1" := "gw/room1"]},
            ["built gw/room1 from seed 1"]))
  ∧ (∀ k, k ∈ ["room"] →
          default "" (assoc k [("floor", "3"); ("room", "1")])
          = default "" (assoc k [("room", "1")]))
  ∧ later = (Ok "gw/room1", first.2).
Proof.
  intros first later.
  assert (Hfirst : first = (Ok "gw/room1", first.2)) by reflexivity.
  assert (Hsame : ∀ k, k ∈ ["room"] →
            default "" (assoc k [("floor", "3"); ("room", "1")])
            = default "" (assoc k [("room", "1")]))
    by (by intros k ->%list_elem_of_singleton).
  split_and!; [reflexivity|exact Hsame|].
  exact (scholar_reused "gw" ["room"] Desk.digest Desk.build 1 2
           [("room", "1")] [("floor", "3"); ("room", "1")] (∅, [])
           first.2 "gw/room1" Hfirst Hsame).
Defined.

(** Two scholars, the first of which refuses to shut down. *)
Lemma shutdown_clears_witness :
  let g : gmap string string * list string :=
    ({["gw/room=1" := "gw/room=1"; "gw/room=2" := "gw/room=2"]}, []) in
  (∀ sch w e w', Desk.close sch w = (Raise e, w') → is_Exception e = true)
  ∧ (shutdown Desk.close g).1 = Ok tt
  ∧ (shutdown Desk.close g).2.1 = ∅
  ∧ "closed gw/room=2" ∈ (shutdown Desk.close g).2.2.
Proof.
  intros g.
  assert (Hexc : ∀ sch w e w', Desk.close sch w = (Raise e, w') →
                               is_Exception e = true).
  { intros sch w e w'. unfold Desk.close. case_decide; [|done].
    by intros [= <- _]. }
  split; [exact Hexc|].
  rewrite (shutdown_clears Desk.close g Hexc).
  split_and!; [reflexivity|reflexivity|].
  vm_compute. apply list_elem_of_In. vm_compute. tauto.
Defined.

(** A document whose second statement carries a date that no reader
    accepts. *)
Lemma ld_triples_keeps_earlier_witness :
  let s := Listing.dated_document in
  let t1 := (mkNTerm "IRI" "http://gw/sensor" "",
             mkNTerm "IRI" "ex:value" "",
             mkNTerm "literal" "21" "xsd:string") in
  let t2 := (mkNTerm "IRI" "http://gw/sensor" "",
             mkNTerm "IRI" "ex:at" "",
             mkNTerm "literal" "yesterday" XSD_dateTime) in
  let x := (URIRef "http://gw/sensor", URIRef "ex:value",
            Literal (LStr "21") (Some "xsd:string")) in
  normalize Demo.env (st_ctx s) (st_heap s) (VRef 0) = Ok ([t1] ++ [t2])
  ∧ materialize Demo.env ∅ [t1] s = (Ok ∅, set_graph [x] s)
  ∧ t1 ∈ [t1]
  ∧ converted_triple Demo.env ∅ t1 = Some x
  ∧ (ld_triples Demo.env (VRef 0) s).1 = Raise TypeError
  ∧ x ∈ st_graph (ld_triples Demo.env (VRef 0) s).2.
Proof.
  intros s t1 t2 x.
  assert (Hnorm : normalize Demo.env (st_ctx s) (st_heap s) (VRef 0)
                  = Ok ([t1] ++ [t2])) by (by vm_compute).
  assert (Hfirst : materialize Demo.env ∅ [t1] s = (Ok ∅, set_graph [x] s))
    by reflexivity.
  assert (Ht : t1 ∈ [t1]) by (by apply list_elem_of_singleton).
  assert (Hx : converted_triple Demo.env ∅ t1 = Some x) by reflexivity.
  split_and!; [exact Hnorm|exact Hfirst|exact Ht|exact Hx|by vm_compute|].
  exact (ld_triples_keeps_earlier Demo.env (VRef 0) [t1] [t2] s
           (set_graph [x] s) ∅ t1 x Hnorm Hfirst Ht Hx).
Defined.

(** A reading with one declared field and one field that no type
    declares. *)
Lemma enrich_flat_document_witness :
  let kvs := [("ex:value", VStr "21"); ("other", VInt 3)] in
  let s := mkState [] default_ttl [] 0 [ODict kvs] ∅ in
  let types := [TypeTerm (URIRef "ex:Sensor")] in
  let run := enrich Demo.env 100 "http://gw/sensor" (VRef 0) types [] [] s in
  st_heap s !! 0%nat = Some (ODict kvs)
  ∧ (∀ k x, (k, x) ∈ kvs → ∀ l', x ≠ VRef l')
  ∧ (∀ t ti, t ∈ types → get_type Demo.env (type_n3 Demo.env t) = Ok ti →
             ("@id" ∉ ti_properties ti) ∧ ("@type" ∉ ti_properties ti))
  ∧ run.1 = Ok (VRef 0)
  ∧ st_heap run.2
    = [ODict [("ex:value", VStr "21"); ("other", VInt 3);
              ("@id", VStr "http://gw/sensor"); ("@type", VRef 1)];
       OList [VStr "Sensor"]]
  ∧ ∃ shorts,
      Forall2 (λ t w, split_on ":" (type_n3 Demo.env t) !! 1%nat = Some w)
        types shorts
      ∧ st_heap run.2
        = <[0%nat := ODict (dict_set "@type" (VRef (length (st_heap s)))
                              (dict_set "@id" (VStr "http://gw/sensor") kvs))]>
            (st_heap s ++ [OList (VStr <$> shorts)])
      ∧ st_uuid run.2 = st_uuid s
      ∧ st_graph run.2 = st_graph s
      ∧ ∀ k,
          (k ∈ shorts → is_Some (st_ctx run.2 !! k))
          ∧ (declared_field Demo.env types kvs.*1 k →
             ∃ ce, st_ctx run.2 !! k = Some ce
                   ∧ (k ∉ shorts → ce_id ce = extend_uri Demo.env k))
          ∧ (k ∉ shorts → ¬ declared_field Demo.env types kvs.*1 k →
             st_ctx run.2 !! k = st_ctx s !! k).
Proof.
  intros kvs s types run.
  assert (Hl : st_heap s !! 0%nat = Some (ODict kvs)) by reflexivity.
  assert (Hflat : ∀ k x, (k, x) ∈ kvs → ∀ l', x ≠ VRef l').
  { intros k x Hin l'.
    apply elem_of_cons in Hin as [[= _ ->]|Hin]; [done|].
    apply elem_of_cons in Hin as [[= _ ->]|Hin]; [done|].
    by apply elem_of_nil in Hin. }
  assert (Hprops : ∀ t ti, t ∈ types →
            get_type Demo.env (type_n3 Demo.env t) = Ok ti →
            ("@id" ∉ ti_properties ti) ∧ ("@type" ∉ ti_properties ti)).
  { intros t ti ->%list_elem_of_singleton [= <-].
    split; by intros [=]%list_elem_of_singleton. }
  assert (Hrun : run = (Ok (VRef 0), run.2)) by (by vm_compute).
  split_and!; [exact Hl|exact Hflat|exact Hprops|by vm_compute|by vm_compute|].
  apply (enrich_flat_document Demo.env 100 "http://gw/sensor" 0 kvs types
           [] [] s run.2 (VRef 0) Hl Hflat Hprops Hrun).
Defined.


(** A reading mapped onto a predicate it does not hold yet. *)
Lemma apply_mapping_flat_witness :
  let kvs := [("v", VStr "21"); ("other", VInt 3)] in
  let m := mkMapping "v" (URIRef "ex:value") None false None in
  let s := mkState [] default_ttl [] 0 [ODict kvs] ∅ in
  st_heap s !! 0%nat = Some (ODict kvs)
  ∧ NoDup kvs.*1
  ∧ (∀ k x, (k, x) ∈ kvs → ∀ l', x ≠ VRef l')
  ∧ assoc "ex:value" kvs = None
  ∧ apply_mapping Demo.env 2 (VRef 0) m "ex:value" s
    = (Ok tt,
       mkState [] default_ttl [] 0
         [ODict [("v", VStr "21"); ("other", VInt 3);
                 ("ex:value", VStr "21")]] ∅).
Proof.
  intros kvs m s.
  assert (Hl : st_heap s !! 0%nat = Some (ODict kvs)) by reflexivity.
  assert (Hnd : NoDup kvs.*1).
  { simpl. apply NoDup_cons. split; [|apply NoDup_singleton].
    by intros [=]%list_elem_of_singleton. }
  assert (Hflat : ∀ k x, (k, x) ∈ kvs → ∀ l', x ≠ VRef l').
  { intros k x Hin l'.
    apply elem_of_cons in Hin as [[= _ ->]|Hin]; [done|].
    apply elem_of_cons in Hin as [[= _ ->]|Hin]; [done|].
    by apply elem_of_nil in Hin. }
  assert (Hp : assoc "ex:value" kvs = None) by reflexivity.
  split_and!; [exact Hl|exact Hnd|exact Hflat|exact Hp|].
  rewrite (apply_mapping_flat Demo.env 0 0 kvs m "ex:value" s Hl Hnd Hflat Hp).
  reflexivity.
Defined.

(** The same reading: the registry knows the type and the field. *)
Lemma enrich_flat_returns_witness :
  let kvs := [("ex:value", VStr "21"); ("other", VInt 3)] in
  let s := mkState [] default_ttl [] 0 [ODict kvs] ∅ in
  let types := [TypeTerm (URIRef "ex:Sensor")] in
  st_heap s !! 0%nat = Some (ODict kvs)
  ∧ (∀ k x, (k, x) ∈ kvs → ∀ l', x ≠ VRef l')
  ∧ (∀ t ti, t ∈ types → get_type Demo.env (type_n3 Demo.env t) = Ok ti →
             ("@id" ∉ ti_properties ti) ∧ ("@type" ∉ ti_properties ti))
  ∧ (∀ t, t ∈ types →
          is_Some (split_on ":" (type_n3 Demo.env t) !! 1%nat)
          ∧ ∃ ti, get_type Demo.env (type_n3 Demo.env t) = Ok ti)
  ∧ (∀ k, declared_field Demo.env types kvs.*1 k →
          ∃ pd, get_property Demo.env k = Ok pd
                ∧ (pi_type pd = "data" → pi_range pd ≠ []))
  ∧ ∃ s', enrich Demo.env 1 "http://gw/sensor" (VRef 0) types [] [] s
          = (Ok (VRef 0), s').
Proof.
  intros kvs s types.
  assert (Hl : st_heap s !! 0%nat = Some (ODict kvs)) by reflexivity.
  assert (Hflat : ∀ k x, (k, x) ∈ kvs → ∀ l', x ≠ VRef l').
  { intros k x Hin l'.
    apply elem_of_cons in Hin as [[= _ ->]|Hin]; [done|].
    apply elem_of_cons in Hin as [[= _ ->]|Hin]; [done|].
    by apply elem_of_nil in Hin. }
  assert (Hprops : ∀ t ti, t ∈ types →
            get_type Demo.env (type_n3 Demo.env t) = Ok ti →
            ("@id" ∉ ti_properties ti) ∧ ("@type" ∉ ti_properties ti)).
  { intros t ti ->%list_elem_of_singleton [= <-].
    split; by intros [=]%list_elem_of_singleton. }
  assert (Htypes : ∀ t, t ∈ types →
            is_Some (split_on ":" (type_n3 Demo.env t) !! 1%nat)
            ∧ ∃ ti, get_type Demo.env (type_n3 Demo.env t) = Ok ti).
  { intros t ->%list_elem_of_singleton. split; by eexists. }
  assert (Hfields : ∀ k, declared_field Demo.env types kvs.*1 k →
            ∃ pd, get_property Demo.env k = Ok pd
                  ∧ (pi_type pd = "data" → pi_range pd ≠ [])).
  { intros k (_ & t & ti & ->%list_elem_of_singleton & [= <-] & Hk).
    apply list_elem_of_singleton in Hk as ->.
    eexists. split; [reflexivity|done]. }
  split_and!; [exact Hl|exact Hflat|exact Hprops|exact Htypes|exact Hfields|].
  exact (enrich_flat_returns Demo.env 0 "http://gw/sensor" 0 kvs types [] []
           s Hl Hflat Hprops Htypes Hfields).
Defined.

(** The collaborators of the small ecosystem raise [KeyError],
    [TypeError], [ValueError] and connection errors. *)
Lemma describe_resource_returns_witness :
  let base := [Demo.e_boom] in
  let eco := Demo.ecosystem base in
  polite Demo.env
  ∧ rdict eco !! "sensor" = Some (Demo.sensor base)
  ∧ ∃ logged,
      describe_resource Demo.env eco "sensor" None [] 0
      = Ok (mkDescribed
              (st_graph (describe_run Demo.env eco (Demo.sensor base)
                           "sensor" None [] 0).2)
              (cache_control
                 (st_ttl (describe_run Demo.env eco (Demo.sensor base)
                            "sensor" None [] 0).2))
              logged).
Proof.
  intros base eco.
  assert (Hpolite : polite Demo.env).
  { split; simpl.
    - intros b e. by case_decide; intros [= <-].
    - intros t e. unfold Demo.registry_type. by case_decide; intros [= <-].
    - intros p e. unfold Demo.registry_property.
      by case_decide; intros [= <-].
    - done.
    - intros ep g subject args e. unfold Demo.upstream.
      repeat case_match; by intros [= <-].
    - intros ep g subject args response e. unfold Demo.upstream.
      repeat case_match; intros [= <-]; by intros [= <-].
    - done.
    - intros ctx h data e. unfold Demo.flat_normalize.
      repeat case_match; by intros [= <-]. }
  assert (Htd : rdict eco !! "sensor" = Some (Demo.sensor base))
    by (by vm_compute).
  split_and!; [exact Hpolite|exact Htd|].
  exact (describe_resource_returns Demo.env Hpolite eco "sensor"
           (Demo.sensor base) None [] 0 Htd).
Defined.